(** * botster-actuator: session registry, shell executor, process handler,
    file executor, reconnect manager and socket sender, embedded from the
    JavaScript sources and checked against the written specification.

    JavaScript strings are sequences of UTF-16 code units; they are
    modelled as [list Z], one number 0..65535 for each code unit, lengths
    and indices as [Z], objects used as maps as [gmap]. The numbers of
    the backoff are IEEE 754 doubles, [spec_float]; counters, sizes and
    timestamps, whole numbers far below [2^53], are [Z]. Randomness, the
    clock and the operating system are explicit inputs. *)

From Stdlib Require Import ZArith Ascii String DecimalString QArith Lia SpecFloat Zpower.
From stdpp Require Import base decidable option list gmap strings.

Close Scope Q_scope.
Local Open Scope Z_scope.

Abbreviation jsstring := (list Z) (only parsing).

(** The code unit of a character of a source literal. *)
Definition codeUnit (c : ascii) : Z := Z.of_nat (nat_of_ascii c).

(** A source literal. *)
Definition str (s : string) : jsstring := map codeUnit (list_ascii_of_string s).

(** [undefined], [null] or a value, for optional fields that also admit [null]. *)
Inductive nullable (A : Type) : Type :=
| undefined : nullable A
| null : nullable A
| value : A -> nullable A.
Arguments undefined {A}.
Arguments null {A}.
Arguments value {A} _.

(* ================================================================== *)
(** ** The string primitives the sources call *)

Module JS.

(** [s.length] *)
Definition len (s : jsstring) : Z := Z.of_nat (length s).

(** [s.slice(start)]: a negative [start] counts from the end. *)
Definition slice (s : jsstring) (start : Z) : jsstring :=
  let from := if start <? 0 then Z.max (len s + start) 0 else Z.min start (len s) in
  drop (Z.to_nat from) s.

(** [s.substring(start, end)]: both ends clamped to [0, length], swapped
    when out of order; [end] omitted means the length. *)
Definition substring (s : jsstring) (start : Z) (end_ : option Z) : jsstring :=
  let clamp i := Z.min (Z.max i 0) (len s) in
  let a := clamp start in
  let b := match end_ with Some e => clamp e | None => len s end in
  let lo := Z.min a b in
  let hi := Z.max a b in
  take (Z.to_nat (hi - lo)) (drop (Z.to_nat lo) s).

(** [s.startsWith(p)] *)
Fixpoint startsWith (s p : jsstring) {struct p} : bool :=
  match p, s with
  | [], _ => true
  | _ :: _, [] => false
  | c :: p', d :: s' => if c =? d then startsWith s' p' else false
  end.

(** [s.indexOf(needle)], scanning from position [i]; [-1] when absent. *)
Fixpoint indexOf_from (s needle : jsstring) (i : Z) : Z :=
  if startsWith s needle then i
  else match s with
       | [] => -1
       | _ :: s' => indexOf_from s' needle (i + 1)
       end.

Definition indexOf (s needle : jsstring) : Z := indexOf_from s needle 0.

(** [s.charCodeAt(0)]; [None] stands for [NaN] (empty string). *)
Definition charCodeAt0 (s : jsstring) : option Z :=
  match s with
  | [] => None
  | c :: _ => Some c
  end.

(** [String.fromCharCode(code)]: the code is taken modulo 65536. *)
Definition fromCharCode (code : Z) : jsstring := [code mod 65536].

(** Lower-casing of one character. The capitals of the basic alphabet
    and of Latin-1 (U+00C0..U+00DE, U+00D7 excepted) move up by 32;
    U+0130 becomes [i] followed by U+0307; U+212A, the Kelvin sign,
    becomes [k]. These are all the characters whose lower case begins
    with a letter a-z, which is what the one caller of [toLowerCase]
    looks at; the rest of the Unicode table is not written out, and a
    character outside the ones named is left as it is. *)
Definition lowerUnit (c : Z) : jsstring :=
  if ((65 <=? c) && (c <=? 90)) || ((192 <=? c) && (c <=? 222) && negb (c =? 215))
  then [c + 32]
  else if c =? 304 then [105; 775]
  else if c =? 8490 then [107]
  else [c].

(** [s.toLowerCase()] *)
Definition toLowerCase (s : jsstring) : jsstring := concat (map lowerUnit s).

(** Truthiness of an optional number: [undefined], [0] are falsy. *)
Definition truthyNum (n : option Z) : bool :=
  match n with
  | Some k => negb (k =? 0)
  | None => false
  end.

End JS.

(* ================================================================== *)
(** ** process-registry.js *)

Module Registry.

Definition MAX_OUTPUT_CHARS : Z := 200000.
Definition TAIL_CHARS : Z := 4000.

(** A writable stream: what has been written to it so far. *)
Record Writable := { written : list jsstring }.

Record ProcessSession := {
  id : jsstring;
  command : jsstring;
  pid : option Z;
  startedAt : Z;
  cwd : jsstring;
  exited : bool;
  exitCode : nullable Z;
  exitSignal : nullable jsstring;
  backgrounded : bool;
  aggregated : jsstring;
  tail : jsstring;
  maxOutputChars : Z;
  stdin : option Writable
}.

(** The [#sessions] map. *)
Abbreviation sessions := (gmap (list Z) ProcessSession) (only parsing).

(** [#createSessionSlug]: a slug is drawn at random and drawn again while
    it is taken. [draws] is the sequence of random slugs the generator
    yields; [None] means the given draws were all taken. *)
Fixpoint createSessionSlug (draws : list jsstring) (m : sessions) : option jsstring :=
  match draws with
  | [] => None
  | d :: ds =>
      match m !! d with
      | Some _ => createSessionSlug ds m
      | None => Some d
      end
  end.

(** [addSession(command, cwd, pid)]; [now] is [Date.now()]. *)
Definition addSession (draws : list jsstring) (now : Z)
    (command_ cwd_ : jsstring) (pid_ : option Z) (m : sessions)
    : option (ProcessSession * sessions) :=
  match createSessionSlug draws m with
  | None => None
  | Some slug =>
      let session := {|
        id := slug; command := command_; pid := pid_; startedAt := now;
        cwd := cwd_; exited := false; exitCode := undefined;
        exitSignal := undefined; backgrounded := false;
        aggregated := []; tail := []; maxOutputChars := MAX_OUTPUT_CHARS;
        stdin := None |} in
      Some (session, <[slug := session]> m)
  end.

Definition getSession (i : jsstring) (m : sessions) : option ProcessSession := m !! i.

Definition setBackgrounded (s : ProcessSession) : ProcessSession :=
  {| id := id s; command := command s; pid := pid s; startedAt := startedAt s;
     cwd := cwd s; exited := exited s; exitCode := exitCode s;
     exitSignal := exitSignal s; backgrounded := true;
     aggregated := aggregated s; tail := tail s;
     maxOutputChars := maxOutputChars s; stdin := stdin s |}.

(** [markBackgrounded(id)] *)
Definition markBackgrounded (i : jsstring) (m : sessions) : bool * sessions :=
  match m !! i with
  | Some s => (true, <[i := setBackgrounded s]> m)
  | None => (false, m)
  end.

Definition setExited (code : nullable Z) (signal : nullable jsstring)
    (s : ProcessSession) : ProcessSession :=
  {| id := id s; command := command s; pid := pid s; startedAt := startedAt s;
     cwd := cwd s; exited := true; exitCode := code;
     exitSignal := signal; backgrounded := backgrounded s;
     aggregated := aggregated s; tail := tail s;
     maxOutputChars := maxOutputChars s; stdin := None |}.

(** [markExited(id, exitCode, exitSignal)] *)
Definition markExited (i : jsstring) (code : nullable Z)
    (signal : nullable jsstring) (m : sessions) : bool * sessions :=
  match m !! i with
  | Some s => (true, <[i := setExited code signal s]> m)
  | None => (false, m)
  end.

(** [#updateTail(session)] *)
Definition updateTail (s : ProcessSession) : ProcessSession :=
  let t := if JS.len (aggregated s) <=? TAIL_CHARS then aggregated s
           else JS.slice (aggregated s) (- TAIL_CHARS) in
  {| id := id s; command := command s; pid := pid s; startedAt := startedAt s;
     cwd := cwd s; exited := exited s; exitCode := exitCode s;
     exitSignal := exitSignal s; backgrounded := backgrounded s;
     aggregated := aggregated s; tail := t;
     maxOutputChars := maxOutputChars s; stdin := stdin s |}.

Definition setAggregated (a : jsstring) (s : ProcessSession) : ProcessSession :=
  {| id := id s; command := command s; pid := pid s; startedAt := startedAt s;
     cwd := cwd s; exited := exited s; exitCode := exitCode s;
     exitSignal := exitSignal s; backgrounded := backgrounded s;
     aggregated := a; tail := tail s;
     maxOutputChars := maxOutputChars s; stdin := stdin s |}.

(** The body of [appendOutput] on the session object it found. *)
Definition appendToSession (data : jsstring) (s : ProcessSession) : ProcessSession :=
  let newOutput := aggregated s ++ data in
  let s1 := if JS.len newOutput >? maxOutputChars s
            then setAggregated (JS.slice newOutput (- maxOutputChars s)) s
            else setAggregated newOutput s in
  updateTail s1.

(** [appendOutput(id, data)] *)
Definition appendOutput (i : jsstring) (data : jsstring) (m : sessions)
    : bool * sessions :=
  match m !! i with
  | None => (false, m)
  | Some s => (true, <[i := appendToSession data s]> m)
  end.

(** [tail(id)] *)
Definition tailOf (i : jsstring) (m : sessions) : jsstring :=
  match m !! i with
  | Some s => tail s
  | None => []
  end.

Inductive Signal := SIGTERM | SIGKILL.

(** What [killSession] asks of the operating system and the timer queue. *)
Inductive Effect :=
| SendSignal (p : Z) (sig : Signal)
| ForceKillAfter (ms : Z) (i : jsstring).

(** [killSession(id)]. [killThrows] tells whether [process.kill] throws
    (the process is already gone). *)
Definition killSession (killThrows : bool) (i : jsstring) (m : sessions)
    : bool * list Effect :=
  match m !! i with
  | Some s =>
      if JS.truthyNum (pid s) then
        match pid s with
        | Some p =>
            if killThrows then (false, [])
            else (true, [SendSignal p SIGTERM; ForceKillAfter 5000 i])
        | None => (false, [])
        end
      else (false, [])
  | None => (false, [])
  end.

(** The operations of the registry, as one type, and their runs. *)
Inductive Op :=
| OpAddSession (draws : list jsstring) (now : Z) (command_ cwd_ : jsstring) (pid_ : option Z)
| OpAppendOutput (i data : jsstring)
| OpMarkExited (i : jsstring) (code : nullable Z) (signal : nullable jsstring)
| OpMarkBackgrounded (i : jsstring).

Definition applyOp (o : Op) (m : sessions) : option sessions :=
  match o with
  | OpAddSession draws now c d p => snd <$> addSession draws now c d p m
  | OpAppendOutput i data => Some (snd (appendOutput i data m))
  | OpMarkExited i code signal => Some (snd (markExited i code signal m))
  | OpMarkBackgrounded i => Some (snd (markBackgrounded i m))
  end.

Fixpoint runOps (ops : list Op) (m : sessions) : option sessions :=
  match ops with
  | [] => Some m
  | o :: rest =>
      match applyOp o m with
      | Some m' => runOps rest m'
      | None => None
      end
  end.

(** Appending a sequence of chunks to one session, in order. *)
Definition appendAll (i : jsstring) (chunks : list jsstring) (m : sessions) : sessions :=
  foldl (fun acc chunk => snd (appendOutput i chunk acc)) m chunks.

End Registry.

(* ================================================================== *)
(** ** executors/shell.js *)

Module Shell.

Definition DEFAULT_TIMEOUT : Z := 1800.
Definition MAX_TIMEOUT : Z := 3600.

(** Decimal rendering of an integer inside a template string. *)
Definition showZ (z : Z) : jsstring := str (NilZero.string_of_int (Z.to_int z)).

(** [ShellExecOptions] ([env] only travels to [spawn] and is left out). *)
Record ShellExecOptions := {
  command : jsstring;
  cwd : option jsstring;
  timeout : option Z;
  pty : option bool;
  background : option bool;
  yieldMs : option Z
}.

(** One call of a callback of [ShellExecCallbacks]; the session argument
    is given by its id. *)
Inductive Callback :=
| onStdout (data : jsstring)
| onStderr (data : jsstring)
| onDone (exitCode durationMs : Z) (session : jsstring)
| onError (error : jsstring) (session : jsstring)
| onYield (session : jsstring).

(** The terminal outcomes: completion and the three errors. *)
Definition terminal (c : Callback) : bool :=
  match c with
  | onDone _ _ _ | onError _ _ => true
  | _ => false
  end.

(** What [spawn] does: throw, or hand back a child whose [pid] is
    [undefined] when the process could not be started. *)
Inductive SpawnResult :=
| SpawnThrows (err : jsstring)
| Spawned (childPid : option Z).

(** The variables the handlers of one invocation close over. *)
Record Invocation := {
  session : jsstring;
  startTime : Z;
  timeoutSeconds : Z;
  killed : bool;
  timer : bool;        (* the hard timeout is still pending *)
  yieldTimer : bool;   (* a yield timer was set and is still pending *)
  viaPty : bool        (* the handlers sit on the pty, not on the child *)
}.

(** The registry singleton, the callbacks called so far and the signals
    and timers requested so far. *)
Record World := {
  registry : gmap (list Z) Registry.ProcessSession;
  calls : list Callback;
  effects : list Registry.Effect
}.

(** [session.pid = p; session.stdin = w] on the session object. *)
Definition setSpawned (p : option Z) (s : Registry.ProcessSession) : Registry.ProcessSession :=
  {| Registry.id := Registry.id s; Registry.command := Registry.command s;
     Registry.pid := p; Registry.startedAt := Registry.startedAt s;
     Registry.cwd := Registry.cwd s; Registry.exited := Registry.exited s;
     Registry.exitCode := Registry.exitCode s;
     Registry.exitSignal := Registry.exitSignal s;
     Registry.backgrounded := Registry.backgrounded s;
     Registry.aggregated := Registry.aggregated s; Registry.tail := Registry.tail s;
     Registry.maxOutputChars := Registry.maxOutputChars s;
     Registry.stdin := Some {| Registry.written := [] |} |}.

(** [executeShell(opts, callbacks)] up to its [return]: the session is
    registered, the process spawned, timers and handlers installed.
    [draws] and [now] feed [addSession]; [processCwd] is [process.cwd()];
    [ptyModule] tells whether the pty module could be imported;
    [hasOnYield] whether the caller passed [onYield]. The result is the
    session id, the closure left behind ([None] after a failed spawn) and
    the world. *)
Definition executeShell (draws : list jsstring) (now : Z) (processCwd : jsstring)
    (ptyModule : bool) (spawned : SpawnResult)
    (opts : ShellExecOptions) (hasOnYield : bool) (w : World)
    : option (jsstring * option Invocation * World) :=
  let secs := Z.min (default DEFAULT_TIMEOUT (timeout opts)) MAX_TIMEOUT in
  let usePty := default false (pty opts) in
  match Registry.addSession draws now (command opts)
          (default processCwd (cwd opts)) None (registry w) with
  | None => None
  | Some (s, m) =>
      let sid := Registry.id s in
      match spawned with
      | SpawnThrows err =>
          let m' := snd (Registry.markExited sid (value 1) undefined m) in
          Some (sid, None,
                {| registry := m';
                   calls := calls w ++ [onError (str "Failed to spawn: " ++ err) sid];
                   effects := effects w |})
      | Spawned p =>
          let m' := <[sid := setSpawned p s]> m in
          let inv := {| session := sid; startTime := now; timeoutSeconds := secs;
                        killed := false; timer := true;
                        yieldTimer := JS.truthyNum (yieldMs opts) && hasOnYield;
                        viaPty := usePty && ptyModule |} in
          Some (sid, Some inv,
                {| registry := m'; calls := calls w; effects := effects w |})
      end
  end.

(** What the event loop delivers to the handlers of one invocation. *)
Inductive Event :=
| TimeoutFires (killThrows : bool)
| YieldFires
| StdoutData (chunk : jsstring)
| StderrData (chunk : jsstring)
| ProcClose (code : option Z) (signal : option jsstring) (now : Z)
| ProcError (message : jsstring)
| PtyData (data : jsstring)
| PtyExit (exitCode : Z) (signal : option Z) (now : Z).

Definition setKilled (i : Invocation) : Invocation :=
  {| session := session i; startTime := startTime i;
     timeoutSeconds := timeoutSeconds i; killed := true;
     timer := timer i; yieldTimer := yieldTimer i; viaPty := viaPty i |}.

(** The hard timeout has fired: it is no longer pending. *)
Definition timerGone (i : Invocation) : Invocation :=
  {| session := session i; startTime := startTime i;
     timeoutSeconds := timeoutSeconds i; killed := killed i;
     timer := false; yieldTimer := yieldTimer i; viaPty := viaPty i |}.

Definition yieldGone (i : Invocation) : Invocation :=
  {| session := session i; startTime := startTime i;
     timeoutSeconds := timeoutSeconds i; killed := killed i;
     timer := timer i; yieldTimer := false; viaPty := viaPty i |}.

(** [clearTimeout(timer); if (yieldTimer) clearTimeout(yieldTimer)] *)
Definition clearTimers (i : Invocation) : Invocation :=
  yieldGone (timerGone i).

Definition sessionPid (i : jsstring) (m : gmap (list Z) Registry.ProcessSession) : option Z :=
  match m !! i with
  | Some s => Registry.pid s
  | None => None
  end.

Definition sessionExited (i : jsstring) (m : gmap (list Z) Registry.ProcessSession) : bool :=
  match m !! i with
  | Some s => Registry.exited s
  | None => false
  end.

Definition nullableOf {A} (o : option A) : nullable A :=
  match o with
  | Some a => value a
  | None => null
  end.

(** [signal || undefined] *)
Definition orUndefined (o : option jsstring) : nullable jsstring :=
  match o with
  | Some (c :: r) => value (c :: r)
  | _ => undefined
  end.

(** The body of the hard-timeout callback. *)
Definition onTimeout (killThrows : bool) (i : Invocation) (w : World) : Invocation * World :=
  if killed i then (i, w)
  else
    let sid := session i in
    let fx := match sessionPid sid (registry w) with
              | Some p =>
                  if negb (p =? 0) && negb killThrows
                  then [Registry.SendSignal p Registry.SIGTERM;
                        Registry.ForceKillAfter 5000 sid]
                  else []
              | None => []
              end in
    (setKilled i,
     {| registry := snd (Registry.markExited sid (value 1) (value (str "SIGTERM")) (registry w));
        calls := calls w ++ [onError (str "Command timed out after "
                                       ++ showZ (timeoutSeconds i) ++ str "s") sid];
        effects := effects w ++ fx |}).

(** The body of the yield-timer callback. *)
Definition onYieldTimer (i : Invocation) (w : World) : Invocation * World :=
  if negb (killed i) && negb (sessionExited (session i) (registry w))
  then (i, {| registry := snd (Registry.markBackgrounded (session i) (registry w));
              calls := calls w ++ [onYield (session i)];
              effects := effects w |})
  else (i, w).

Definition onData (cb : jsstring -> Callback) (data : jsstring)
    (i : Invocation) (w : World) : Invocation * World :=
  (i, {| registry := snd (Registry.appendOutput (session i) data (registry w));
         calls := calls w ++ [cb data];
         effects := effects w |}).

(** The ['close'] handler of the child and the [onExit] handler of the pty. *)
Definition onExit (code : nullable Z) (signal : nullable jsstring)
    (reported : Z) (now : Z) (i : Invocation) (w : World) : Invocation * World :=
  let i' := clearTimers i in
  if killed i then (i', w)
  else (i', {| registry := snd (Registry.markExited (session i) code signal (registry w));
               calls := calls w ++ [onDone reported (now - startTime i) (session i)];
               effects := effects w |}).

(** The ['error'] handler of the child. *)
Definition onProcError (message : jsstring) (i : Invocation) (w : World) : Invocation * World :=
  let i' := clearTimers i in
  if killed i then (i', w)
  else (i', {| registry := snd (Registry.markExited (session i) (value 1) undefined (registry w));
               calls := calls w ++ [onError (str "Process error: " ++ message) (session i)];
               effects := effects w |}).

(** One event. A timer that is not pending cannot fire, and an event of
    the stream that carries no handler goes nowhere: both leave the state
    as it is. *)
Definition step (e : Event) (i : Invocation) (w : World) : Invocation * World :=
  match e with
  | TimeoutFires kt => if timer i then onTimeout kt (timerGone i) w else (i, w)
  | YieldFires => if yieldTimer i then onYieldTimer (yieldGone i) w else (i, w)
  | StdoutData chunk => if viaPty i then (i, w) else onData onStdout chunk i w
  | StderrData chunk => if viaPty i then (i, w) else onData onStderr chunk i w
  | ProcClose code signal now =>
      if viaPty i then (i, w)
      else onExit (nullableOf code) (orUndefined signal) (default 1 code) now i w
  | ProcError message => if viaPty i then (i, w) else onProcError message i w
  | PtyData data => if viaPty i then onData onStdout data i w else (i, w)
  | PtyExit code signal now =>
      if viaPty i
      then onExit (value code)
             (match signal with
              | Some n => if n =? 0 then undefined else value (str "SIG" ++ showZ n)
              | None => undefined
              end) code now i w
      else (i, w)
  end.

Fixpoint run (es : list Event) (i : Invocation) (w : World) : Invocation * World :=
  match es with
  | [] => (i, w)
  | e :: rest => let '(i', w') := step e i w in run rest i' w'
  end.

(** How many terminal outcomes a log of callbacks holds. *)
Definition terminals (l : list Callback) : nat := length (filter (fun c => terminal c = true) l).

(** The events that end the process as the handlers see it. *)
Definition ends (e : Event) : bool :=
  match e with
  | ProcClose _ _ _ | ProcError _ | PtyExit _ _ _ => true
  | _ => false
  end.

(** An event sequence as Node delivers it for a child process: ['close']
    comes at most once and nothing of the child follows it; ['error'] may
    come before ['close'] (a spawn that fails after [spawn] returned emits
    both). *)
Fixpoint nodeTrace (es : list Event) : bool :=
  match es with
  | [] => true
  | ProcClose _ _ _ :: rest =>
      forallb (fun e => match e with
                        | TimeoutFires _ | YieldFires => true
                        | _ => false
                        end) rest
  | _ :: rest => nodeTrace rest
  end.

End Shell.

(* ================================================================== *)
(** ** executors/process-handler.js *)

Module ProcessHandler.

(** [ProcessInfo], the projection [toProcessInfo] sends over the wire. *)
Record ProcessInfo := {
  id : jsstring;
  command : jsstring;
  pid : option Z;
  startedAt : Z;
  cwd : jsstring;
  exited : bool;
  exitCode : nullable Z;
  exitSignal : nullable jsstring;
  backgrounded : bool
}.

Definition toProcessInfo (s : Registry.ProcessSession) : ProcessInfo :=
  {| id := Registry.id s; command := Registry.command s; pid := Registry.pid s;
     startedAt := Registry.startedAt s; cwd := Registry.cwd s;
     exited := Registry.exited s; exitCode := Registry.exitCode s;
     exitSignal := Registry.exitSignal s;
     backgrounded := Registry.backgrounded s |}.

(** [ProcessActionResult] *)
Record ProcessActionResult := {
  success : bool;
  sessions : option (list ProcessInfo);
  session : option ProcessInfo;
  tail : option jsstring;
  output : option jsstring;
  error : option jsstring
}.

Definition failure (msg : jsstring) : ProcessActionResult :=
  {| success := false; sessions := None; session := None; tail := None;
     output := None; error := Some msg |}.

Definition successWith (s : Registry.ProcessSession) : ProcessActionResult :=
  {| success := true; sessions := None; session := Some (toProcessInfo s);
     tail := None; output := None; error := None |}.

(** [#killSession(sessionId)]: the result, and what was asked of the
    operating system. The function has no [throw] and calls nothing that
    throws outside [try]: its only outcomes are these results. *)
Definition killSession (killThrows : bool) (sessionId : option jsstring)
    (m : gmap (list Z) Registry.ProcessSession)
    : ProcessActionResult * list Registry.Effect :=
  match sessionId with
  | Some (c :: r) =>
      let sid := c :: r in
      match Registry.getSession sid m with
      | None => (failure (str "Session not found: " ++ sid), [])
      | Some s =>
          if Registry.exited s then (failure (str "Process already exited"), [])
          else
            let '(killed, fx) := Registry.killSession killThrows sid m in
            if killed then (successWith s, fx)
            else (failure (str "Failed to kill process (may have already exited)"), fx)
      end
  | _ => (failure (str "Session ID required for kill action"), [])
  end.

Definition chr (n : nat) : Z := Z.of_nat n.
Definition esc : Z := chr 27.

(** The own properties of the [keyMap] literal. *)
Definition keyMap : list (jsstring * jsstring) :=
  [ (str "Enter", [chr 13]);
    (str "Return", [chr 13]);
    (str "Tab", [chr 9]);
    (str "Space", str " ");
    (str "Escape", [esc]);
    (str "Backspace", [chr 8]);
    (str "Delete", [chr 127]);
    (str "ArrowUp", esc :: str "[A");
    (str "ArrowDown", esc :: str "[B");
    (str "ArrowRight", esc :: str "[C");
    (str "ArrowLeft", esc :: str "[D");
    (str "Home", esc :: str "[H");
    (str "End", esc :: str "[F");
    (str "PageUp", esc :: str "[5~");
    (str "PageDown", esc :: str "[6~");
    (str "F1", esc :: str "OP");
    (str "F2", esc :: str "OQ");
    (str "F3", esc :: str "OR");
    (str "F4", esc :: str "OS");
    (str "F5", esc :: str "[15~");
    (str "F6", esc :: str "[17~");
    (str "F7", esc :: str "[18~");
    (str "F8", esc :: str "[19~");
    (str "F9", esc :: str "[20~");
    (str "F10", esc :: str "[21~");
    (str "F11", esc :: str "[23~");
    (str "F12", esc :: str "[24~") ].

(** [keyMap] is an object literal, so a property read that finds no own
    property goes on to [Object.prototype]; these are its members. *)
Definition objectPrototypeNames : list jsstring :=
  [ str "constructor"; str "__proto__"; str "hasOwnProperty";
    str "isPrototypeOf"; str "propertyIsEnumerable"; str "toLocaleString";
    str "toString"; str "valueOf"; str "__defineGetter__";
    str "__defineSetter__"; str "__lookupGetter__"; str "__lookupSetter__" ].

(** What a read of [keyMap[key]] can give: a string of the table, or the
    member of [Object.prototype] of that name (a function or an object,
    never a string). *)
Inductive KeySequence :=
| Chars (s : jsstring)
| Inherited (name : jsstring).

Fixpoint ownProperty (key : jsstring) (table : list (jsstring * jsstring)) : option jsstring :=
  match table with
  | [] => None
  | (k, v) :: rest => if bool_decide (k = key) then Some v else ownProperty key rest
  end.

(** [keyMap[key]]; [None] is [undefined]. *)
Definition keyMapGet (key : jsstring) : option KeySequence :=
  match ownProperty key keyMap with
  | Some v => Some (Chars v)
  | None =>
      if bool_decide (key ∈ objectPrototypeNames) then Some (Inherited key) else None
  end.

(** [#convertKeySequence(key)] *)
Definition convertKeySequence (key : jsstring) : KeySequence :=
  let mapped := default (Chars key) (keyMapGet key) in
  if JS.startsWith key (str "Ctrl+") then
    let char := JS.toLowerCase (JS.substring key 5 None) in
    match JS.charCodeAt0 char with
    | Some c =>
        let code := c - 96 in
        if (1 <=? code) && (code <=? 26) then Chars (JS.fromCharCode code) else mapped
    | None => mapped
    end
  else mapped.

Definition setStdin (w : option Registry.Writable) (s : Registry.ProcessSession)
    : Registry.ProcessSession :=
  {| Registry.id := Registry.id s; Registry.command := Registry.command s;
     Registry.pid := Registry.pid s; Registry.startedAt := Registry.startedAt s;
     Registry.cwd := Registry.cwd s; Registry.exited := Registry.exited s;
     Registry.exitCode := Registry.exitCode s;
     Registry.exitSignal := Registry.exitSignal s;
     Registry.backgrounded := Registry.backgrounded s;
     Registry.aggregated := Registry.aggregated s; Registry.tail := Registry.tail s;
     Registry.maxOutputChars := Registry.maxOutputChars s;
     Registry.stdin := w |}.

(** The loop [for (const key of keys) stdin.write(convert(key))]: a
    string is written; anything else makes [write] throw, and what was
    written before stays written. The result is the stream and whether
    the loop ran to its end. *)
Fixpoint writeKeys (keys : list jsstring) (w : Registry.Writable) : Registry.Writable * bool :=
  match keys with
  | [] => (w, true)
  | key :: rest =>
      match convertKeySequence key with
      | Chars s => writeKeys rest {| Registry.written := Registry.written w ++ [s] |}
      | Inherited _ => (w, false)
      end
  end.

(** [#sendKeysToSession(sessionId, keys)]. [typeError] is the message of
    the exception [write] throws on a chunk that is not a string. *)
Definition sendKeysToSession (typeError : jsstring) (sessionId : option jsstring)
    (keys : option (list jsstring)) (m : gmap (list Z) Registry.ProcessSession)
    : ProcessActionResult * gmap (list Z) Registry.ProcessSession :=
  match sessionId with
  | Some (c :: r) =>
      let sid := c :: r in
      match keys with
      | Some (k :: ks) =>
          match Registry.getSession sid m with
          | None => (failure (str "Session not found: " ++ sid), m)
          | Some s =>
              if Registry.exited s
              then (failure (str "Cannot send keys to exited process"), m)
              else match Registry.stdin s with
                   | None => (failure (str "Session stdin not available"), m)
                   | Some w =>
                       let '(w', finished) := writeKeys (k :: ks) w in
                       let s' := setStdin (Some w') s in
                       let m' := <[sid := s']> m in
                       if finished then (successWith s', m')
                       else (failure (str "Failed to send keys to session: " ++ typeError), m')
                   end
          end
      | _ => (failure (str "Keys required for send-keys action"), m)
      end
  | _ => (failure (str "Session ID required for send-keys action"), m)
  end.

End ProcessHandler.

(* ================================================================== *)
(** ** executors/files.js *)

Module Files.

Inductive Node :=
| File (content : jsstring)
| Directory.

Record FileOperationResult := {
  success : bool;
  content : option jsstring;
  error : option jsstring;
  linesRead : option Z;
  truncated : option bool
}.

Definition ok : FileOperationResult :=
  {| success := true; content := None; error := None; linesRead := None;
     truncated := None |}.

Definition failed (msg : jsstring) : FileOperationResult :=
  {| success := false; content := None; error := Some msg; linesRead := None;
     truncated := None |}.

Record EditPayload := { path : jsstring; oldText : jsstring; newText : jsstring }.

Section Executor.

(** [resolve] and [relative] of [node:path], the root the executor was
    built with, and the message of the exception [readFileSync] throws on
    a path that is not a regular file. *)
Variable resolve : jsstring -> jsstring -> jsstring.
Variable relative : jsstring -> jsstring -> jsstring.
Variable rootPath : jsstring.
Variable readError : jsstring -> jsstring.

(** [#validatePath(inputPath)]; [None] is [null]. *)
Definition validatePath (inputPath : jsstring) : option jsstring :=
  let resolvedPath := resolve rootPath inputPath in
  let relativePath := relative rootPath resolvedPath in
  if JS.startsWith relativePath (str "..") || bool_decide (relativePath = str "..")
  then None
  else Some resolvedPath.

(** The text [edit] computes from the text it read; [None] when
    [indexOf] answers [-1]. *)
Definition editContent (text old new : jsstring) : option jsstring :=
  let oldTextIndex := JS.indexOf text old in
  if oldTextIndex =? -1 then None
  else Some (JS.substring text 0 (Some oldTextIndex) ++ new
             ++ JS.substring text (oldTextIndex + JS.len old) None).

(** [edit(payload)] on a file system of regular files and directories
    that can be written. *)
Definition edit (payload : EditPayload) (fs : gmap (list Z) Node)
    : FileOperationResult * gmap (list Z) Node :=
  match validatePath (path payload) with
  | Some (c :: r) =>
      let validPath := c :: r in
      match fs !! validPath with
      | None => (failed (str "File not found"), fs)
      | Some Directory =>
          (failed (str "Failed to edit file: " ++ readError validPath), fs)
      | Some (File text) =>
          match editContent text (oldText payload) (newText payload) with
          | None => (failed (str "Old text not found in file"), fs)
          | Some newContent => (ok, <[validPath := File newContent]> fs)
          end
      end
  | _ => (failed (str "Invalid path: cannot access outside root directory"), fs)
  end.

End Executor.

(** [needle] occurs in [text] at offset [i]. *)
Definition occursAt (text needle : jsstring) (i : nat) : Prop :=
  exists before after : jsstring,
    text = before ++ needle ++ after /\ length before = i.

Definition occurs (text needle : jsstring) : Prop := exists i, occursAt text needle i.

End Files.

(* ================================================================== *)
(** ** Numbers *)

(** A JavaScript number is an IEEE 754 double: [spec_float], with the
    operations of the standard library's specification of binary64. *)
Module Double.

Definition prec : Z := 53.
Definition emax : Z := 1024.

(** A whole number as a double, rounded to the nearest one. *)
Definition ofZ (z : Z) : spec_float := binary_normalize prec emax z 0 false.

(** [x * y] and [x + y] *)
Definition mul (x y : spec_float) : spec_float := SFmul prec emax x y.
Definition add (x y : spec_float) : spec_float := SFadd prec emax x y.

(** [x < y] and [x <= y] *)
Definition ltb (x y : spec_float) : bool := SFltb x y.
Definition leb (x y : spec_float) : bool := SFleb x y.

(** [Math.pow(2, n)] for a whole number [n]: the power itself, [Infinity]
    from [n = 1024] on. *)
Definition pow2 (n : Z) : spec_float := binary_round prec emax false 1 n.

(** [Math.min(x, y)]: [NaN] if either is, and [-0] counts as below [+0]. *)
Definition min (x y : spec_float) : spec_float :=
  match x, y with
  | S754_nan, _ | _, S754_nan => S754_nan
  | _, _ =>
      if SFltb x y then x
      else if SFltb y x then y
      else match x with S754_zero true => x | _ => y end
  end.

(** The doubles in their one representation. *)
Definition valid (x : spec_float) : bool := valid_binary prec emax x.

(** What [Math.random()] may return: a double of $[0, 1)$. *)
Definition unitInterval (x : spec_float) : bool :=
  valid x && leb (ofZ 0) x && ltb x (ofZ 1).

(** Zero or a finite double, neither infinite nor [NaN]. *)
Definition finite (x : spec_float) : bool :=
  match x with
  | S754_zero _ | S754_finite _ _ _ => true
  | _ => false
  end.

(** Every finite double is a whole number of units of [2^-1074], the
    smallest positive double; this is that number. *)
Definition units (x : spec_float) : Z :=
  match x with
  | S754_finite s m e => cond_Zopp s (Z.pos m) * 2 ^ (e + 1074)
  | _ => 0
  end.


End Double.

(* ================================================================== *)
(** ** reconnect.js *)

Module Reconnect.

Record ReconnectOptions := {
  opt_baseMs : option spec_float;
  opt_maxMs : option spec_float;
  opt_maxAttempts : option Z
}.

(** [maxAttempts = None] is [Infinity]; the attempt counter is a whole
    number; [timer] holds the delay of the pending timeout, if any. *)
Record ReconnectManager := {
  attempt : Z;
  baseMs : spec_float;
  maxMs : spec_float;
  maxAttempts : option Z;
  timer : option spec_float
}.

(** [new ReconnectManager(opts)] *)
Definition create (opts : ReconnectOptions) : ReconnectManager :=
  {| attempt := 0;
     baseMs := default (Double.ofZ 1000) (opt_baseMs opts);
     maxMs := default (Double.ofZ 30000) (opt_maxMs opts);
     maxAttempts := opt_maxAttempts opts;
     timer := None |}.

Definition noOptions : ReconnectOptions :=
  {| opt_baseMs := None; opt_maxMs := None; opt_maxAttempts := None |}.

(** [this.#attempt >= this.#maxAttempts] *)
Definition ceilingReached (r : ReconnectManager) : bool :=
  match maxAttempts r with
  | Some k => k <=? attempt r
  | None => false
  end.

(** The [delay] of [schedule]; [random] is the value [Math.random()] gave. *)
Definition delay (r : ReconnectManager) (random : spec_float) : spec_float :=
  Double.min
    (Double.add (Double.mul (baseMs r) (Double.pow2 (attempt r)))
                (Double.mul random (Double.ofZ 1000)))
    (maxMs r).

(** [schedule(fn)] *)
Definition schedule (random : spec_float) (r : ReconnectManager)
    : bool * ReconnectManager :=
  if ceilingReached r then (false, r)
  else (true, {| attempt := attempt r + 1; baseMs := baseMs r; maxMs := maxMs r;
                 maxAttempts := maxAttempts r; timer := Some (delay r random) |}).

(** [reset()] *)
Definition reset (r : ReconnectManager) : ReconnectManager :=
  {| attempt := 0; baseMs := baseMs r; maxMs := maxMs r;
     maxAttempts := maxAttempts r; timer := None |}.

(** [destroy()] *)
Definition destroy (r : ReconnectManager) : ReconnectManager := reset r.

(** The manager after [n] calls of [schedule] with the given random values. *)
Fixpoint scheduleAll (randoms : list spec_float) (r : ReconnectManager)
    : ReconnectManager :=
  match randoms with
  | [] => r
  | x :: rest => scheduleAll rest (snd (schedule x r))
  end.

End Reconnect.

(* ================================================================== *)
(** ** actuator.js: the socket and what is sent on it *)

Module Actuator.

Inductive ReadyState := CONNECTING | OPEN | CLOSING | CLOSED.

Inductive Status := completed | failed | running.

(** An outbound message; [result] is carried as its JSON text. *)
Inductive Outbound :=
| command_result (id : jsstring) (status : Status) (result : jsstring)
| pong (ts : Z).

(** The fields of [Actuator] that sending and reconnecting touch: the
    socket ([None] is [null]) with its ready state, the frames handed to
    [ws.send] so far, the destroyed flag and the reconnect manager. The
    class has no other field that could hold a message. *)
Record State := {
  ws : option ReadyState;
  wire : list Outbound;
  destroyed : bool;
  reconnect : Reconnect.ReconnectManager
}.

(** [#send(msg)] *)
Definition send (msg : Outbound) (a : State) : State :=
  match ws a with
  | Some OPEN =>
      {| ws := ws a; wire := wire a ++ [msg]; destroyed := destroyed a;
         reconnect := reconnect a |}
  | _ => a
  end.

(** [#sendResult(id, status, result)] *)
Definition sendResult (id : jsstring) (status : Status) (result : jsstring)
    (a : State) : State :=
  send (command_result id status result) a.

(** [#scheduleReconnect()] *)
Definition scheduleReconnect (random : spec_float) (a : State) : State :=
  if destroyed a then a
  else {| ws := ws a; wire := wire a; destroyed := destroyed a;
          reconnect := snd (Reconnect.schedule random (reconnect a)) |}.

(** [#connect()]; [throws] tells whether [new WebSocket] throws. *)
Definition connect (throws : bool) (random : spec_float) (a : State) : State :=
  if destroyed a then a
  else if throws then scheduleReconnect random a
  else {| ws := Some CONNECTING; wire := wire a; destroyed := destroyed a;
          reconnect := reconnect a |}.

(** What happens to the agent between two sends. *)
Inductive Event :=
| SocketOpens
| SocketMoves (rs : ReadyState)
| SocketCloses (random : spec_float)
| ReconnectFires (throws : bool) (random : spec_float)
| Ping (ts : Z)
| Outcome (id : jsstring) (status : Status) (result : jsstring).

Definition handle (e : Event) (a : State) : State :=
  match e with
  | SocketOpens =>
      {| ws := match ws a with Some _ => Some OPEN | None => None end;
         wire := wire a; destroyed := destroyed a;
         reconnect := Reconnect.reset (reconnect a) |}
  | SocketMoves rs =>
      {| ws := match ws a with Some _ => Some rs | None => None end;
         wire := wire a; destroyed := destroyed a; reconnect := reconnect a |}
  | SocketCloses random =>
      scheduleReconnect random
        {| ws := None; wire := wire a; destroyed := destroyed a;
           reconnect := reconnect a |}
  | ReconnectFires throws random => connect throws random a
  | Ping ts => send (pong ts) a
  | Outcome id status result => sendResult id status result a
  end.

Definition handleAll (es : list Event) (a : State) : State :=
  foldl (fun acc e => handle e acc) a es.

(** The socket is missing or not open. *)
Definition notOpen (a : State) : Prop :=
  ws a = None \/ exists rs, ws a = Some rs /\ rs <> OPEN.

End Actuator.

(* ================================================================== *)
(** ** Arrays of lines, as the log and the file reader use them *)

Module JSArray.

Definition newline : Z := 10.

(** [s.split('\n')]: the empty string gives one empty line. *)
Fixpoint splitLines (s : jsstring) : list jsstring :=
  match s with
  | [] => [[]]
  | c :: r =>
      if Z.eqb c newline then [] :: splitLines r
      else match splitLines r with
           | l :: ls => (c :: l) :: ls
           | [] => [[c]]
           end
  end.

(** [lines.join('\n')] *)
Fixpoint joinLines (ls : list jsstring) : jsstring :=
  match ls with
  | [] => []
  | l :: rest =>
      match rest with
      | [] => l
      | _ :: _ => l ++ newline :: joinLines rest
      end
  end.

(** [a.slice(start, end)]: a negative index counts from the end, both
    are clamped to the array, and an end before the start gives []. *)
Definition slice {A : Type} (a : list A) (start end_ : Z) : list A :=
  let len := Z.of_nat (length a) in
  let rel k := if k <? 0 then Z.max (len + k) 0 else Z.min k len in
  let from := rel start in
  let to := rel end_ in
  take (Z.to_nat (to - from)) (drop (Z.to_nat from) a).

End JSArray.

(* ================================================================== *)
(** ** process-registry.js and shell.js: the escalation timer *)

Module Escalation.

(** The callback both [killSession] and the hard timeout hand to
    [setTimeout(..., 5000)]: [SIGKILL], if the session has a pid and has
    not exited by then. [killThrows] tells whether [process.kill] throws. *)
Definition forceKill (killThrows : bool) (i : jsstring)
    (m : gmap (list Z) Registry.ProcessSession) : list Registry.Effect :=
  match m !! i with
  | Some s =>
      match Registry.pid s with
      | Some p =>
          if negb (p =? 0) && negb (Registry.exited s)
          then if killThrows then [] else [Registry.SendSignal p Registry.SIGKILL]
          else []
      | None => []
      end
  | None => []
  end.

End Escalation.

(* ================================================================== *)
(** ** executors/process-handler.js: poll, log and write *)

Module ProcessActions.

(** [#pollSession(sessionId)] *)
Definition pollSession (sessionId : option jsstring)
    (m : gmap (list Z) Registry.ProcessSession) : ProcessHandler.ProcessActionResult :=
  match sessionId with
  | Some (c :: r) =>
      let sid := c :: r in
      match Registry.getSession sid m with
      | None => ProcessHandler.failure (str "Session not found: " ++ sid)
      | Some s =>
          {| ProcessHandler.success := true; ProcessHandler.sessions := None;
             ProcessHandler.session := Some (ProcessHandler.toProcessInfo s);
             ProcessHandler.tail := Some (Registry.tail s);
             ProcessHandler.output := None; ProcessHandler.error := None |}
      end
  | _ => ProcessHandler.failure (str "Session ID required for poll action")
  end.

(** The window [#getSessionLog] cuts out of the output when an offset or
    a limit is given. *)
Definition logWindow (output : jsstring) (offset limit : option Z) : jsstring :=
  match offset, limit with
  | None, None => output
  | _, _ =>
      let lines := JSArray.splitLines output in
      let startLine := Z.max 0 (default 1 offset - 1) in
      let endLine := match limit with
                     | Some l => startLine + l
                     | None => Z.of_nat (length lines)
                     end in
      JSArray.joinLines (JSArray.slice lines startLine endLine)
  end.

(** [#getSessionLog(sessionId, offset, limit)] *)
Definition getSessionLog (sessionId : option jsstring) (offset limit : option Z)
    (m : gmap (list Z) Registry.ProcessSession) : ProcessHandler.ProcessActionResult :=
  match sessionId with
  | Some (c :: r) =>
      let sid := c :: r in
      match Registry.getSession sid m with
      | None => ProcessHandler.failure (str "Session not found: " ++ sid)
      | Some s =>
          {| ProcessHandler.success := true; ProcessHandler.sessions := None;
             ProcessHandler.session := Some (ProcessHandler.toProcessInfo s);
             ProcessHandler.tail := None;
             ProcessHandler.output := Some (logWindow (Registry.aggregated s) offset limit);
             ProcessHandler.error := None |}
      end
  | _ => ProcessHandler.failure (str "Session ID required for log action")
  end.

(** [#writeToSession(sessionId, data)]; writing a string to the stream
    appends it to what was written. *)
Definition writeToSession (sessionId : option jsstring) (data : option jsstring)
    (m : gmap (list Z) Registry.ProcessSession)
    : ProcessHandler.ProcessActionResult * gmap (list Z) Registry.ProcessSession :=
  match sessionId with
  | Some (c :: r) =>
      let sid := c :: r in
      match data with
      | None => (ProcessHandler.failure (str "Data required for write action"), m)
      | Some d =>
          match Registry.getSession sid m with
          | None => (ProcessHandler.failure (str "Session not found: " ++ sid), m)
          | Some s =>
              if Registry.exited s
              then (ProcessHandler.failure (str "Cannot write to exited process"), m)
              else match Registry.stdin s with
                   | None => (ProcessHandler.failure (str "Session stdin not available"), m)
                   | Some w =>
                       let w' := {| Registry.written := Registry.written w ++ [d] |} in
                       let s' := ProcessHandler.setStdin (Some w') s in
                       (ProcessHandler.successWith s', <[sid := s']> m)
                   end
          end
      end
  | _ => (ProcessHandler.failure (str "Session ID required for write action"), m)
  end.

End ProcessActions.

(* ================================================================== *)
(** ** executors/files.js: read *)

Module FileRead.

Definition MAX_FILE_SIZE : Z := 50 * 1024.
Definition MAX_LINES : Z := 2000.

Record ReadPayload := { path : jsstring; offset : option Z; limit : option Z }.

Section Executor.

Variable resolve : jsstring -> jsstring -> jsstring.
Variable relative : jsstring -> jsstring -> jsstring.
Variable rootPath : jsstring.
Variable readError : jsstring -> jsstring.

(** What [read] makes of the text of the file. *)
Definition readContent (text : jsstring) (offset_ limit_ : option Z)
    : Files.FileOperationResult :=
  let lines := JSArray.splitLines text in
  let startLine := default 1 offset_ - 1 in
  let maxLines := Z.min (default MAX_LINES limit_) MAX_LINES in
  if Z.of_nat (length lines) <=? startLine
  then {| Files.success := true; Files.content := Some []; Files.error := None;
          Files.linesRead := Some 0; Files.truncated := None |}
  else
    let selectedLines := JSArray.slice lines startLine (startLine + maxLines) in
    let result := JSArray.joinLines selectedLines in
    let overLines := startLine + maxLines <? Z.of_nat (length lines) in
    let overSize := MAX_FILE_SIZE <? JS.len result in
    {| Files.success := true;
       Files.content := Some (if overSize
                              then JS.substring result 0 (Some MAX_FILE_SIZE)
                              else result);
       Files.error := None;
       Files.linesRead := Some (Z.of_nat (length selectedLines));
       Files.truncated := Some (overLines || overSize) |}.

(** [read(payload)] *)
Definition read (payload : ReadPayload) (fs : gmap (list Z) Files.Node)
    : Files.FileOperationResult :=
  match Files.validatePath resolve relative rootPath (path payload) with
  | Some (c :: r) =>
      let validPath := c :: r in
      match fs !! validPath with
      | None => Files.failed (str "File not found")
      | Some Files.Directory =>
          Files.failed (str "Failed to read file: " ++ readError validPath)
      | Some (Files.File text) => readContent text (offset payload) (limit payload)
      end
  | _ => Files.failed (str "Invalid path: cannot access outside root directory")
  end.

End Executor.

End FileRead.

(* ================================================================== *)
(** ** actuator.js: exec commands, their callbacks, and stop *)

Module Agent.

(** [ExecPayload] as it arrives ([env] left out, as in the executor). *)
Record ExecPayload := {
  command : option jsstring;
  cwd : option jsstring;
  timeout : option Z;
  pty : option bool;
  background : option bool;
  yieldMs : option Z
}.

(** The [result] object of the three callbacks; an absent field is [None]. *)
Record ExecResult := {
  error : option jsstring;
  stdout : option jsstring;
  stderr : option jsstring;
  exitCode : option Z;
  durationMs : option Z;
  sessionId : option jsstring;
  pid : option Z
}.

(** What one [#handleExecCommand] call closes over: the command id, the
    executor's closure, and the two accumulators. *)
Record Running := {
  commandId : jsstring;
  closure : option Shell.Invocation;
  stdoutAcc : jsstring;
  stderrAcc : jsstring
}.

(** The agent: socket and reconnect state, the [#activeCommands] map (in
    insertion order; the kill function of an entry is given by the
    session it closes over), and the registry with the executor's log. *)
Record State := {
  core : Actuator.State;
  activeCommands : list (jsstring * jsstring);
  world : Shell.World
}.

(** [Map.prototype.set] and [delete] on the insertion-ordered map. *)
Fixpoint mapSet (k v : jsstring) (l : list (jsstring * jsstring)) : list (jsstring * jsstring) :=
  match l with
  | [] => [(k, v)]
  | (k', v') :: rest =>
      if bool_decide (k' = k) then (k, v) :: rest else (k', v') :: mapSet k v rest
  end.

Definition mapDelete (k : jsstring) (l : list (jsstring * jsstring)) : list (jsstring * jsstring) :=
  filter (fun kv => fst kv <> k) l.

Definition mapHas (k : jsstring) (l : list (jsstring * jsstring)) : bool :=
  bool_decide (k ∈ map fst l).

Section Callbacks.

(** [JSON.stringify] of a result object. *)
Variable stringify : ExecResult -> jsstring.

Definition setCore (c : Actuator.State) (a : State) : State :=
  {| core := c; activeCommands := activeCommands a; world := world a |}.

Definition addStdout (d : jsstring) (r : Running) : Running :=
  {| commandId := commandId r; closure := closure r;
     stdoutAcc := stdoutAcc r ++ d; stderrAcc := stderrAcc r |}.

Definition addStderr (d : jsstring) (r : Running) : Running :=
  {| commandId := commandId r; closure := closure r;
     stdoutAcc := stdoutAcc r; stderrAcc := stderrAcc r ++ d |}.

(** The body of each callback [#handleExecCommand] passes to the executor. *)
Definition deliver (cb : Shell.Callback) (r : Running) (a : State) : Running * State :=
  let reg := Shell.registry (world a) in
  match cb with
  | Shell.onStdout d => (addStdout d r, a)
  | Shell.onStderr d => (addStderr d r, a)
  | Shell.onDone code duration sid =>
      (r, {| core := Actuator.sendResult (commandId r)
                       (if code =? 0 then Actuator.completed else Actuator.failed)
                       (stringify {| error := None; stdout := Some (stdoutAcc r);
                                     stderr := Some (stderrAcc r);
                                     exitCode := Some code; durationMs := Some duration;
                                     sessionId := Some sid;
                                     pid := Shell.sessionPid sid reg |})
                       (core a);
             activeCommands := mapDelete (commandId r) (activeCommands a);
             world := world a |})
  | Shell.onError e sid =>
      (r, {| core := Actuator.sendResult (commandId r) Actuator.failed
                       (stringify {| error := Some e; stdout := Some (stdoutAcc r);
                                     stderr := Some (stderrAcc r);
                                     exitCode := None; durationMs := None;
                                     sessionId := Some sid;
                                     pid := Shell.sessionPid sid reg |})
                       (core a);
             activeCommands := mapDelete (commandId r) (activeCommands a);
             world := world a |})
  | Shell.onYield sid =>
      (r, setCore (Actuator.sendResult (commandId r) Actuator.running
                     (stringify {| error := None; stdout := Some (stdoutAcc r);
                                   stderr := Some (stderrAcc r);
                                   exitCode := None; durationMs := None;
                                   sessionId := Some sid;
                                   pid := Shell.sessionPid sid reg |})
                     (core a)) a)
  end.

Fixpoint deliverAll (cbs : list Shell.Callback) (r : Running) (a : State) : Running * State :=
  match cbs with
  | [] => (r, a)
  | cb :: rest => let '(r', a') := deliver cb r a in deliverAll rest r' a'
  end.

(** The callbacks the executor called between two worlds. *)
Definition newCalls (before after : Shell.World) : list Shell.Callback :=
  drop (length (Shell.calls before)) (Shell.calls after).

Definition setWorld (w : Shell.World) (a : State) : State :=
  {| core := core a; activeCommands := activeCommands a; world := w |}.

Definition noCommand : ExecResult :=
  {| error := Some (str "No command specified"); stdout := None; stderr := None;
     exitCode := None; durationMs := None; sessionId := None; pid := None |}.

(** [#handleExecCommand(id, payload)] up to the end of the function: the
    executor has returned (with the callbacks it called on the way) and
    the kill function is stored. [agentCwd] is [this.#cwd]; the other
    inputs are the executor's. [None] when the slug draws ran out. *)
Definition handleExecCommand (draws : list jsstring) (now : Z) (processCwd : jsstring)
    (ptyModule : bool) (spawned : Shell.SpawnResult) (agentCwd : jsstring)
    (id : jsstring) (payload : ExecPayload) (a : State)
    : option (State * option Running) :=
  match command payload with
  | Some (c :: rest) =>
      let opts := {| Shell.command := c :: rest;
                     Shell.cwd := Some (default agentCwd (cwd payload));
                     Shell.timeout := timeout payload; Shell.pty := pty payload;
                     Shell.background := background payload;
                     Shell.yieldMs := yieldMs payload |} in
      match Shell.executeShell draws now processCwd ptyModule spawned opts true (world a) with
      | None => None
      | Some (sid, inv, w') =>
          let r0 := {| commandId := id; closure := inv; stdoutAcc := []; stderrAcc := [] |} in
          let '(r1, a1) := deliverAll (newCalls (world a) w') r0 (setWorld w' a) in
          Some ({| core := core a1;
                   activeCommands := mapSet id sid (activeCommands a1);
                   world := world a1 |}, Some r1)
      end
  | _ => Some (setCore (Actuator.sendResult id Actuator.failed (stringify noCommand) (core a)) a,
               None)
  end.

(** One event of the executor reaching the callbacks of a command. *)
Definition onEvent (e : Shell.Event) (r : Running) (a : State) : Running * State :=
  match closure r with
  | None => (r, a)
  | Some inv =>
      let '(inv', w') := Shell.step e inv (world a) in
      deliverAll (newCalls (world a) w')
        {| commandId := commandId r; closure := Some inv';
           stdoutAcc := stdoutAcc r; stderrAcc := stderrAcc r |}
        (setWorld w' a)
  end.

Fixpoint onEvents (es : list Shell.Event) (r : Running) (a : State) : Running * State :=
  match es with
  | [] => (r, a)
  | e :: rest => let '(r', a') := onEvent e r a in onEvents rest r' a'
  end.

End Callbacks.

(** What [stop] asks for besides changing the agent. *)
Inductive StopEffect :=
| Terminate (p : Z)
| CloseSocket (code : Z) (reason : jsstring).

(** The kill function stored for a command: the [process.kill] call it
    makes, [SIGTERM] to the session's process when it has a pid and has
    not exited; what the call throws is swallowed. *)
Definition killCommand (sid : jsstring)
    (m : gmap (list Z) Registry.ProcessSession) : list StopEffect :=
  match m !! sid with
  | Some s =>
      match Registry.pid s with
      | Some p => if negb (p =? 0) && negb (Registry.exited s) then [Terminate p] else []
      | None => []
      end
  | None => []
  end.

(** [stop()] *)
Definition stop (a : State) : State * list StopEffect :=
  let kills := concat (map (fun kv => killCommand (snd kv) (Shell.registry (world a)))
                           (activeCommands a)) in
  let close := match Actuator.ws (core a) with
               | Some _ => [CloseSocket 1000 (str "actuator shutting down")]
               | None => []
               end in
  ({| core := {| Actuator.ws := None; Actuator.wire := Actuator.wire (core a);
                 Actuator.destroyed := true;
                 Actuator.reconnect := Reconnect.destroy (Actuator.reconnect (core a)) |};
      activeCommands := [];
      world := world a |},
   kills ++ close).

End Agent.

(* ================================================================== *)
(** * Properties *)

(** ** Strings *)

Section StringFacts.

(** The trailing [min (length s) n] characters of [s], as the
    specification words the sliding window. *)
Definition trailing (n : Z) (s : jsstring) : jsstring :=
  drop (length s - Z.to_nat n)%nat s.

Lemma slice_negative (s : jsstring) (n : Z) :
  0 < n -> JS.slice s (- n) = trailing n s.
Proof.
  intros Hn. unfold JS.slice, trailing, JS.len.
  destruct (Z.ltb_spec (- n) 0) as [_ | Hge]; [| lia].
  f_equal. lia.
Qed.

Lemma trailing_length (n : Z) (s : jsstring) :
  0 <= n -> JS.len (trailing n s) = Z.min (JS.len s) n.
Proof.
  intros Hn. unfold trailing, JS.len. rewrite length_drop. lia.
Qed.

Lemma trailing_suffix (n : Z) (s : jsstring) : trailing n s `suffix_of` s.
Proof. unfold trailing. apply suffix_drop. Qed.

Lemma trailing_all (n : Z) (s : jsstring) :
  JS.len s <= n -> trailing n s = s.
Proof.
  intros Hle. unfold trailing, JS.len in *.
  replace (length s - Z.to_nat n)%nat with 0%nat by lia. reflexivity.
Qed.

(** Cutting to the window before or after an append gives the same window. *)
Lemma trailing_app_trailing (n : Z) (s d : jsstring) :
  trailing n (trailing n s ++ d) = trailing n (s ++ d).
Proof.
  unfold trailing.
  rewrite !skipn_app, drop_drop, !length_app, !length_drop.
  f_equal; f_equal; lia.
Qed.

Lemma trailing_trailing (n k : Z) (s : jsstring) :
  0 <= k <= n -> trailing k (trailing n s) = trailing k s.
Proof.
  intros Hk. unfold trailing. rewrite length_drop, drop_drop. f_equal. lia.
Qed.

Lemma startsWith_app (s p : jsstring) :
  JS.startsWith s p = true <-> exists r, s = p ++ r.
Proof.
  revert s. induction p as [| c p IH]; intros s; simpl.
  - split; [intros _; by exists s | done].
  - destruct s as [| d s].
    + split; [done | intros [r Hr]; discriminate].
    + destruct (Z.eqb_spec c d) as [-> | Hne].
      * rewrite IH. split; intros [r Hr]; exists r; [by rewrite Hr | congruence].
      * split; [done | intros [r Hr]; congruence].
Qed.

Lemma indexOf_from_absent (s needle : jsstring) (i : Z) :
  0 <= i ->
  JS.indexOf_from s needle i = -1 <->
  forall k, (k <= length s)%nat -> JS.startsWith (drop k s) needle = false.
Proof.
  revert i. induction s as [| c s IH]; intros i Hi; simpl.
  - destruct (JS.startsWith [] needle) eqn:Hs.
    + split; [lia |]. intros H. specialize (H 0%nat). simpl in H.
      rewrite Hs in H. discriminate H. lia.
    + split; [| done]. intros _ k Hk. by rewrite drop_nil.
  - destruct (JS.startsWith (c :: s) needle) eqn:Hs.
    + split; [lia |]. intros H. specialize (H 0%nat). simpl in H.
      rewrite Hs in H. discriminate H. lia.
    + rewrite IH by lia. split.
      * intros H [| k] Hk; [done |]. simpl. apply H. simpl in Hk. lia.
      * intros H k Hk. apply (H (S k)). simpl. lia.
Qed.

(** [indexOf] finds the first occurrence. *)
Lemma indexOf_from_found (s needle : jsstring) (i j : Z) :
  JS.indexOf_from s needle i = j -> j <> -1 -> 0 <= i ->
  exists k : nat,
    j = i + Z.of_nat k /\ (k <= length s)%nat /\
    JS.startsWith (drop k s) needle = true /\
    forall k', (k' < k)%nat -> JS.startsWith (drop k' s) needle = false.
Proof.
  revert i. induction s as [| c s IH]; intros i Hj Hne Hi; simpl in Hj.
  - destruct (JS.startsWith [] needle) eqn:Hs; [| congruence].
    exists 0%nat. repeat split; [lia | done | done | intros; lia].
  - destruct (JS.startsWith (c :: s) needle) eqn:Hs.
    + exists 0%nat. repeat split; [lia | simpl; lia | done | intros; lia].
    + destruct (IH (i + 1) Hj Hne ltac:(lia)) as (k & Hk & Hlen & Hat & Hbefore).
      exists (S k). repeat split; [lia | simpl; lia | done |].
      intros [| k'] Hlt; [done |]. simpl. apply Hbefore. lia.
Qed.

Lemma substring_prefix (s : jsstring) (k : nat) :
  (k <= length s)%nat -> JS.substring s 0 (Some (Z.of_nat k)) = take k s.
Proof.
  intros Hk. unfold JS.substring, JS.len. cbv zeta.
  match goal with |- take ?a (drop ?b _) = _ =>
    replace b with 0%nat by lia; replace a with k by lia end.
  reflexivity.
Qed.

Lemma substring_rest (s : jsstring) (k : nat) :
  (k <= length s)%nat -> JS.substring s (Z.of_nat k) None = drop k s.
Proof.
  intros Hk. unfold JS.substring, JS.len. cbv zeta.
  match goal with |- take ?a (drop ?b _) = _ =>
    replace b with k by lia; replace a with (length s - k)%nat by lia end.
  apply take_ge. rewrite length_drop. lia.
Qed.

End StringFacts.

(* ================================================================== *)
(** ** The process registry *)

Section RegistryFacts.

Implicit Types (m : gmap (list Z) Registry.ProcessSession).
Implicit Types (s : Registry.ProcessSession) (i data : list Z).

(** All the output appended to session [i] by a run of operations, in order. *)
Fixpoint appended (i : jsstring) (ops : list Registry.Op) : jsstring :=
  match ops with
  | [] => []
  | Registry.OpAppendOutput j data :: rest =>
      if bool_decide (j = i) then data ++ appended i rest else appended i rest
  | _ :: rest => appended i rest
  end.

(** What every session of the registry satisfies. *)
Definition sessionOk s : Prop :=
  Registry.tail s = trailing Registry.TAIL_CHARS (Registry.aggregated s)
  /\ Registry.maxOutputChars s = Registry.MAX_OUTPUT_CHARS
  /\ JS.len (Registry.aggregated s) <= Registry.MAX_OUTPUT_CHARS
  /\ (Registry.exited s = true -> Registry.stdin s = None).

Lemma updateTail_tail s :
  Registry.tail (Registry.updateTail s)
  = trailing Registry.TAIL_CHARS (Registry.aggregated s).
Proof.
  unfold Registry.updateTail. simpl.
  destruct (Z.leb_spec (JS.len (Registry.aggregated s)) Registry.TAIL_CHARS) as [Hle | Hgt].
  - symmetry. by apply trailing_all.
  - apply slice_negative. reflexivity.
Qed.

Lemma appendToSession_aggregated data s :
  0 < Registry.maxOutputChars s ->
  Registry.aggregated (Registry.appendToSession data s)
  = trailing (Registry.maxOutputChars s) (Registry.aggregated s ++ data).
Proof.
  intros Hpos. unfold Registry.appendToSession.
  destruct (Z.gtb_spec (JS.len (Registry.aggregated s ++ data))
              (Registry.maxOutputChars s)) as [Hgt | Hle]; simpl.
  - by apply slice_negative.
  - symmetry. by apply trailing_all.
Qed.

Lemma appendToSession_tail data s :
  Registry.tail (Registry.appendToSession data s)
  = trailing Registry.TAIL_CHARS
      (Registry.aggregated (Registry.appendToSession data s)).
Proof.
  unfold Registry.appendToSession.
  destruct (_ >? _); by rewrite updateTail_tail.
Qed.

Lemma appendToSession_fields data s :
  Registry.exited (Registry.appendToSession data s) = Registry.exited s
  /\ Registry.stdin (Registry.appendToSession data s) = Registry.stdin s
  /\ Registry.maxOutputChars (Registry.appendToSession data s)
     = Registry.maxOutputChars s
  /\ Registry.exitCode (Registry.appendToSession data s) = Registry.exitCode s
  /\ Registry.backgrounded (Registry.appendToSession data s)
     = Registry.backgrounded s.
Proof. unfold Registry.appendToSession. by destruct (_ >? _). Qed.

Lemma appendToSession_ok data s : sessionOk s -> sessionOk (Registry.appendToSession data s).
Proof.
  intros (Ht & Hmax & Hlen & Hin).
  destruct (appendToSession_fields data s) as (He & Hs & Hm & _ & _).
  assert (Hpos : 0 < Registry.maxOutputChars s) by (rewrite Hmax; reflexivity).
  repeat split.
  - apply appendToSession_tail.
  - congruence.
  - rewrite appendToSession_aggregated, trailing_length by lia.
    rewrite Hmax. lia.
  - rewrite He, Hs. exact Hin.
Qed.

Lemma setExited_ok code signal s : sessionOk s -> sessionOk (Registry.setExited code signal s).
Proof. intros (Ht & Hmax & Hlen & Hin). by repeat split. Qed.

Lemma setBackgrounded_ok s : sessionOk s -> sessionOk (Registry.setBackgrounded s).
Proof. intros (Ht & Hmax & Hlen & Hin). by repeat split. Qed.

Lemma createSessionSlug_fresh draws m slug :
  Registry.createSessionSlug draws m = Some slug -> m !! slug = None.
Proof.
  induction draws as [| d ds IH]; simpl; [done |].
  destruct (m !! d) eqn:Hd; [exact IH |].
  intros [= <-]. exact Hd.
Qed.

Lemma addSession_inv draws now c d p m s m' :
  Registry.addSession draws now c d p m = Some (s, m') ->
  m !! Registry.id s = None /\ m' = <[Registry.id s := s]> m
  /\ Registry.aggregated s = [] /\ Registry.tail s = []
  /\ Registry.exited s = false /\ Registry.stdin s = None
  /\ Registry.maxOutputChars s = Registry.MAX_OUTPUT_CHARS.
Proof.
  unfold Registry.addSession.
  destruct (Registry.createSessionSlug draws m) as [slug |] eqn:Hslug; [| done].
  intros [= <- <-]. simpl.
  by apply createSessionSlug_fresh in Hslug.
Qed.

Lemma addSession_ok draws now c d p m s m' :
  Registry.addSession draws now c d p m = Some (s, m') -> sessionOk s.
Proof.
  intros H. apply addSession_inv in H as (_ & _ & Ha & Ht & He & Hs & Hm).
  repeat split; [by rewrite Ht, Ha | done | by rewrite Ha | done].
Qed.

Definition registryOk m : Prop := forall i s, m !! i = Some s -> sessionOk s.

Lemma applyOp_ok o m m' : registryOk m -> Registry.applyOp o m = Some m' -> registryOk m'.
Proof.
  intros Hm Hop j t Hj. destruct o as [draws now c d p | i data | i code signal | i]; simpl in Hop.
  - destruct (Registry.addSession draws now c d p m) as [[s m1] |] eqn:Hadd; [| done].
    injection Hop as <-. simpl in Hj.
    pose proof (addSession_ok _ _ _ _ _ _ _ _ Hadd) as Hs.
    apply addSession_inv in Hadd as (_ & -> & _).
    destruct (decide (Registry.id s = j)) as [<- | Hne].
    + rewrite lookup_insert_eq in Hj. by injection Hj as <-.
    + rewrite lookup_insert_ne in Hj by done. by eapply Hm.
  - injection Hop as <-. unfold Registry.appendOutput in Hj.
    destruct (m !! i) as [s |] eqn:Hi; simpl in Hj; [| by eapply Hm].
    destruct (decide (i = j)) as [<- | Hne].
    + rewrite lookup_insert_eq in Hj. injection Hj as <-.
      apply appendToSession_ok. by eapply Hm.
    + rewrite lookup_insert_ne in Hj by done. by eapply Hm.
  - injection Hop as <-. unfold Registry.markExited in Hj.
    destruct (m !! i) as [s |] eqn:Hi; simpl in Hj; [| by eapply Hm].
    destruct (decide (i = j)) as [<- | Hne].
    + rewrite lookup_insert_eq in Hj. injection Hj as <-.
      apply setExited_ok. by eapply Hm.
    + rewrite lookup_insert_ne in Hj by done. by eapply Hm.
  - injection Hop as <-. unfold Registry.markBackgrounded in Hj.
    destruct (m !! i) as [s |] eqn:Hi; simpl in Hj; [| by eapply Hm].
    destruct (decide (i = j)) as [<- | Hne].
    + rewrite lookup_insert_eq in Hj. injection Hj as <-.
      apply setBackgrounded_ok. by eapply Hm.
    + rewrite lookup_insert_ne in Hj by done. by eapply Hm.
Qed.

Lemma runOps_ok ops m m' : registryOk m -> Registry.runOps ops m = Some m' -> registryOk m'.
Proof.
  revert m. induction ops as [| o ops IH]; intros m Hm; simpl.
  - by intros [= <-].
  - destruct (Registry.applyOp o m) as [m1 |] eqn:Hop; [| done].
    apply IH. by eapply applyOp_ok.
Qed.

Lemma empty_ok : registryOk ∅.
Proof. intros i s Hi. by rewrite lookup_empty in Hi. Qed.

(** One operation, seen from a session that already exists: it stays,
    and only an append to it changes its buffer. *)
Lemma applyOp_aggregated o m m' i s :
  m !! i = Some s -> 0 < Registry.maxOutputChars s ->
  JS.len (Registry.aggregated s) <= Registry.maxOutputChars s ->
  Registry.applyOp o m = Some m' ->
  exists s', m' !! i = Some s'
    /\ Registry.maxOutputChars s' = Registry.maxOutputChars s
    /\ Registry.aggregated s'
       = trailing (Registry.maxOutputChars s)
           (Registry.aggregated s ++ appended i [o]).
Proof.
  intros Hi Hpos Hlen Hop.
  assert (Hsame : Registry.aggregated s
                  = trailing (Registry.maxOutputChars s) (Registry.aggregated s ++ [])).
  { rewrite app_nil_r. symmetry. by apply trailing_all. }
  destruct o as [draws now c d p | j data | j code signal | j]; simpl in *.
  - destruct (Registry.addSession draws now c d p m) as [[t m1] |] eqn:Hadd; [| done].
    injection Hop as <-.
    apply addSession_inv in Hadd as (Hfresh & -> & _).
    exists s. rewrite lookup_insert_ne by congruence. done.
  - injection Hop as <-. unfold Registry.appendOutput.
    case_bool_decide as Hj.
    + subst j. rewrite Hi. simpl.
      exists (Registry.appendToSession data s).
      rewrite lookup_insert_eq, app_nil_r.
      destruct (appendToSession_fields data s) as (_ & _ & Hm & _).
      by rewrite appendToSession_aggregated.
    + exists s.
      destruct (m !! j); simpl; [by rewrite lookup_insert_ne |]; done.
  - injection Hop as <-. unfold Registry.markExited.
    destruct (decide (j = i)) as [-> | Hne].
    + rewrite Hi. simpl. eexists. by rewrite lookup_insert_eq.
    + exists s. destruct (m !! j); simpl; [by rewrite lookup_insert_ne |]; done.
  - injection Hop as <-. unfold Registry.markBackgrounded.
    destruct (decide (j = i)) as [-> | Hne].
    + rewrite Hi. simpl. eexists. by rewrite lookup_insert_eq.
    + exists s. destruct (m !! j); simpl; [by rewrite lookup_insert_ne |]; done.
Qed.

Lemma appended_cons i o ops : appended i (o :: ops) = appended i [o] ++ appended i ops.
Proof.
  destruct o; simpl; try done.
  case_bool_decide; [by rewrite app_nil_r | done].
Qed.

(** The sliding window over a whole run. *)
Lemma runOps_aggregated ops m m' i s :
  m !! i = Some s -> 0 < Registry.maxOutputChars s ->
  JS.len (Registry.aggregated s) <= Registry.maxOutputChars s ->
  Registry.runOps ops m = Some m' ->
  exists s', m' !! i = Some s'
    /\ Registry.aggregated s'
       = trailing (Registry.maxOutputChars s)
           (Registry.aggregated s ++ appended i ops).
Proof.
  revert m s. induction ops as [| o ops IH]; intros m s Hi Hpos Hlen Hrun;
    simpl in Hrun.
  - injection Hrun as <-. exists s. split; [done |]. simpl.
    rewrite app_nil_r. symmetry. by apply trailing_all.
  - destruct (Registry.applyOp o m) as [m1 |] eqn:Hop; [| done].
    rewrite appended_cons.
    destruct (applyOp_aggregated _ _ _ _ _ Hi Hpos Hlen Hop)
      as (s1 & Hi1 & Hmax1 & Hagg1).
    destruct (IH m1 s1 Hi1) as (s' & Hi' & Hagg'); [lia | | done |].
    { rewrite Hagg1, trailing_length by lia. lia. }
    exists s'. split; [done |].
    rewrite Hagg', Hagg1, Hmax1, trailing_app_trailing. by rewrite app_assoc.
Qed.

Lemma suffix_trailing_app (n : Z) (x y : jsstring) :
  JS.len y <= n -> y `suffix_of` trailing n (x ++ y).
Proof.
  intros Hle. unfold trailing, JS.len in *.
  rewrite length_app, drop_app_le by lia.
  by apply suffix_app_r.
Qed.

End RegistryFacts.

Section RegistryClaims.

Implicit Types (m : gmap (list Z) Registry.ProcessSession).
Implicit Types (s : Registry.ProcessSession) (i data : list Z).

Lemma appendAll_runOps i chunks m :
  Registry.runOps (map (Registry.OpAppendOutput i) chunks) m
  = Some (Registry.appendAll i chunks m).
Proof.
  revert m. induction chunks as [| c chunks IH]; intros m; [done |].
  simpl. apply IH.
Qed.

Lemma appended_map i chunks :
  appended i (map (Registry.OpAppendOutput i) chunks) = concat chunks.
Proof.
  induction chunks as [| c chunks IH]; simpl; [done |].
  rewrite bool_decide_eq_true_2 by done. by rewrite IH.
Qed.

(** Two chunks that together fill the window, the second one fitting in it. *)
Lemma window_two_chunks m i s (a b : jsstring) :
  m !! i = Some s -> Registry.aggregated s = [] ->
  Registry.maxOutputChars s = Registry.MAX_OUTPUT_CHARS ->
  Registry.MAX_OUTPUT_CHARS <= JS.len a + JS.len b ->
  JS.len b <= Registry.MAX_OUTPUT_CHARS ->
  exists s', Registry.appendAll i [a; b] m !! i = Some s'
    /\ JS.len (Registry.aggregated s') = Registry.MAX_OUTPUT_CHARS
    /\ b `suffix_of` Registry.aggregated s'.
Proof.
  intros Hi Hagg Hmax Hfill Hfit.
  destruct (runOps_aggregated (map (Registry.OpAppendOutput i) [a; b]) m
              (Registry.appendAll i [a; b] m) i s Hi) as (s' & Hi' & Hagg').
  - rewrite Hmax. reflexivity.
  - rewrite Hagg, Hmax. unfold JS.len. simpl. unfold Registry.MAX_OUTPUT_CHARS. lia.
  - apply appendAll_runOps.
  - exists s'. split; [done |].
    rewrite Hagg', appended_map, Hagg, Hmax.
    replace ([] ++ concat [a; b]) with (a ++ b) by (simpl; by rewrite app_nil_r).
    split.
    + rewrite trailing_length by (unfold Registry.MAX_OUTPUT_CHARS; lia).
      unfold JS.len in *. rewrite length_app. lia.
    + by apply suffix_trailing_app.
Qed.

(** C3. Whatever else happens to the registry, the aggregated buffer of a
    session is the trailing [min (total, 200000)] characters of all that
    was appended to it since it was added, in order; 199990 "A" then 20
    "B" leave exactly 200000 characters that end in the 20 "B". *)
Theorem aggregated_is_sliding_window :
  (forall draws now c d p m0 s m ops m',
      Registry.addSession draws now c d p m0 = Some (s, m) ->
      Registry.runOps ops m = Some m' ->
      exists s', m' !! Registry.id s = Some s'
        /\ Registry.aggregated s'
           = trailing Registry.MAX_OUTPUT_CHARS (appended (Registry.id s) ops)
        /\ JS.len (Registry.aggregated s')
           = Z.min (JS.len (appended (Registry.id s) ops)) 200000)
  /\ (forall draws now c d p m0 s m,
      Registry.addSession draws now c d p m0 = Some (s, m) ->
      exists s',
        Registry.appendAll (Registry.id s)
          [replicate (Z.to_nat 199990) (codeUnit "A"); replicate (Z.to_nat 20) (codeUnit "B")] m
          !! Registry.id s = Some s'
        /\ JS.len (Registry.aggregated s') = 200000
        /\ replicate (Z.to_nat 20) (codeUnit "B") `suffix_of` Registry.aggregated s').
Proof.
  split.
  - intros draws now c d p m0 s m ops m' Hadd Hrun.
    apply addSession_inv in Hadd as (_ & -> & Hagg & _ & _ & _ & Hmax).
    destruct (runOps_aggregated ops (<[Registry.id s := s]> m0) m' (Registry.id s) s)
      as (s' & Hi' & Hagg').
    + apply lookup_insert_eq.
    + by rewrite Hmax.
    + by rewrite Hagg, Hmax.
    + done.
    + exists s'. rewrite Hagg', Hagg, Hmax. simpl app.
      repeat split; [done |].
      by rewrite trailing_length.
  - intros draws now c d p m0 s m Hadd.
    apply addSession_inv in Hadd as (_ & -> & Hagg & _ & _ & _ & Hmax).
    apply (window_two_chunks _ _ s).
    + apply lookup_insert_eq.
    + exact Hagg.
    + exact Hmax.
    + unfold JS.len, Registry.MAX_OUTPUT_CHARS. rewrite !length_replicate. lia.
    + unfold JS.len, Registry.MAX_OUTPUT_CHARS. rewrite !length_replicate. lia.
Qed.

(** The session used in the examples. *)
Definition demoId : jsstring := str "k3x9q2ab".

Definition demoSession : Registry.ProcessSession :=
  {| Registry.id := demoId; Registry.command := str "sleep 60";
     Registry.pid := None; Registry.startedAt := 0; Registry.cwd := str "/srv";
     Registry.exited := false; Registry.exitCode := undefined;
     Registry.exitSignal := undefined; Registry.backgrounded := false;
     Registry.aggregated := []; Registry.tail := [];
     Registry.maxOutputChars := Registry.MAX_OUTPUT_CHARS;
     Registry.stdin := None |}.

Definition demoRegistry : gmap (list Z) Registry.ProcessSession :=
  <[demoId := demoSession]> ∅.

Lemma aggregated_is_sliding_window_witness :
  exists s',
    Registry.appendAll demoId
      [replicate (Z.to_nat 199990) (codeUnit "A"); replicate (Z.to_nat 20) (codeUnit "B")]
      demoRegistry !! demoId = Some s'
    /\ JS.len (Registry.aggregated s') = 200000
    /\ replicate (Z.to_nat 20) (codeUnit "B") `suffix_of` Registry.aggregated s'.
Proof.
  apply (proj2 aggregated_is_sliding_window [demoId] 0 (str "sleep 60")
           (str "/srv") None ∅ demoSession demoRegistry).
  reflexivity.
Defined.

(** C4. In every registry reached from the empty one by [addSession],
    [appendOutput], [markExited] and [markBackgrounded], the tail of
    every session has at most 4000 characters, is a suffix of the
    aggregated buffer, and is the whole buffer while that has at most
    4000 characters. *)
Theorem tail_is_bounded_suffix ops m i s :
  Registry.runOps ops ∅ = Some m -> m !! i = Some s ->
  JS.len (Registry.tail s) <= 4000
  /\ Registry.tail s `suffix_of` Registry.aggregated s
  /\ (JS.len (Registry.aggregated s) <= 4000 -> Registry.tail s = Registry.aggregated s)
  /\ Registry.tail s = trailing 4000 (Registry.aggregated s).
Proof.
  intros Hrun Hi.
  destruct (runOps_ok ops ∅ m empty_ok Hrun i s Hi) as (Ht & _).
  change Registry.TAIL_CHARS with 4000 in Ht.
  rewrite Ht. repeat split.
  - rewrite trailing_length by lia. lia.
  - apply trailing_suffix.
  - apply trailing_all.
Qed.

Definition demoOps : list Registry.Op :=
  [ Registry.OpAddSession [demoId] 0 (str "sleep 60") (str "/srv") None;
    Registry.OpAppendOutput demoId (str "line one");
    Registry.OpMarkBackgrounded demoId;
    Registry.OpAppendOutput demoId (str " and two");
    Registry.OpMarkExited demoId (value 0) undefined ].

Lemma tail_is_bounded_suffix_witness :
  exists m s,
    Registry.runOps demoOps ∅ = Some m /\ m !! demoId = Some s
    /\ Registry.tail s = str "line one and two"
    /\ JS.len (Registry.tail s) <= 4000
    /\ Registry.tail s `suffix_of` Registry.aggregated s.
Proof.
  eexists _, _. split; [reflexivity |]. split; [reflexivity |].
  split; [reflexivity |].
  pose proof (tail_is_bounded_suffix demoOps _ demoId _ eq_refl eq_refl) as (H1 & H2 & _).
  split; [exact H1 | exact H2].
Defined.

Definition demoExited : gmap (list Z) Registry.ProcessSession :=
  snd (Registry.markExited demoId (value 0) undefined demoRegistry).

(** Against C2 as written. A session added, marked exited, then given one
    more chunk: the chunk is in the buffer and in the tail. So [exited]
    does not stop output. *)
Lemma exited_session_still_appends :
  (Registry.exited <$> demoExited !! demoId = Some true
   /\ Registry.aggregated <$> demoExited !! demoId = Some []
   /\ Registry.aggregated
        <$> snd (Registry.appendOutput demoId (str "late") demoExited) !! demoId
      = Some (str "late")
   /\ Registry.tail
        <$> snd (Registry.appendOutput demoId (str "late") demoExited) !! demoId
      = Some (str "late"))
  /\ ~ (forall m i code signal data s1,
          snd (Registry.markExited i code signal m) !! i = Some s1 ->
          exists s2,
            snd (Registry.appendOutput i data
                   (snd (Registry.markExited i code signal m))) !! i = Some s2
            /\ Registry.aggregated s2 = Registry.aggregated s1
            /\ Registry.tail s2 = Registry.tail s1).
Proof.
  assert (Hfacts :
    Registry.exited <$> demoExited !! demoId = Some true
    /\ Registry.aggregated <$> demoExited !! demoId = Some []
    /\ Registry.aggregated
         <$> snd (Registry.appendOutput demoId (str "late") demoExited) !! demoId
       = Some (str "late")
    /\ Registry.tail
         <$> snd (Registry.appendOutput demoId (str "late") demoExited) !! demoId
       = Some (str "late")).
  { repeat split; vm_compute; reflexivity. }
  split; [exact Hfacts |].
  intros Hclaim.
  destruct Hfacts as (_ & Hbefore & Hafter & _).
  destruct (demoExited !! demoId) as [s1 |] eqn:Hs1; [| discriminate].
  destruct (Hclaim demoRegistry demoId (value 0) undefined (str "late") s1 Hs1)
    as (s2 & Hs2 & Hagg & _).
  fold demoExited in Hs2. rewrite Hs2 in Hafter.
  simpl in Hbefore, Hafter.
  injection Hbefore as Hb. injection Hafter as Ha.
  rewrite Hagg, Hb in Ha. discriminate Ha.
Qed.

(** C2, amended. [markExited] sets [exited] and clears the input handle,
    and no registry operation sets the handle again, so every exited
    session of a reachable registry has none. [appendOutput] does not
    look at [exited]: on an exited session it appends the chunk, cuts the
    buffer and recomputes the tail exactly as on a live one, leaving
    [exited] and the cleared handle as they are. *)
Theorem exited_clears_stdin_but_output_is_appended :
  (forall m i s code signal data,
      m !! i = Some s ->
      exists s1 s2,
        snd (Registry.markExited i code signal m) !! i = Some s1
        /\ Registry.exited s1 = true /\ Registry.stdin s1 = None
        /\ snd (Registry.appendOutput i data
                  (snd (Registry.markExited i code signal m))) !! i = Some s2
        /\ Registry.exited s2 = true /\ Registry.stdin s2 = None
        /\ Registry.aggregated s2
           = Registry.aggregated (Registry.appendToSession data s)
        /\ Registry.tail s2 = Registry.tail (Registry.appendToSession data s))
  /\ (forall ops m i s,
      Registry.runOps ops ∅ = Some m -> m !! i = Some s ->
      Registry.exited s = true -> Registry.stdin s = None).
Proof.
  split.
  - intros m i s code signal data Hi.
    exists (Registry.setExited code signal s),
           (Registry.appendToSession data (Registry.setExited code signal s)).
    unfold Registry.markExited. rewrite Hi. simpl.
    unfold Registry.appendOutput. rewrite !lookup_insert_eq. simpl.
    rewrite lookup_insert_eq.
    destruct (appendToSession_fields data (Registry.setExited code signal s))
      as (He & Hs & _).
    repeat split; try done.
    all: unfold Registry.appendToSession; simpl; by destruct (_ >? _).
  - intros ops m i s Hrun Hi.
    by destruct (runOps_ok ops ∅ m empty_ok Hrun i s Hi) as (_ & _ & _ & H).
Qed.

Lemma exited_clears_stdin_but_output_is_appended_witness :
  exists s1 s2,
    demoExited !! demoId = Some s1
    /\ Registry.exited s1 = true /\ Registry.stdin s1 = None
    /\ snd (Registry.appendOutput demoId (str "late") demoExited) !! demoId = Some s2
    /\ Registry.exited s2 = true /\ Registry.stdin s2 = None
    /\ Registry.aggregated s2 = str "late".
Proof.
  destruct (proj1 exited_clears_stdin_but_output_is_appended demoRegistry demoId
              _ (value 0) undefined (str "late") eq_refl)
    as (s1 & s2 & H1 & H2 & H3 & H4 & H5 & H6 & H7 & _).
  exists s1, s2. repeat split; assumption.
Defined.

(** C6. [markBackgrounded] and [markExited] are idempotent, in their
    result and in the registry they leave; of two [markExited] with
    different codes the last one wins, always. *)
Theorem mark_transitions_idempotent m i code signal code' signal' :
  Registry.markBackgrounded i (snd (Registry.markBackgrounded i m))
  = Registry.markBackgrounded i m
  /\ Registry.markExited i code signal (snd (Registry.markExited i code signal m))
     = Registry.markExited i code signal m
  /\ Registry.markExited i code' signal' (snd (Registry.markExited i code signal m))
     = Registry.markExited i code' signal' m
  /\ Registry.exitCode
       <$> snd (Registry.markExited i code' signal'
                  (snd (Registry.markExited i code signal m))) !! i
     = (fun _ => code') <$> m !! i.
Proof.
  unfold Registry.markBackgrounded, Registry.markExited.
  destruct (m !! i) as [s |] eqn:Hi; simpl.
  - rewrite !lookup_insert_eq, !insert_insert_eq. simpl.
    rewrite lookup_insert_eq. done.
  - rewrite !Hi. simpl. by rewrite Hi.
Qed.

(** C8. Killing a session that exists, has not exited and has no pid
    gives a result (the function cannot throw) that is not a success and
    carries a message; no signal is sent and no timer is set. *)
Theorem kill_without_pid_fails killThrows m i s :
  m !! i = Some s -> Registry.exited s = false -> Registry.pid s = None ->
  Registry.killSession killThrows i m = (false, [])
  /\ exists msg,
       ProcessHandler.killSession killThrows (Some i) m
       = (ProcessHandler.failure msg, [])
       /\ msg <> []
       /\ (i <> [] -> msg = str "Failed to kill process (may have already exited)").
Proof.
  intros Hi Hex Hpid. split.
  - unfold Registry.killSession. by rewrite Hi, Hpid.
  - destruct i as [| c r].
    + eexists. split; [reflexivity |]. split; [| done]. discriminate.
    + eexists. unfold ProcessHandler.killSession, Registry.getSession.
      rewrite Hi, Hex. unfold Registry.killSession. rewrite Hi, Hpid. simpl.
      split; [reflexivity |]. split; [discriminate | done].
Qed.

Lemma kill_without_pid_fails_witness :
  ProcessHandler.killSession false (Some demoId) demoRegistry
  = (ProcessHandler.failure (str "Failed to kill process (may have already exited)"), []).
Proof.
  destruct (kill_without_pid_fails false demoRegistry demoId _ eq_refl eq_refl eq_refl)
    as (_ & msg & Hres & _ & Hmsg).
  rewrite Hres, Hmsg; [reflexivity | discriminate].
Defined.

End RegistryClaims.

(* ================================================================== *)
(** ** The shell executor *)

Section ShellFacts.

Implicit Types (i : Shell.Invocation) (w : Shell.World) (e : Shell.Event).

Lemma terminals_app (l : list Shell.Callback) (c : Shell.Callback) :
  Shell.terminals (l ++ [c])
  = (Shell.terminals l + if Shell.terminal c then 1 else 0)%nat.
Proof.
  unfold Shell.terminals. rewrite filter_app, length_app. f_equal.
  by destruct c.
Qed.

(** How many process-ending events a sequence holds. *)
Definition endings (es : list Shell.Event) : nat :=
  length (filter (fun e => Shell.ends e = true) es).

(** How many terminal outcomes can still come: none once the timeout has
    killed the command, else one as long as the timeout is pending or an
    ending event is still to come. *)
Definition potential i (k : nat) : nat :=
  if Shell.killed i then 0%nat
  else if Shell.timer i || negb (Nat.eqb k 0) then 1%nat else 0%nat.

Lemma step_potential e i w (k : nat) :
  ((if Shell.ends e then 1 else 0) + k <= 1)%nat ->
  (Shell.terminals (Shell.calls (snd (Shell.step e i w)))
   + potential (fst (Shell.step e i w)) k
   <= Shell.terminals (Shell.calls w)
      + potential i ((if Shell.ends e then 1 else 0) + k))%nat.
Proof.
  intros Hk. destruct i as [sid t0 secs killed timer yield pty].
  unfold potential.
  destruct e; simpl in *;
    unfold Shell.onTimeout, Shell.onYieldTimer, Shell.onData, Shell.onExit,
      Shell.onProcError; simpl;
    destruct killed, timer, yield, pty; simpl;
    try destruct (Shell.sessionExited sid (Shell.registry w)); simpl;
    rewrite ?terminals_app; simpl;
    destruct k as [| [| k]]; simpl in *; lia.
Qed.

Lemma endings_cons e es :
  endings (e :: es) = ((if Shell.ends e then 1 else 0) + endings es)%nat.
Proof. unfold endings. rewrite filter_cons. by destruct (Shell.ends e). Qed.

(** With at most one ending event, at most one terminal outcome. *)
Lemma run_terminals es i w :
  (endings es <= 1)%nat ->
  (Shell.terminals (Shell.calls (snd (Shell.run es i w)))
   <= Shell.terminals (Shell.calls w) + potential i (endings es))%nat.
Proof.
  revert i w. induction es as [| e es IH]; intros i w Hk; simpl; [lia |].
  rewrite endings_cons in *.
  pose proof (step_potential e i w (endings es) Hk) as Hstep.
  destruct (Shell.step e i w) as [i1 w1]. simpl in Hstep.
  specialize (IH i1 w1 ltac:(lia)). lia.
Qed.

Lemma potential_le_1 i k : (potential i k <= 1)%nat.
Proof.
  unfold potential. destruct (Shell.killed i); [lia |].
  destruct (_ || _); lia.
Qed.

(** One invocation whose process ends once (by ['close'], by ['error'] or
    by the pty's exit) reports at most one terminal outcome, whatever the
    timers do; a spawn that throws reports exactly one. *)
Lemma one_terminal_when_process_ends_once draws now pcwd ptyModule spawned opts
    hasOnYield w0 sid closure w1 es :
  Shell.calls w0 = [] ->
  Shell.executeShell draws now pcwd ptyModule spawned opts hasOnYield w0
  = Some (sid, closure, w1) ->
  (endings es <= 1)%nat ->
  match closure with
  | Some inv => (Shell.terminals (Shell.calls (snd (Shell.run es inv w1))) <= 1)%nat
  | None => Shell.terminals (Shell.calls w1) = 1%nat
  end.
Proof.
  intros Hcalls Hexec Hends. unfold Shell.executeShell in Hexec.
  destruct (Registry.addSession _ _ _ _ _ _) as [[s m] |]; [| done].
  destruct spawned as [err | p]; injection Hexec as <- <- <-.
  - simpl. by rewrite Hcalls.
  - match goal with |- (Shell.terminals (Shell.calls (snd (Shell.run es ?i ?w))) <= 1)%nat =>
      pose proof (run_terminals es i w Hends) as Hrun;
      pose proof (potential_le_1 i (endings es)) as Hpot
    end.
    simpl in Hrun. rewrite Hcalls in *.
    change (Shell.terminals []) with 0%nat in Hrun. lia.
Qed.

(** An exec whose working directory does not exist: [spawn] returns a
    child without pid, and Node then emits ['error'] followed by
    ['close'] with the negated errno. *)
Definition enoentOptions : Shell.ShellExecOptions :=
  {| Shell.command := str "true"; Shell.cwd := Some (str "/no/such/dir");
     Shell.timeout := None; Shell.pty := None; Shell.background := None;
     Shell.yieldMs := None |}.

Definition emptyWorld : Shell.World :=
  {| Shell.registry := ∅; Shell.calls := []; Shell.effects := [] |}.

Definition enoentEvents : list Shell.Event :=
  [ Shell.ProcError (str "spawn sh ENOENT"); Shell.ProcClose (Some (-2)) None 7 ].

(** The callbacks an invocation has made after the given events. *)
Definition callbacksOf (spawned : Shell.SpawnResult) (opts : Shell.ShellExecOptions)
    (es : list Shell.Event) : list Shell.Callback :=
  match Shell.executeShell [str "k3x9q2ab"] 0 (str "/srv") false spawned opts true emptyWorld with
  | Some (_, Some inv, w) => Shell.calls (snd (Shell.run es inv w))
  | Some (_, None, w) => Shell.calls w
  | None => []
  end.

(** C1. The guard of the ['close'] and ['error'] handlers is the flag the
    timeout sets, and neither handler sets it: an ['error'] followed by
    the ['close'] of the same child reports a runtime error and then a
    completion, two terminal outcomes for one invocation. *)
Theorem error_then_close_reports_twice :
  Shell.nodeTrace enoentEvents = true
  /\ callbacksOf (Shell.Spawned None) enoentOptions enoentEvents
     = [ Shell.onError (str "Process error: spawn sh ENOENT") (str "k3x9q2ab");
         Shell.onDone (-2) 7 (str "k3x9q2ab") ]
  /\ Shell.terminals (callbacksOf (Shell.Spawned None) enoentOptions enoentEvents) = 2%nat.
Proof. repeat split; vm_compute; reflexivity. Qed.

Definition yieldOptions : Shell.ShellExecOptions :=
  {| Shell.command := str "sleep 2"; Shell.cwd := None;
     Shell.timeout := None; Shell.pty := None; Shell.background := None;
     Shell.yieldMs := Some 100 |}.

(** A yield followed by completion: two outcomes, one of them terminal;
    a timeout followed by the close it provokes: one outcome. *)
Lemma yield_then_done_and_timeout_then_close :
  callbacksOf (Shell.Spawned (Some 4242)) yieldOptions
    [Shell.YieldFires; Shell.ProcClose (Some 0) None 2000]
  = [ Shell.onYield (str "k3x9q2ab"); Shell.onDone 0 2000 (str "k3x9q2ab") ]
  /\ callbacksOf (Shell.Spawned (Some 4242)) yieldOptions
       [Shell.TimeoutFires false; Shell.YieldFires;
        Shell.ProcClose None (Some (str "SIGTERM")) 1800050]
     = [ Shell.onError (str "Command timed out after 1800s") (str "k3x9q2ab") ].
Proof. split; vm_compute; reflexivity. Qed.

End ShellFacts.

(* ================================================================== *)
(** ** Key sequences *)

Section KeyFacts.

(** A letter of the basic alphabet, in either case. *)
Definition asciiLetter (c : Z) : bool :=
  ((65 <=? c) && (c <=? 90)) || ((97 <=? c) && (c <=? 122)).

(** The characters whose lower case begins with a letter a-z: the
    letters of the basic alphabet in either case, U+0130 (capital I with
    dot above, lower case [i] and U+0307) and U+212A (the Kelvin sign,
    lower case [k]). *)
Definition lowersToLetter (c : Z) : bool :=
  asciiLetter c || (c =? 304) || (c =? 8490).

(** ["Ctrl+"] and then a character whose lower case begins with a letter
    a-z, whatever follows that character. *)
Definition ctrlLetter (key : jsstring) : bool :=
  JS.startsWith key (str "Ctrl+")
  && match drop 5 key with
     | c :: _ => lowersToLetter c
     | [] => false
     end.

(** ["Ctrl+"] and then a letter a-z, as the specification words the
    form; what may follow the letter is left open. *)
Definition ctrlLowercase (key : jsstring) : bool :=
  JS.startsWith key (str "Ctrl+")
  && match drop 5 key with
     | c :: _ => (97 <=? c) && (c <=? 122)
     | [] => false
     end.

(** The first code unit of the lower case of a character. *)
Definition lowerHead (c : Z) : Z := default c (head (JS.lowerUnit c)).

Lemma toLowerCase_head (c : Z) (rest : jsstring) :
  JS.charCodeAt0 (JS.toLowerCase (c :: rest)) = Some (lowerHead c).
Proof.
  unfold JS.toLowerCase, lowerHead, JS.lowerUnit. simpl.
  repeat match goal with |- context [if ?b then _ else _] => destruct b end;
    reflexivity.
Qed.

Lemma lowerHead_is_control (c : Z) :
  ((1 <=? lowerHead c - 96) && (lowerHead c - 96 <=? 26)) = lowersToLetter c.
Proof.
  unfold lowerHead, JS.lowerUnit, lowersToLetter, asciiLetter.
  destruct (Z.leb_spec 65 c), (Z.leb_spec c 90), (Z.leb_spec 192 c),
    (Z.leb_spec c 222), (Z.eqb_spec c 215), (Z.eqb_spec c 304),
    (Z.eqb_spec c 8490), (Z.leb_spec 97 c), (Z.leb_spec c 122);
    simpl; try lia;
    repeat match goal with
           | |- context [?a <=? ?b] => destruct (Z.leb_spec a b)
           end; simpl; try reflexivity; lia.
Qed.

(** The function, with its string calls resolved. *)
Lemma convertKeySequence_cases (key : jsstring) :
  ProcessHandler.convertKeySequence key
  = if ctrlLetter key
    then match drop 5 key with
         | c :: _ => ProcessHandler.Chars (JS.fromCharCode (lowerHead c - 96))
         | [] => ProcessHandler.Chars key
         end
    else default (ProcessHandler.Chars key) (ProcessHandler.keyMapGet key).
Proof.
  unfold ProcessHandler.convertKeySequence, ctrlLetter.
  destruct (JS.startsWith key (str "Ctrl+")) eqn:Hpre; [| done].
  apply startsWith_app in Hpre as [r ->].
  assert (Hsub : JS.substring (str "Ctrl+" ++ r) 5 None = r).
  { change 5 with (Z.of_nat 5). rewrite substring_rest; [done |].
    rewrite length_app. simpl. lia. }
  rewrite Hsub. change (drop 5 (str "Ctrl+" ++ r)) with r.
  destruct r as [| c r]; [done |].
  rewrite toLowerCase_head. cbv zeta. rewrite lowerHead_is_control.
  by destruct (lowersToLetter c).
Qed.

(** A key that is ["Ctrl+"] and such a character is never written as it
    is: it becomes one control character, with a code from 1 to 26. *)
Lemma ctrl_key_is_converted (key : jsstring) :
  ctrlLetter key = true ->
  exists code, 1 <= code <= 26
               /\ ProcessHandler.convertKeySequence key = ProcessHandler.Chars [code]
               /\ [code] <> key.
Proof.
  intros Hctrl. rewrite convertKeySequence_cases, Hctrl.
  unfold ctrlLetter in Hctrl. apply andb_prop in Hctrl as [Hpre Hc].
  apply startsWith_app in Hpre as [r ->].
  change (drop 5 (str "Ctrl+" ++ r)) with r in *.
  destruct r as [| c r]; [discriminate Hc |].
  pose proof (lowerHead_is_control c) as Hcode. rewrite Hc in Hcode.
  apply andb_prop in Hcode as [H1 H26].
  apply Z.leb_le in H1. apply Z.leb_le in H26.
  exists (lowerHead c - 96). split; [lia |]. split.
  - unfold JS.fromCharCode. by rewrite Z.mod_small by lia.
  - discriminate.
Qed.

Lemma writeKeys_plain (keys : list jsstring) (w : Registry.Writable) :
  Forall (fun key => ProcessHandler.convertKeySequence key = ProcessHandler.Chars key) keys ->
  ProcessHandler.writeKeys keys w
  = ({| Registry.written := Registry.written w ++ keys |}, true).
Proof.
  intros Hall. revert w. induction Hall as [| key keys Hkey _ IH]; intros w; simpl.
  - rewrite app_nil_r. by destruct w.
  - rewrite Hkey, IH. simpl. by rewrite <- app_assoc.
Qed.

(** Against C9 as written. ["Ctrl+A"] is not in the table and is not
    ["Ctrl+"] with a letter a-z, and it is not written as it is: it
    becomes the control code 1, as ["Ctrl+a"] does. *)
Lemma ctrl_uppercase_is_converted :
  (ProcessHandler.ownProperty (str "Ctrl+A") ProcessHandler.keyMap = None
   /\ ctrlLowercase (str "Ctrl+A") = false
   /\ ProcessHandler.convertKeySequence (str "Ctrl+A") = ProcessHandler.Chars [ProcessHandler.chr 1]
   /\ ProcessHandler.convertKeySequence (str "Ctrl+a") = ProcessHandler.Chars [ProcessHandler.chr 1])
  /\ ~ (forall key,
          ProcessHandler.ownProperty key ProcessHandler.keyMap = None ->
          ctrlLowercase key = false ->
          ProcessHandler.convertKeySequence key = ProcessHandler.Chars key).
Proof.
  split; [repeat split; vm_compute; reflexivity |].
  intros Hclaim.
  specialize (Hclaim (str "Ctrl+A") eq_refl eq_refl).
  vm_compute in Hclaim. discriminate Hclaim.
Qed.

(** C9, amended. A key that is no property of the table, is not the name
    of a member every object inherits, and does not begin with ["Ctrl+"]
    followed by a character whose lower case begins with a letter a-z
    (a letter a-z or A-Z, U+0130 or U+212A; what follows that character
    plays no part) comes back unchanged, and a send-keys request writes
    such a key to the input handle as it is. *)
Theorem unrecognized_key_is_written_verbatim (key : jsstring) :
  ProcessHandler.ownProperty key ProcessHandler.keyMap = None ->
  bool_decide (key ∈ ProcessHandler.objectPrototypeNames) = false ->
  ctrlLetter key = false ->
  ProcessHandler.convertKeySequence key = ProcessHandler.Chars key
  /\ forall typeError c r (m : gmap (list Z) Registry.ProcessSession) s w,
       m !! (c :: r) = Some s -> Registry.exited s = false ->
       Registry.stdin s = Some w ->
       exists s',
         ProcessHandler.sendKeysToSession typeError (Some (c :: r)) (Some [key]) m
         = (ProcessHandler.successWith s', <[c :: r := s']> m)
         /\ Registry.stdin s' = Some {| Registry.written := Registry.written w ++ [key] |}.
Proof.
  intros Hown Hinh Hctrl.
  assert (Hkey : ProcessHandler.convertKeySequence key = ProcessHandler.Chars key).
  { rewrite convertKeySequence_cases, Hctrl.
    unfold ProcessHandler.keyMapGet. by rewrite Hown, Hinh. }
  split; [exact Hkey |].
  intros typeError c r m s w Hs Hex Hin.
  unfold ProcessHandler.sendKeysToSession, Registry.getSession.
  rewrite Hs, Hex, Hin.
  rewrite (writeKeys_plain [key] w) by (by constructor).
  eexists. split; reflexivity.
Qed.

Lemma unrecognized_key_is_written_verbatim_witness :
  ProcessHandler.convertKeySequence (str "Ctrl+1") = ProcessHandler.Chars (str "Ctrl+1").
Proof.
  exact (proj1 (unrecognized_key_is_written_verbatim (str "Ctrl+1")
                  eq_refl eq_refl eq_refl)).
Defined.

(** What the specification's wording leaves out: a key with more after
    the letter is still taken for the control code of the letter; the
    Kelvin sign and the dotted capital I count as [k] and [i]; a capital
    outside the basic alphabet does not count; and a key that names a
    member of [Object.prototype] gives that member, which is not a
    string, so that the write throws and the request fails. *)
Lemma convertKeySequence_other_keys :
  ProcessHandler.convertKeySequence (str "Ctrl+Enter")
  = ProcessHandler.Chars [ProcessHandler.chr 5]
  /\ ProcessHandler.convertKeySequence (str "Ctrl+" ++ [8490])
     = ProcessHandler.Chars [ProcessHandler.chr 11]
  /\ ProcessHandler.convertKeySequence (str "Ctrl+" ++ [304])
     = ProcessHandler.Chars [ProcessHandler.chr 9]
  /\ ProcessHandler.convertKeySequence (str "Ctrl+" ++ [196])
     = ProcessHandler.Chars (str "Ctrl+" ++ [196])
  /\ ProcessHandler.convertKeySequence (str "constructor")
     = ProcessHandler.Inherited (str "constructor")
  /\ ProcessHandler.convertKeySequence (str "Enter")
     = ProcessHandler.Chars [ProcessHandler.chr 13]
  /\ ProcessHandler.convertKeySequence (str "Ctrl+")
     = ProcessHandler.Chars (str "Ctrl+").
Proof. repeat split; vm_compute; reflexivity. Qed.

End KeyFacts.

(* ================================================================== *)
(** ** The edit of the file executor *)

Section EditFacts.

Lemma occursAt_startsWith (text needle : jsstring) (k : nat) :
  Files.occursAt text needle k
  <-> (k <= length text)%nat /\ JS.startsWith (drop k text) needle = true.
Proof.
  unfold Files.occursAt. rewrite startsWith_app. split.
  - intros (before & after & -> & <-). split.
    + rewrite length_app. lia.
    + exists after. by rewrite drop_app_length.
  - intros (Hk & r & Hr). exists (take k text), r. split.
    + by rewrite <- Hr, take_drop.
    + rewrite length_take. lia.
Qed.

(** [editContent] replaces the first occurrence, when there is one. *)
Lemma editContent_found (text old new : jsstring) :
  Files.occurs text old ->
  exists before after,
    text = before ++ old ++ after
    /\ (forall k, Files.occursAt text old k -> (length before <= k)%nat)
    /\ Files.editContent text old new = Some (before ++ new ++ after).
Proof.
  intros [k0 Hocc]. unfold Files.editContent, JS.indexOf.
  destruct (Z.eqb_spec (JS.indexOf_from text old 0) (-1)) as [Habs | Hfound].
  - pose proof (proj1 (indexOf_from_absent text old 0 ltac:(lia)) Habs) as Hnone.
    apply occursAt_startsWith in Hocc as [Hk Hs]. rewrite Hnone in Hs; done.
  - destruct (indexOf_from_found text old 0 _ eq_refl Hfound ltac:(lia))
      as (k & Hk & Hlen & Hat & Hfirst).
    rewrite Hk, Z.add_0_l.
    apply startsWith_app in Hat as [r Hr].
    assert (Htext : text = take k text ++ old ++ r) by (by rewrite <- Hr, take_drop).
    exists (take k text), r. split; [exact Htext |]. split.
    + intros k' Hk'. rewrite length_take.
      apply occursAt_startsWith in Hk' as [_ Hs'].
      destruct (decide (k' < k)%nat) as [Hlt | Hge]; [| lia].
      rewrite (Hfirst k' Hlt) in Hs'. discriminate.
    + rewrite substring_prefix by done.
      assert (Hlen' : (k + length old <= length text)%nat).
      { apply (f_equal length) in Htext.
        rewrite !length_app, length_take in Htext. lia. }
      replace (Z.of_nat k + JS.len old) with (Z.of_nat (k + length old))
        by (unfold JS.len; lia).
      rewrite substring_rest by done.
      rewrite <- drop_drop, Hr, drop_app_length. done.
Qed.


Lemma editContent_some_occurs (text old new text' : jsstring) :
  Files.editContent text old new = Some text' -> Files.occurs text old.
Proof.
  unfold Files.editContent, JS.indexOf.
  destruct (Z.eqb_spec (JS.indexOf_from text old 0) (-1)) as [Habs | Hfound]; [done |].
  intros _.
  destruct (indexOf_from_found text old 0 _ eq_refl Hfound ltac:(lia))
    as (k & _ & Hlen & Hat & _).
  exists k. by apply occursAt_startsWith.
Qed.

Variable resolve : jsstring -> jsstring -> jsstring.
Variable relative : jsstring -> jsstring -> jsstring.
Variable rootPath : jsstring.
Variable readError : jsstring -> jsstring.


End EditFacts.

(** A root and path functions for the examples: paths are joined with a
    slash and made relative by dropping the root. *)
Definition demoResolve (root input : jsstring) : jsstring := root ++ str "/" ++ input.
Definition demoRelative (root resolved : jsstring) : jsstring :=
  drop (length root + 1) resolved.

Definition demoFile (text : string) : gmap (list Z) Files.Node :=
  {[ str "/srv/notes.txt" := Files.File (str text) ]}.


Section EditClaims.




End EditClaims.

(* ================================================================== *)
(** ** The backoff of the reconnect manager *)

(** *** Doubles

    What the proofs below need of the arithmetic of doubles: a sum or a
    product of doubles that are not negative is the exact result rounded
    to the nearest double, [Infinity] when that is too large. Values are
    counted in units of [2^-1074], of which every finite double is a
    whole number. *)

Section Rounding.

(** The number of binary digits of a positive number. *)
Lemma digits2_pos_log2 (p : positive) : Z.pos (digits2_pos p) = Z.log2 (Z.pos p) + 1.
Proof.
  assert (H : forall q, digits2_pos q = Pos.size q) by (induction q; simpl; congruence).
  rewrite H. destruct p; simpl; lia.
Qed.

(** Iterating a positive number of times, counted in [nat]. *)
Lemma iter_pos_nat {A : Type} (f : A -> A) (p : positive) (x : A) :
  SpecFloat.iter_pos f p x = Nat.iter (Pos.to_nat p) f x.
Proof.
  revert x. induction p as [p IH | p IH |]; intros x; cbn [SpecFloat.iter_pos].
  - rewrite !IH, Pos2Nat.inj_xI, <- Nat.iter_succ_r, <- Nat.iter_add.
    f_equal. lia.
  - rewrite !IH, Pos2Nat.inj_xO, <- Nat.iter_add. f_equal. lia.
  - reflexivity.
Qed.

(** One step of the right shift: the bit that falls out becomes the round
    bit, the earlier round bit goes into the sticky bit. *)
Lemma shr_1_spec (m : Z) (r s : bool) :
  0 <= m ->
  shr_1 {| shr_m := m; shr_r := r; shr_s := s |}
  = {| shr_m := m / 2; shr_r := Z.odd m; shr_s := r || s |}.
Proof.
  intros Hm. rewrite <- Z.div2_div.
  destruct m as [| [p | p |] | p]; try lia; reflexivity.
Qed.

(** The remainder modulo the next power of two. *)
Lemma mod_pow2_succ (m n : Z) :
  0 <= n ->
  m mod 2 ^ (n + 1) = m mod 2 ^ n + (if Z.testbit m n then 2 ^ n else 0).
Proof.
  intros Hn. rewrite Z.testbit_odd, Z.shiftr_div_pow2 by done.
  pose proof (Z.pow_pos_nonneg 2 n ltac:(lia) Hn) as Hpos.
  pose proof (Z.div_mod m (2 ^ n) ltac:(lia)) as Hm.
  pose proof (Z.mod_pos_bound m (2 ^ n) Hpos) as Hr.
  set (q := m / 2 ^ n) in *.
  pose proof (Zdiv2_odd_eqn q) as Hq.
  symmetry. apply Z.mod_unique with (q := Z.div2 q).
  - rewrite Z.pow_add_r by lia. destruct (Z.odd q); lia.
  - rewrite Z.pow_add_r by lia. destruct (Z.odd q); lia.
Qed.

(** A right shift by [n + 1] places: the quotient, the last bit shifted
    out, and whether anything was shifted out before it. *)
Lemma iter_shr_1 (n : nat) (m : Z) :
  0 <= m ->
  Nat.iter (S n) shr_1 {| shr_m := m; shr_r := false; shr_s := false |}
  = {| shr_m := m / 2 ^ Z.of_nat (S n);
       shr_r := Z.testbit m (Z.of_nat n);
       shr_s := negb (m mod 2 ^ Z.of_nat n =? 0) |}.
Proof.
  intros Hm. induction n as [| n IH].
  - unfold Nat.iter. cbn [nat_rect]. rewrite shr_1_spec by done.
    rewrite Z.bit0_odd. change (2 ^ Z.of_nat 0) with 1. rewrite Z.mod_1_r. reflexivity.
  - rewrite Nat.iter_succ, IH.
    assert (Hpos : 0 < 2 ^ Z.of_nat (S n)) by (apply Z.pow_pos_nonneg; lia).
    rewrite shr_1_spec by (apply Z.div_pos; lia).
    f_equal.
    + rewrite Z.div_div by lia. f_equal.
      replace (Z.of_nat (S (S n))) with (Z.of_nat (S n) + 1) by lia.
      rewrite Z.pow_add_r by lia. reflexivity.
    + rewrite (Z.testbit_odd m (Z.of_nat (S n))), Z.shiftr_div_pow2 by lia. reflexivity.
    + replace (Z.of_nat (S n)) with (Z.of_nat n + 1) by lia.
      rewrite mod_pow2_succ by lia.
      pose proof (Z.mod_pos_bound m (2 ^ Z.of_nat n) ltac:(apply Z.pow_pos_nonneg; lia)).
      pose proof (Z.pow_pos_nonneg 2 (Z.of_nat n) ltac:(lia) ltac:(lia)).
      destruct (Z.testbit m (Z.of_nat n)); simpl.
      * symmetry. apply negb_true_iff, Z.eqb_neq. lia.
      * by rewrite Z.add_0_r.
Qed.


(** [m / 2^k] rounded to the nearest whole number, ties to the even one. *)
Definition rne (m k : Z) : Z :=
  let q := m / 2 ^ k in
  round_nearest_even q
    (loc_of_shr_record {| shr_m := q; shr_r := Z.testbit m (k - 1);
                          shr_s := negb (m mod 2 ^ (k - 1) =? 0) |}).

(** The library's [shr] in closed form. *)
Lemma shr_spec (m e k : Z) :
  0 <= m -> 0 <= k ->
  shr {| shr_m := m; shr_r := false; shr_s := false |} e k
  = (if k =? 0 then {| shr_m := m; shr_r := false; shr_s := false |}
     else {| shr_m := m / 2 ^ k; shr_r := Z.testbit m (k - 1);
             shr_s := negb (m mod 2 ^ (k - 1) =? 0) |},
     e + k).
Proof.
  intros Hm Hk. destruct k as [| p | p]; [by rewrite Z.add_0_r | | lia].
  unfold shr. rewrite iter_pos_nat.
  destruct (Pos2Nat.is_succ p) as [n Hn]. rewrite Hn, iter_shr_1 by done.
  replace (Z.of_nat (S n)) with (Z.pos p) by lia.
  replace (Z.of_nat n) with (Z.pos p - 1) by lia. reflexivity.
Qed.

(** [rne m k] is the quotient or the next number, and lies within half of
    [2^k] of [m]. *)
Lemma rne_bounds (m k : Z) :
  0 <= m -> 1 <= k ->
  m / 2 ^ k <= rne m k <= m / 2 ^ k + 1
  /\ 2 * Z.abs (rne m k * 2 ^ k - m) <= 2 ^ k.
Proof.
  intros Hm Hk. unfold rne.
  pose proof (Z.pow_pos_nonneg 2 (k - 1) ltac:(lia) ltac:(lia)) as Hhalf.
  assert (Hpow : 2 ^ k = 2 * 2 ^ (k - 1)).
  { replace k with (k - 1 + 1) at 1 by lia. rewrite Z.pow_add_r by lia. lia. }
  pose proof (Z.div_mod m (2 ^ k) ltac:(lia)) as Hdiv.
  pose proof (mod_pow2_succ m (k - 1) ltac:(lia)) as Hmod.
  replace (k - 1 + 1) with k in Hmod by lia.
  pose proof (Z.mod_pos_bound m (2 ^ (k - 1)) Hhalf) as Hlow.
  set (q := m / 2 ^ k) in *. set (low := m mod 2 ^ (k - 1)) in *.
  destruct (Z.testbit m (k - 1)), (Z.eqb_spec low 0); simpl;
    try destruct (Z.even q); lia.
Qed.

(** The last step of a rounding: the float of a mantissa and an exponent. *)
Definition finish (sx : bool) (m e : Z) : spec_float :=
  match m with
  | 0 => S754_zero sx
  | Z.pos p => if e <=? 971 then S754_finite sx p e else S754_infinity sx
  | Z.neg _ => S754_nan
  end.

(** The exponent a number of [d] digits in front of exponent [e] is
    rounded at. *)
Definition target (m e : Z) : Z := Z.max (Z.log2 m + 1 + e - 53) (-1074).

(** The library's rounding of [mx * 2^ex] in closed form: nothing to do at
    the target exponent, else one rounded shift, with a carry into the
    next binade when the significand reaches [2^53]. *)
Lemma round_aux_spec (sx : bool) (mx : positive) (ex : Z) :
  ex <= target (Z.pos mx) ex ->
  binary_round_aux Double.prec Double.emax sx (Z.pos mx) ex loc_Exact
  = if target (Z.pos mx) ex =? ex then finish sx (Z.pos mx) ex
    else let m1 := rne (Z.pos mx) (target (Z.pos mx) ex - ex) in
         if m1 =? 2 ^ 53 then finish sx (2 ^ 52) (target (Z.pos mx) ex + 1)
         else finish sx m1 (target (Z.pos mx) ex).
Proof.
  intros Hle. unfold binary_round_aux, shr_fexp, SpecFloat.fexp, emin.
  unfold Zdigits2 at 1. rewrite digits2_pos_log2.
  change (Z.max (Z.log2 (Z.pos mx) + 1 + ex - Double.prec) (3 - Double.emax - Double.prec))
    with (target (Z.pos mx) ex).
  set (e1 := target (Z.pos mx) ex) in *.
  cbn [shr_record_of_loc]. rewrite shr_spec by lia.
  replace (ex + (e1 - ex)) with e1 by lia.
  assert (Hsecond : forall m1, 0 <= m1 < 2 ^ 53 -> -1074 <= e1 ->
            (let '(mrs, e) :=
               shr {| shr_m := m1; shr_r := false; shr_s := false |} e1
                 (Z.max (Zdigits2 m1 + e1 - Double.prec) (3 - Double.emax - Double.prec) - e1)
             in match shr_m mrs with
                | 0 => S754_zero sx
                | Z.pos m => if e <=? Double.emax - Double.prec
                             then S754_finite sx m e else S754_infinity sx
                | Z.neg _ => S754_nan
                end) = finish sx m1 e1).
  { intros m1 Hm1 He1.
    assert (Hk : Z.max (Zdigits2 m1 + e1 - Double.prec) (3 - Double.emax - Double.prec) - e1 <= 0).
    { destruct m1 as [| p | p]; [unfold Double.prec, Double.emax; simpl; lia | | lia].
      unfold Zdigits2. rewrite digits2_pos_log2.
      assert (Z.log2 (Z.pos p) < 53) by (apply Z.log2_lt_pow2; lia).
      unfold Double.prec, Double.emax. lia. }
    unfold shr.
    destruct (Z.max (Zdigits2 m1 + e1 - Double.prec) (3 - Double.emax - Double.prec) - e1);
      [| lia |]; reflexivity. }
  assert (He1 : -1074 <= e1) by (unfold e1, target; lia).
  destruct (Z.eqb_spec e1 ex) as [Heq | Hne].
  - replace (e1 - ex) with 0 by lia. simpl Z.eqb. cbv iota.
    cbn [shr_m loc_of_shr_record round_nearest_even].
    assert (Hsmall : Z.pos mx < 2 ^ 53).
    { apply Z.log2_lt_pow2; [lia |]. unfold e1, target in Heq. lia. }
    rewrite (Hsecond (Z.pos mx)) by lia. by rewrite Heq.
  - destruct (Z.eqb_spec (e1 - ex) 0) as [| _]; [lia |].
    cbn [shr_m]. fold (rne (Z.pos mx) (e1 - ex)).
    destruct (rne_bounds (Z.pos mx) (e1 - ex) ltac:(lia) ltac:(lia)) as [[Hlo Hhi] _].
    assert (Hq : Z.pos mx / 2 ^ (e1 - ex) < 2 ^ 53).
    { apply Z.div_lt_upper_bound; [apply Z.pow_pos_nonneg; lia |].
      rewrite <- Z.pow_add_r by lia.
      pose proof (Z.log2_spec (Z.pos mx) ltac:(lia)) as [_ Hup].
      eapply Z.lt_le_trans; [exact Hup |].
      apply Z.pow_le_mono_r; [lia |]. unfold e1, target. lia. }
    assert (H0 : 0 <= Z.pos mx / 2 ^ (e1 - ex)) by (apply Z.div_pos; [lia | apply Z.pow_pos_nonneg; lia]).
    set (m1 := rne (Z.pos mx) (e1 - ex)) in *. cbv zeta.
    destruct (Z.eqb_spec m1 (2 ^ 53)) as [Hcarry | Hno].
    + rewrite Hcarry.
      replace (Z.max (Zdigits2 (2 ^ 53) + e1 - Double.prec) (3 - Double.emax - Double.prec) - e1)
        with 1 by (unfold Double.prec, Double.emax; simpl; lia).
      reflexivity.
    + apply Hsecond; lia.
Qed.

(** Scaling the significand by a power of two and the exponent back leaves
    the target exponent. *)
Lemma target_scale (m e a : Z) :
  0 < m -> 0 <= a -> target (m * 2 ^ a) (e - a) = target m e.
Proof. intros Hm Ha. unfold target. rewrite Z.log2_mul_pow2 by lia. f_equal. lia. Qed.

(** Zeros shifted in at the low end are shifted out again. *)
Lemma rne_scale (m k a : Z) :
  0 <= m -> 1 <= k -> 0 <= a -> rne (m * 2 ^ a) (k + a) = rne m k.
Proof.
  intros Hm Hk Ha. unfold rne.
  pose proof (Z.pow_pos_nonneg 2 a ltac:(lia) Ha) as Hpa.
  pose proof (Z.pow_pos_nonneg 2 k ltac:(lia) ltac:(lia)) as Hpk.
  pose proof (Z.pow_pos_nonneg 2 (k - 1) ltac:(lia) ltac:(lia)) as Hpk1.
  assert (Hq : m * 2 ^ a / 2 ^ (k + a) = m / 2 ^ k).
  { rewrite Z.pow_add_r by lia. apply Z.div_mul_cancel_r; lia. }
  assert (Hr : Z.testbit (m * 2 ^ a) (k + a - 1) = Z.testbit m (k - 1)).
  { replace (k + a - 1) with (a + (k - 1)) by lia. apply Z.mul_pow2_bits_add. lia. }
  assert (Hs : (m * 2 ^ a mod 2 ^ (k + a - 1) =? 0) = (m mod 2 ^ (k - 1) =? 0)).
  { replace (k + a - 1) with (k - 1 + a) by lia.
    rewrite Z.pow_add_r, Z.mul_mod_distr_r by lia.
    destruct (Z.eqb_spec (m mod 2 ^ (k - 1)) 0) as [-> | Hne]; [reflexivity |].
    apply Z.eqb_neq. nia. }
  by rewrite Hq, Hr, Hs.
Qed.

(** A multiple of [2^a] shifted by [a] places loses nothing. *)
Lemma rne_exact (m a : Z) : 0 <= m -> 1 <= a -> rne (m * 2 ^ a) a = m.
Proof.
  intros Hm Ha. unfold rne.
  pose proof (Z.pow_pos_nonneg 2 a ltac:(lia) ltac:(lia)) as Hpa.
  rewrite Z.div_mul by lia.
  rewrite Z.mul_pow2_bits_low by lia.
  assert (Hs : m * 2 ^ a mod 2 ^ (a - 1) = 0).
  { replace a with (1 + (a - 1)) at 1 by lia. rewrite Z.pow_add_r by lia.
    rewrite Z.mul_assoc. apply Z.mod_mul.
    pose proof (Z.pow_pos_nonneg 2 (a - 1) ltac:(lia) ltac:(lia)). lia. }
  by rewrite Hs.
Qed.

(** A mantissa and an exponent rounded to a double. *)
Definition roundZ (sx : bool) (m e : Z) : spec_float :=
  binary_round_aux Double.prec Double.emax sx m e loc_Exact.

(** [roundZ] in closed form. *)
Lemma roundZ_spec (sx : bool) (m e : Z) :
  0 < m -> e <= target m e ->
  roundZ sx m e
  = if target m e =? e then finish sx m e
    else let m1 := rne m (target m e - e) in
         if m1 =? 2 ^ 53 then finish sx (2 ^ 52) (target m e + 1)
         else finish sx m1 (target m e).
Proof. intros Hm. destruct m; [lia | apply round_aux_spec | lia]. Qed.

(** The double of [m * 2^e] does not depend on how the number is written. *)
Lemma roundZ_scale (sx : bool) (m e a : Z) :
  0 < m -> 0 <= a -> e <= target m e ->
  roundZ sx (m * 2 ^ a) (e - a) = roundZ sx m e.
Proof.
  intros Hm Ha He.
  pose proof (Z.pow_pos_nonneg 2 a ltac:(lia) Ha) as Hpa.
  rewrite (roundZ_spec sx (m * 2 ^ a) (e - a)); [| nia | rewrite target_scale by lia; lia].
  rewrite (roundZ_spec sx m e) by lia. rewrite target_scale; [| lia | lia].
  set (t := target m e) in *.
  destruct (Z.eqb_spec t e) as [Hte | Hte].
  - destruct (Z.eqb_spec t (e - a)) as [Hta | Hta].
    + replace a with 0 by lia. change (2 ^ 0) with 1. by rewrite Z.mul_1_r, Z.sub_0_r.
    + cbv zeta. replace (t - (e - a)) with a by lia.
      rewrite rne_exact by lia.
      assert (Hsmall : m < 2 ^ 53).
      { apply Z.log2_lt_pow2; [lia |]. unfold t, target in Hte. lia. }
      destruct (Z.eqb_spec m (2 ^ 53)); [lia |]. by rewrite Hte.
  - destruct (Z.eqb_spec t (e - a)) as [Hta | Hta]; [lia |].
    cbv zeta. replace (t - (e - a)) with (t - e + a) by lia.
    by rewrite rne_scale by lia.
Qed.

(** A whole number of units of [2^-1074], the smallest positive double,
    rounded to a double. *)
Definition round (sx : bool) (X : Z) : spec_float := roundZ sx X (-1074).

(** No target exponent is below that of the subnormal numbers. *)
Lemma target_min (m e : Z) : -1074 <= target m e.
Proof. unfold target. lia. Qed.

(** Rounding [m * 2^e] is rounding its number of units. *)
Lemma roundZ_units (sx : bool) (m e : Z) :
  0 < m -> -1074 <= e -> e <= target m e ->
  roundZ sx m e = round sx (m * 2 ^ (e + 1074)).
Proof.
  intros Hm He Ht. unfold round.
  rewrite <- (roundZ_scale sx m e (e + 1074)) by lia. f_equal. lia.
Qed.

(** The same for an exponent below that of the unit. *)
Lemma roundZ_below (sx : bool) (X b : Z) :
  0 < X -> 0 <= b -> roundZ sx (X * 2 ^ b) (-1074 - b) = round sx X.
Proof. intros HX Hb. apply roundZ_scale; [done | done | apply target_min]. Qed.

(** A finite double that is not negative, in its one representation. *)
Definition nonneg (x : spec_float) : bool :=
  match x with
  | S754_zero _ => true
  | S754_finite false m e => bounded Double.prec Double.emax m e
  | _ => false
  end.

(** The library's [bounded]: the significand sits at its target exponent,
    and the exponent is in range. *)
Lemma bounded_spec (m : positive) (e : Z) :
  bounded Double.prec Double.emax m e = true
  <-> target (Z.pos m) e = e /\ e <= 971.
Proof.
  unfold bounded, canonical_mantissa, SpecFloat.fexp, emin.
  rewrite digits2_pos_log2, andb_true_iff, Z.eqb_eq, Z.leb_le.
  unfold target, Double.prec, Double.emax. lia.
Qed.

(** [u] is what the number [X] of units is rounded to: [X] itself, or
    for some [k >= 1] a multiple of [2^k] with at least 53 digits that
    is at most half of [2^k] away from [X]. *)
Definition rounds (X u : Z) : Prop :=
  u = X
  \/ exists k, 1 <= k /\ (exists j, u = j * 2 ^ k) /\ 2 * Z.abs (u - X) <= 2 ^ k
               /\ 2 ^ 52 * 2 ^ k <= u /\ 2 ^ 52 * 2 ^ k <= X.

(** Rounding a positive number of units gives [Infinity], or a double that
    [rounds] it. *)
Lemma round_cases (X : Z) :
  0 < X ->
  (2 ^ 2097 <= X /\ round false X = S754_infinity false)
  \/ exists m e,
       round false X = S754_finite false m e
       /\ bounded Double.prec Double.emax m e = true
       /\ rounds X (Z.pos m * 2 ^ (e + 1074)).
Proof.
  intros HX. unfold round. rewrite roundZ_spec by (try apply target_min; lia).
  pose proof (Z.log2_spec X HX) as [Hlo Hhi].
  pose proof (Z.log2_nonneg X) as Hlog.
  set (t := target X (-1074)) in *.
  assert (Ht : t = Z.max (Z.log2 X - 1126) (-1074)) by (unfold t, target; lia).
  destruct (Z.eqb_spec t (-1074)) as [Hsub | Hnorm].
  - right. destruct X as [| p | p]; try lia. exists p, (-1074). split; [reflexivity |].
    split; [apply bounded_spec; fold t; lia |].
    left. change (-1074 + 1074) with 0. change (2 ^ 0) with 1. lia.
  - set (k := t + 1074). assert (Hk : 1 <= k) by lia.
    assert (Hlogk : Z.log2 X = k + 52) by lia.
    replace (t - -1074) with k by lia. cbv zeta.
    destruct (rne_bounds X k ltac:(lia) Hk) as [[Hq1 Hq2] Herr].
    pose proof (Z.pow_pos_nonneg 2 k ltac:(lia) ltac:(lia)) as Hpk.
    assert (Hlo' : 2 ^ 52 * 2 ^ k <= X).
    { rewrite <- Z.pow_add_r by lia. by replace (52 + k) with (Z.log2 X) by lia. }
    assert (Hhi' : X < 2 ^ 53 * 2 ^ k).
    { rewrite <- Z.pow_add_r by lia. by replace (53 + k) with (Z.succ (Z.log2 X)) by lia. }
    assert (Hq : 2 ^ 52 <= X / 2 ^ k < 2 ^ 53).
    { split; [apply Z.div_le_lower_bound; lia | apply Z.div_lt_upper_bound; lia]. }
    set (m1 := rne X k) in *.
    destruct (Z.eqb_spec m1 (2 ^ 53)) as [Hcarry | Hno].
    + unfold finish. change (2 ^ 52) with (Z.pos (2 ^ 52)%positive) at 1.
      destruct (Z.leb_spec (t + 1) 971) as [Hfin | Hinf].
      * right. exists (2 ^ 52)%positive, (t + 1). split; [reflexivity |].
        split; [apply bounded_spec; unfold target; simpl Z.log2; lia |].
        right. exists k. replace (t + 1 + 1074) with (k + 1) by lia.
        rewrite Z.pow_add_r by lia. change (Z.pos (2 ^ 52)) with (2 ^ 52).
        change (2 ^ 1) with 2. rewrite Hcarry in Herr.
        split; [done |]. split; [exists (2 ^ 53); lia |]. lia.
      * left. split; [| reflexivity].
        eapply Z.le_trans; [| exact Hlo].
        apply Z.pow_le_mono_r; lia.
    + assert (Hm1 : 2 ^ 52 <= m1 < 2 ^ 53) by lia.
      unfold finish. destruct m1 as [| p | p] eqn:Hp; try lia.
      destruct (Z.leb_spec t 971) as [Hfin | Hinf].
      * right. exists p, t. split; [reflexivity |].
        split.
        { apply bounded_spec. unfold target.
          rewrite (Z.log2_unique (Z.pos p) 52) by lia. lia. }
        right. exists k. replace (t + 1074) with k by lia.
        split; [done |]. split; [by exists (Z.pos p) |]. nia.
      * left. split; [| reflexivity].
        eapply Z.le_trans; [| exact Hlo].
        apply Z.pow_le_mono_r; lia.
Qed.


(** The library's [shl_align]: the same number at the smaller exponent. *)
Lemma shl_align_spec (m : positive) (e e' : Z) :
  Z.pos (fst (shl_align m e e')) = Z.pos m * 2 ^ (e - Z.min e e')
  /\ snd (shl_align m e e') = Z.min e e'.
Proof.
  unfold shl_align. destruct (e' - e) as [| d | d] eqn:Hd; cbn [fst snd].
  - replace (e - Z.min e e') with 0 by lia. change (2 ^ 0) with 1. lia.
  - replace (e - Z.min e e') with 0 by lia. change (2 ^ 0) with 1. lia.
  - change (Pos.iter xO m d) with (shift_pos d m).
    rewrite shift_pos_correct. change (Z.pow_pos 2 d) with (2 ^ Z.pos d).
    replace (e - Z.min e e') with (Z.pos d) by lia. lia.
Qed.

(** The library's [binary_round] rounds the number of units. *)
Lemma binary_round_units (sx : bool) (m : positive) (e : Z) :
  -1074 <= e ->
  binary_round Double.prec Double.emax sx m e = round sx (Z.pos m * 2 ^ (e + 1074)).
Proof.
  intros He. unfold binary_round, SpecFloat.fexp, emin. rewrite digits2_pos_log2.
  change (Z.max (Z.log2 (Z.pos m) + 1 + e - Double.prec) (3 - Double.emax - Double.prec))
    with (target (Z.pos m) e).
  destruct (shl_align_spec m e (target (Z.pos m) e)) as [Hm He'].
  destruct (shl_align m e (target (Z.pos m) e)) as [mz ez]. cbn [fst snd] in Hm, He'.
  pose proof (target_min (Z.pos m) e) as Hmin.
  set (a := e - Z.min e (target (Z.pos m) e)) in *.
  pose proof (Z.pow_pos_nonneg 2 a ltac:(lia) ltac:(lia)) as Hpa.
  fold (roundZ sx (Z.pos mz) ez).
  assert (Htz : target (Z.pos mz) ez = target (Z.pos m) e).
  { rewrite Hm. replace ez with (e - a) by lia. apply target_scale; lia. }
  rewrite roundZ_units by lia.
  f_equal. rewrite Hm, <- Z.mul_assoc, <- Z.pow_add_r by lia. do 2 f_equal. lia.
Qed.

(** The sum of two positive doubles is the exact sum, rounded. *)
Lemma add_units (mx my : positive) (ex ey : Z) :
  -1074 <= ex -> -1074 <= ey ->
  SFadd Double.prec Double.emax (S754_finite false mx ex) (S754_finite false my ey)
  = round false (Double.units (S754_finite false mx ex) + Double.units (S754_finite false my ey)).
Proof.
  intros Hx Hy. unfold SFadd, Double.units. cbn [cond_Zopp].
  destruct (shl_align_spec mx ex (Z.min ex ey)) as [Hmx _].
  destruct (shl_align_spec my ey (Z.min ex ey)) as [Hmy _].
  set (px := fst (shl_align mx ex (Z.min ex ey))) in *.
  set (py := fst (shl_align my ey (Z.min ex ey))) in *.
  change (Z.pos px + Z.pos py) with (Z.pos (px + py)).
  unfold binary_normalize. rewrite binary_round_units by lia.
  f_equal. rewrite Pos2Z.inj_add, Hmx, Hmy.
  set (ez := Z.min ex ey).
  assert (H1 : 2 ^ (ex + 1074) = 2 ^ (ex - Z.min ex ez) * 2 ^ (ez + 1074)).
  { rewrite <- Z.pow_add_r by lia. f_equal. lia. }
  assert (H2 : 2 ^ (ey + 1074) = 2 ^ (ey - Z.min ey ez) * 2 ^ (ez + 1074)).
  { rewrite <- Z.pow_add_r by lia. f_equal. lia. }
  rewrite H1, H2. ring.
Qed.

(** A larger power of two is at least twice the smaller. *)
Lemma pow2_double (a b : Z) : 0 <= a < b -> 2 * 2 ^ a <= 2 ^ b.
Proof.
  intros H. rewrite <- Z.pow_succ_r by lia. apply Z.pow_le_mono_r; lia.
Qed.

(** The product with a constant [c] written with 53 digits is the exact
    product, rounded. *)
Lemma mul_scaled (s : bool) (m cm : positive) (e c t : Z) :
  -1074 <= e -> 0 <= t -> Z.pos cm = c * 2 ^ t -> 52 <= Z.log2 (Z.pos cm) ->
  SFmul Double.prec Double.emax (S754_finite s m e) (S754_finite false cm (- t))
  = round s (c * (Z.pos m * 2 ^ (e + 1074))).
Proof.
  intros He Ht Hcm Hlog. unfold SFmul. rewrite xorb_false_r.
  fold (roundZ s (Z.pos (m * cm)) (e + - t)).
  pose proof (Z.pow_pos_nonneg 2 t ltac:(lia) Ht) as Hpt.
  assert (Hc : 0 < c) by nia.
  assert (Htarget : e + - t <= target (Z.pos (m * cm)) (e + - t)).
  { unfold target.
    assert (Z.log2 (Z.pos cm) <= Z.log2 (Z.pos (m * cm))) by (apply Z.log2_le_mono; nia).
    lia. }
  destruct (Z_le_gt_dec (-1074) (e + - t)) as [Hnorm | Hsub].
  - rewrite roundZ_units by lia. f_equal.
    rewrite Pos2Z.inj_mul, Hcm.
    replace (e + 1074) with (e + - t + 1074 + t) by lia.
    rewrite (Z.pow_add_r 2 (e + - t + 1074) t) by lia. ring.
  - rewrite <- (roundZ_below s (c * (Z.pos m * 2 ^ (e + 1074))) (-1074 - (e + - t)))
      by (try lia; pose proof (Z.pow_pos_nonneg 2 (e + 1074) ltac:(lia) ltac:(lia)); nia).
    f_equal; [| lia].
    rewrite Pos2Z.inj_mul, Hcm.
    replace t with (e + 1074 + (-1074 - (e + - t))) at 1 by lia.
    rewrite (Z.pow_add_r 2 (e + 1074)) by lia. ring.
Qed.

(** Rounding a double gives it back. *)
Lemma round_id (s : bool) (m : positive) (e : Z) :
  bounded Double.prec Double.emax m e = true ->
  round s (Z.pos m * 2 ^ (e + 1074)) = S754_finite s m e.
Proof.
  intros Hb. apply bounded_spec in Hb as [Ht He].
  pose proof (target_min (Z.pos m) e).
  rewrite <- roundZ_units by lia.
  rewrite roundZ_spec by lia. rewrite Ht, Z.eqb_refl. unfold finish.
  by destruct (Z.leb_spec e 971); [| lia].
Qed.

(** The significand of a double has at most 53 digits, and exactly 53
    above the subnormal range. *)
Lemma bounded_mantissa (m : positive) (e : Z) :
  bounded Double.prec Double.emax m e = true ->
  -1074 <= e <= 971 /\ Z.pos m < 2 ^ 53 /\ (-1074 < e -> 2 ^ 52 <= Z.pos m).
Proof.
  intros Hb. apply bounded_spec in Hb as [Ht He]. unfold target in Ht.
  pose proof (Z.log2_spec (Z.pos m) ltac:(lia)) as [Hlo Hhi].
  split; [lia |]. split.
  - apply Z.log2_lt_pow2; lia.
  - intros Hnorm. replace (Z.log2 (Z.pos m)) with 52 in Hlo by lia. exact Hlo.
Qed.

(** Doubles that are not negative compare as their numbers of units. *)
Lemma compare_units (x y : spec_float) :
  nonneg x = true -> nonneg y = true ->
  SFcompare x y = Some (Double.units x ?= Double.units y).
Proof.
  destruct x as [sx | sx | | [] mx ex], y as [sy | sy | | [] my ey];
    try discriminate; intros Hx Hy; cbn [nonneg] in Hx, Hy; cbn [SFcompare Double.units cond_Zopp].
  - reflexivity.
  - destruct (bounded_mantissa _ _ Hy) as (He & _).
    pose proof (Z.pow_pos_nonneg 2 (ey + 1074) ltac:(lia) ltac:(lia)).
    f_equal. symmetry. apply Z.compare_lt_iff. nia.
  - destruct (bounded_mantissa _ _ Hx) as (He & _).
    pose proof (Z.pow_pos_nonneg 2 (ex + 1074) ltac:(lia) ltac:(lia)).
    f_equal. symmetry. apply Z.compare_gt_iff. nia.
  - destruct (bounded_mantissa _ _ Hx) as (Hex & Hmx & Hnx).
    destruct (bounded_mantissa _ _ Hy) as (Hey & Hmy & Hny).
    pose proof (Z.pow_pos_nonneg 2 (ex + 1074) ltac:(lia) ltac:(lia)) as Hpx.
    pose proof (Z.pow_pos_nonneg 2 (ey + 1074) ltac:(lia) ltac:(lia)) as Hpy.
    f_equal. destruct (Z.compare_spec ex ey) as [Heq | Hlt | Hgt].
    + subst ey. rewrite Pos.compare_cont_spec. cbn [Pos.switch_Eq].
      change (Pos.compare mx my) with (Z.pos mx ?= Z.pos my).
      symmetry. destruct (Z.compare_spec (Z.pos mx) (Z.pos my)) as [H | H | H].
      * apply Z.compare_eq_iff. by rewrite H.
      * apply Z.compare_lt_iff. nia.
      * apply Z.compare_gt_iff. nia.
    + symmetry. apply Z.compare_lt_iff.
      assert (Hstep : 2 * 2 ^ (ex + 1074) <= 2 ^ (ey + 1074)) by (apply pow2_double; lia).
      specialize (Hny ltac:(lia)). change (2 ^ 53) with (2 * 2 ^ 52) in Hmx. nia.
    + symmetry. apply Z.compare_gt_iff.
      assert (Hstep : 2 * 2 ^ (ey + 1074) <= 2 ^ (ex + 1074)) by (apply pow2_double; lia).
      specialize (Hnx ltac:(lia)). change (2 ^ 53) with (2 * 2 ^ 52) in Hmy. nia.
Qed.

(** The largest double below 1 is [1 - 2^-53]. *)
Lemma below_one (x : spec_float) :
  nonneg x = true -> Double.units x < 2 ^ 1074 -> Double.units x <= 2 ^ 1074 - 2 ^ 1021.
Proof.
  destruct x as [sx | sx | | [] m e]; try (intros H; discriminate H);
    intros Hx Hlt; cbn [nonneg Double.units cond_Zopp] in *.
  - pose proof (Z.pow_pos_nonneg 2 1021 ltac:(lia) ltac:(lia)).
    change (2 ^ 1074) with (2 ^ 53 * 2 ^ 1021). lia.
  - destruct (bounded_mantissa _ _ Hx) as (He & Hm & Hn).
    pose proof (Z.pow_pos_nonneg 2 (e + 1074) ltac:(lia) ltac:(lia)) as Hp.
    change (2 ^ 1074) with (2 ^ 53 * 2 ^ 1021) in *.
    destruct (Z_lt_le_dec (e + 1074) 1021) as [Hsmall | Hbig].
    + assert (2 * 2 ^ (e + 1074) <= 2 ^ 1021) by (apply pow2_double; lia).
      nia.
    + assert (He' : e + 1074 = 1021).
      { destruct (Z.eq_dec (e + 1074) 1021) as [| Hne]; [done | exfalso].
        assert (2 * 2 ^ 1021 <= 2 ^ (e + 1074)) by (apply pow2_double; lia).
        specialize (Hn ltac:(lia)). change (2 ^ 53) with (2 * 2 ^ 52) in Hlt. nia. }
      rewrite He' in *. nia.
Qed.

(** The relative error of rounding is at most [2^-53]. *)
Lemma rounds_error (X u : Z) : 0 < X -> rounds X u -> 2 ^ 53 * Z.abs (u - X) <= X.
Proof.
  intros HX [-> | (k & Hk & _ & Herr & _ & Hlo)]; [lia |].
  pose proof (Z.pow_pos_nonneg 2 k ltac:(lia) ltac:(lia)). lia.
Qed.

(** A double is a multiple of [2^k] or lies below the binade of that
    spacing. *)
Lemma bounded_grid (m : positive) (e k : Z) :
  bounded Double.prec Double.emax m e = true -> 1 <= k ->
  (exists r, Z.pos m * 2 ^ (e + 1074) = r * 2 ^ k)
  \/ Z.pos m * 2 ^ (e + 1074) < 2 ^ 52 * 2 ^ k.
Proof.
  intros Hb Hk. destruct (bounded_mantissa _ _ Hb) as (He & Hm & _).
  destruct (Z_le_gt_dec k (e + 1074)) as [Hle | Hgt].
  - left. exists (Z.pos m * 2 ^ (e + 1074 - k)).
    rewrite <- Z.mul_assoc, <- Z.pow_add_r by lia. do 2 f_equal. lia.
  - right. pose proof (pow2_double (e + 1074) k ltac:(lia)).
    pose proof (Z.pow_pos_nonneg 2 (e + 1074) ltac:(lia) ltac:(lia)).
    change (2 ^ 53) with (2 * 2 ^ 52) in Hm. nia.
Qed.

(** Rounding does not cross a double: one at or below the number stays
    at or below the result, one at or above stays at or above. *)
Lemma rounds_lower (y : spec_float) (X u : Z) :
  nonneg y = true -> Double.units y <= X -> rounds X u -> Double.units y <= u.
Proof.
  intros Hy HR [-> | (k & Hk & [j Hj] & Herr & Hu & HX)]; [done |].
  pose proof (Z.pow_pos_nonneg 2 k ltac:(lia) ltac:(lia)) as Hpk.
  destruct y as [sy | sy | | [] m e]; try discriminate Hy; cbn [Double.units cond_Zopp nonneg] in *; [lia |].
  destruct (bounded_grid m e k Hy Hk) as [[r Hr] | Hsmall]; [| lia].
  rewrite Hr in *. subst u.
  assert (Hlt : r * 2 ^ k < (j + 1) * 2 ^ k) by lia.
  apply Z.mul_lt_mono_pos_r in Hlt; [| done].
  apply Z.mul_le_mono_nonneg_r; lia.
Qed.

(** Rounding does not cross a double from below. *)
Lemma rounds_upper (y : spec_float) (X u : Z) :
  nonneg y = true -> 0 < X -> X <= Double.units y -> rounds X u -> u <= Double.units y.
Proof.
  intros Hy H0 HR [-> | (k & Hk & [j Hj] & Herr & Hu & HX)]; [done |].
  pose proof (Z.pow_pos_nonneg 2 k ltac:(lia) ltac:(lia)) as Hpk.
  destruct y as [sy | sy | | [] m e]; try discriminate Hy; cbn [Double.units cond_Zopp nonneg] in *; [lia |].
  destruct (bounded_grid m e k Hy Hk) as [[r Hr] | Hsmall]; [| lia].
  rewrite Hr in *. subst u.
  assert (Hlt : (j - 1) * 2 ^ k < r * 2 ^ k) by lia.
  apply Z.mul_lt_mono_pos_r in Hlt; [| done].
  apply Z.mul_le_mono_nonneg_r; lia.
Qed.


(** Rounding a positive number: [Infinity], or a double that is not
    negative and [rounds] it. *)
Lemma round_nonneg (X : Z) :
  0 < X ->
  (2 ^ 2097 <= X /\ round false X = S754_infinity false)
  \/ (nonneg (round false X) = true /\ rounds X (Double.units (round false X))).
Proof.
  intros HX. destruct (round_cases X HX) as [Hinf | (m & e & -> & Hb & Hr)];
    [by left | by right].
Qed.


(** The product with 1000. *)
Lemma mul_thousand (x : spec_float) :
  nonneg x = true ->
  (2 ^ 2097 <= 1000 * Double.units x
   /\ Double.mul x (Double.ofZ 1000) = S754_infinity false)
  \/ (nonneg (Double.mul x (Double.ofZ 1000)) = true
      /\ rounds (1000 * Double.units x) (Double.units (Double.mul x (Double.ofZ 1000)))).
Proof.
  destruct x as [sx | sx | | [] m e]; try discriminate; intros Hx.
  - right. split; [done | by left].
  - destruct (bounded_mantissa _ _ Hx) as (He & _).
    change (Double.ofZ 1000) with (S754_finite false 8796093022208000 (- 43)).
    unfold Double.mul. rewrite (mul_scaled false m _ e 1000 43) by (done || lia).
    apply round_nonneg.
    pose proof (Z.pow_pos_nonneg 2 (e + 1074) ltac:(lia) ltac:(lia)). nia.
Qed.

(** The product does not depend on the order. *)
Lemma mul_comm (x y : spec_float) : Double.mul x y = Double.mul y x.
Proof.
  destruct x as [[] | [] | | [] mx ex], y as [[] | [] | | [] my ey]; try reflexivity;
    unfold Double.mul, SFmul; by rewrite (Pos.mul_comm my), (Z.add_comm ey).
Qed.




(** A double of $[0, 1)$ has fewer than [2^1074] units. *)
Lemma unitInterval_units (r : spec_float) :
  Double.unitInterval r = true -> nonneg r = true /\ 0 <= Double.units r < 2 ^ 1074.
Proof.
  unfold Double.unitInterval. rewrite !andb_true_iff. intros [[Hv Hle] Hlt].
  assert (Hn : nonneg r = true).
  { destruct r as [s | s | | [] m e]; try done; destruct s; discriminate. }
  split; [exact Hn |]. split.
  - destruct r as [s | s | | [] m e]; try discriminate Hn; cbn [Double.units cond_Zopp]; [lia |].
    destruct (bounded_mantissa _ _ Hn) as (He & _).
    pose proof (Z.pow_pos_nonneg 2 (e + 1074) ltac:(lia) ltac:(lia)). nia.
  - unfold Double.ltb, SFltb in Hlt.
    rewrite (compare_units r (Double.ofZ 1) Hn eq_refl) in Hlt.
    change (Double.units (Double.ofZ 1)) with (2 ^ 1074) in Hlt.
    destruct (Z.compare_spec (Double.units r) (2 ^ 1074)); done.
Qed.

(** The jitter: a thousand times a random number of $[0, 1)$ is a
    number of $[0, 1000)$, in doubles as well. *)
Lemma jitter_range (random : spec_float) :
  Double.unitInterval random = true ->
  nonneg (Double.mul random (Double.ofZ 1000)) = true
  /\ 0 <= Double.units (Double.mul random (Double.ofZ 1000)) < 1000 * 2 ^ 1074.
Proof.
  intros Hr. destruct (unitInterval_units random Hr) as (Hn & H0 & H1).
  pose proof (below_one random Hn H1) as Hgrid.
  pose proof (Z.pow_pos_nonneg 2 1021 ltac:(lia) ltac:(lia)) as Hv.
  change (2 ^ 1074) with (2 ^ 53 * 2 ^ 1021) in *.
  assert (Hbig : 2 ^ 53 * 2 ^ 1021 * 1000 < 2 ^ 2097).
  { change (2 ^ 2097) with (2 ^ 53 * 2 ^ 1021 * 2 ^ 1023).
    apply Z.mul_lt_mono_pos_l; [lia |]. reflexivity. }
  destruct (mul_thousand random Hn) as [[Hinf _] | [Hj Hrounds]]; [lia |].
  split; [exact Hj |].
  destruct (Z.eq_dec (Double.units random) 0) as [Hz | Hnz].
  - rewrite Hz in Hrounds. destruct Hrounds as [-> | (k & Hk & _ & _ & Hu & HX)]; [lia |].
    pose proof (Z.pow_pos_nonneg 2 k ltac:(lia) ltac:(lia)). lia.
  - pose proof (rounds_error (1000 * Double.units random) _ ltac:(lia) Hrounds) as Herr.
    split.
    + destruct Hrounds as [-> | (k & Hk & _ & _ & Hu & _)]; [lia |].
      pose proof (Z.pow_pos_nonneg 2 k ltac:(lia) ltac:(lia)). lia.
    + lia.
Qed.


End Rounding.

(** *** The order of doubles

    Rounding keeps the order, and so do the product with a power of two
    and the sum with a fixed number, [Infinity] included. *)

Section Order.

(** The value of a double that is not negative, [Infinity] counted as a
    number above every finite double. *)
Definition ext (x : spec_float) : Z :=
  match x with
  | S754_infinity false => 2 ^ 2100
  | _ => Double.units x
  end.

(** Zero, a positive double or [Infinity]. *)
Definition nonnegInf (x : spec_float) : bool :=
  match x with
  | S754_infinity false => true
  | _ => nonneg x
  end.

(** No finite double exceeds [(2^53 - 1) * 2^971]. *)
Lemma nonneg_units (x : spec_float) :
  nonneg x = true -> 0 <= Double.units x <= (2 ^ 53 - 1) * 2 ^ 2045.
Proof.
  destruct x as [s | s | | [] m e]; try discriminate; intros Hx;
    cbn [Double.units cond_Zopp]; [lia |].
  destruct (bounded_mantissa _ _ Hx) as (He & Hm & _).
  pose proof (Z.pow_pos_nonneg 2 (e + 1074) ltac:(lia) ltac:(lia)) as Hp.
  assert (Hpow : 2 ^ (e + 1074) <= 2 ^ 2045) by (apply Z.pow_le_mono_r; lia).
  split; [lia |].
  apply Z.le_trans with ((2 ^ 53 - 1) * 2 ^ (e + 1074)).
  - apply Z.mul_le_mono_nonneg_r; lia.
  - apply Z.mul_le_mono_nonneg_l; lia.
Qed.

(** [ext] is between 0 and the value given to [Infinity]. *)
Lemma ext_range (x : spec_float) : nonnegInf x = true -> 0 <= ext x <= 2 ^ 2100.
Proof.
  destruct x as [s | [] | | s m e]; try discriminate; intros Hx; cbn [ext nonnegInf] in *.
  - cbn. lia.
  - lia.
  - pose proof (nonneg_units _ Hx) as H.
    lia.
Qed.

(** Below that value the double is finite. *)
Lemma ext_finite (x : spec_float) :
  nonnegInf x = true -> ext x < 2 ^ 2100 -> nonneg x = true /\ ext x = Double.units x.
Proof.
  destruct x as [s | [] | | s m e]; try discriminate; intros Hx Hlt; cbn [ext nonnegInf] in *;
    try done; lia.
Qed.

(** Doubles that are not negative compare as their [ext], [Infinity]
    included. *)
Lemma compare_ext (x y : spec_float) :
  nonnegInf x = true -> nonnegInf y = true ->
  SFcompare x y = Some (ext x ?= ext y).
Proof.
  intros Hx Hy.
  destruct x as [sx | [] | | sx mx ex]; try discriminate Hx;
    destruct y as [sy | [] | | sy my ey]; try discriminate Hy.
  1, 3, 7, 9: exact (compare_units _ _ Hx Hy).
  - cbn [SFcompare ext Double.units]; f_equal; symmetry; apply Z.compare_lt_iff; lia.
  - cbn [SFcompare ext Double.units]; f_equal; symmetry; apply Z.compare_gt_iff; lia.
  - cbn [SFcompare ext]. by rewrite Z.compare_refl.
  - cbn [nonnegInf] in Hy. pose proof (nonneg_units _ Hy) as H.
    destruct sy; [discriminate Hy |].
    cbn [SFcompare ext]; f_equal; symmetry; apply Z.compare_gt_iff; lia.
  - cbn [nonnegInf] in Hx. pose proof (nonneg_units _ Hx) as H.
    destruct sx; [discriminate Hx |].
    cbn [SFcompare ext]; f_equal; symmetry; apply Z.compare_lt_iff; lia.
Qed.

(** [x <= y] from the order of the values. *)
Lemma leb_ext (x y : spec_float) :
  nonnegInf x = true -> nonnegInf y = true -> ext x <= ext y -> Double.leb x y = true.
Proof.
  intros Hx Hy Hle. unfold Double.leb, SFleb. rewrite (compare_ext x y Hx Hy).
  destruct (Z.compare_spec (ext x) (ext y)); [done | done | lia].
Qed.

(** [Math.min] is the minimum of the values. *)
Lemma min_ext (x y : spec_float) :
  nonnegInf x = true -> nonnegInf y = true ->
  nonnegInf (Double.min x y) = true /\ ext (Double.min x y) = Z.min (ext x) (ext y).
Proof.
  intros Hx Hy.
  assert (Hmin : Double.min x y
                 = if SFltb x y then x
                   else if SFltb y x then y
                   else match x with S754_zero true => x | _ => y end).
  { destruct x as [| | |], y as [| | |]; done. }
  rewrite Hmin. unfold SFltb. rewrite (compare_ext x y Hx Hy), (compare_ext y x Hy Hx).
  destruct (Z.compare_spec (ext x) (ext y)) as [Heq | Hlt | Hgt].
  - rewrite (proj2 (Z.compare_eq_iff _ _) (eq_sym Heq)).
    destruct x as [[] | | |]; (split; [done | lia]).
  - split; [done | lia].
  - rewrite (proj2 (Z.compare_lt_iff _ _) Hgt). split; [done | lia].
Qed.


(** Where rounding overflows: at the midpoint between the largest double
    and [2^1024]. *)
Lemma round_overflow (X : Z) :
  0 < X -> round false X = S754_infinity false -> (2 ^ 54 - 1) * 2 ^ 2044 <= X.
Proof.
  intros HX. unfold round. rewrite roundZ_spec by (try apply target_min; lia).
  pose proof (Z.log2_spec X HX) as [Hlo Hhi].
  pose proof (Z.log2_nonneg X) as Hlog.
  set (t := target X (-1074)) in *.
  assert (Ht : t = Z.max (Z.log2 X - 1126) (-1074)) by (unfold t, target; lia).
  destruct (Z.eqb_spec t (-1074)) as [Hsub | Hnorm].
  - destruct X as [| p | p]; try lia. discriminate.
  - set (k := t + 1074). assert (Hk : 1 <= k) by lia.
    assert (Hlogk : Z.log2 X = k + 52) by lia.
    replace (t - -1074) with k by lia. cbv zeta.
    destruct (rne_bounds X k ltac:(lia) Hk) as [[Hq1 Hq2] Herr].
    pose proof (Z.pow_pos_nonneg 2 k ltac:(lia) ltac:(lia)) as Hpk.
    assert (Hlo' : 2 ^ 52 * 2 ^ k <= X).
    { rewrite <- Z.pow_add_r by lia. by replace (52 + k) with (Z.log2 X) by lia. }
    assert (Hhi' : X < 2 ^ 53 * 2 ^ k).
    { rewrite <- Z.pow_add_r by lia. by replace (53 + k) with (Z.succ (Z.log2 X)) by lia. }
    assert (Hq : 2 ^ 52 <= X / 2 ^ k < 2 ^ 53).
    { split; [apply Z.div_le_lower_bound; lia | apply Z.div_lt_upper_bound; lia]. }
    set (m1 := rne X k) in *.
    destruct (Z.eqb_spec m1 (2 ^ 53)) as [Hcarry | Hno].
    + unfold finish. change (2 ^ 52) with (Z.pos (2 ^ 52)%positive) at 1.
      destruct (Z.leb_spec (t + 1) 971) as [Hfin | Hinf]; [discriminate |]. intros _.
      assert (Hbig : 2 ^ 2045 <= 2 ^ k) by (apply Z.pow_le_mono_r; lia).
      change (2 ^ 2045) with (2 * 2 ^ 2044) in Hbig.
      rewrite Hcarry in Herr. lia.
    + assert (Hm1 : 2 ^ 52 <= m1 < 2 ^ 53) by lia.
      unfold finish. destruct m1 as [| p | p] eqn:Hp; try lia.
      destruct (Z.leb_spec t 971) as [Hfin | Hinf]; [discriminate |]. intros _.
      assert (Hbig : 2 ^ 2046 <= 2 ^ k) by (apply Z.pow_le_mono_r; lia).
      change (2 ^ 2046) with (4 * 2 ^ 2044) in Hbig. lia.
Qed.

(** A finite result of rounding means that the number was not above that
    midpoint. *)
Lemma round_finite_bound (Y : Z) :
  0 < Y -> nonneg (round false Y) = true -> Y <= (2 ^ 54 - 1) * 2 ^ 2044.
Proof.
  intros HY Hn.
  destruct (round_nonneg Y HY) as [[_ Hinf] | [_ Hr]]; [by rewrite Hinf in Hn |].
  pose proof (nonneg_units _ Hn) as Hv.
  change (2 ^ 2045) with (2 * 2 ^ 2044) in Hv.
  destruct Hr as [Heq | (k & Hk & _ & Herr & Hu & _)]; [lia |].
  assert (Hlt : k < 2046).
  { apply (Z.pow_lt_mono_r_iff 2); [lia | lia |].
    change (2 ^ 2046) with (4 * 2 ^ 2044). lia. }
  assert (Hpow : 2 ^ k <= 2 ^ 2045) by (apply Z.pow_le_mono_r; lia).
  change (2 ^ 2045) with (2 * 2 ^ 2044) in Hpow. lia.
Qed.

(** Rounding to the nearest double keeps the order. *)
Lemma round_mono (X Y : Z) :
  0 < X -> X <= Y ->
  nonnegInf (round false X) = true /\ nonnegInf (round false Y) = true
  /\ ext (round false X) <= ext (round false Y).
Proof.
  intros HX HXY.
  assert (Hnn : forall Z0, 0 < Z0 -> nonnegInf (round false Z0) = true).
  { intros Z0 H0. destruct (round_nonneg Z0 H0) as [[_ ->] | [Hn _]]; [done |].
    by destruct (round false Z0) as [| [] | |]. }
  split; [by apply Hnn |]. split; [apply Hnn; lia |].
  destruct (Z.eq_dec X Y) as [-> | Hne]; [lia |].
  destruct (round_nonneg Y ltac:(lia)) as [[_ HinfY] | [HnY HrY]].
  { rewrite HinfY. apply (ext_range _ (Hnn X HX)). }
  destruct (round_nonneg X HX) as [[_ HinfX] | [HnX HrX]].
  { pose proof (round_overflow X HX HinfX). pose proof (round_finite_bound Y ltac:(lia) HnY).
    lia. }
  assert (Hu : ext (round false X) = Double.units (round false X))
    by (by destruct (round false X) as [| [] | |]).
  assert (Hv : ext (round false Y) = Double.units (round false Y))
    by (by destruct (round false Y) as [| [] | |]).
  rewrite Hu, Hv.
  set (u := Double.units (round false X)) in *. set (v := Double.units (round false Y)) in *.
  destruct (Z_le_gt_dec u Y) as [HuY | HuY].
  { exact (rounds_lower (round false X) Y v HnX HuY HrY). }
  destruct (Z_le_gt_dec X v) as [HXv | HXv].
  { exact (rounds_upper (round false Y) X u HnY HX HXv HrX). }
  exfalso.
  destruct HrX as [HeqX | (k & Hk & [j Hj] & HerrX & HuX & HXk)]; [lia |].
  destruct HrY as [HeqY | (k' & Hk' & [j' Hj'] & HerrY & HvY & HYk)]; [lia |].
  pose proof (Z.pow_pos_nonneg 2 k ltac:(lia) ltac:(lia)) as Hpk.
  pose proof (Z.pow_pos_nonneg 2 k' ltac:(lia) ltac:(lia)) as Hpk'.
  assert (Hgu : u - v >= 2 ^ k').
  { destruct (round false X) as [| | | [] mu eu] eqn:Eu; try discriminate HnX;
      cbn [nonneg Double.units cond_Zopp] in *; [lia |].
    destruct (bounded_grid mu eu k' HnX Hk') as [[r Hr] | Hsmall]; [| lia].
    fold u in Hr. rewrite Hr, Hj' in *.
    assert (Hlt : j' * 2 ^ k' < r * 2 ^ k') by lia.
    apply Z.mul_lt_mono_pos_r in Hlt; [| done].
    assert ((j' + 1) * 2 ^ k' <= r * 2 ^ k') by (apply Z.mul_le_mono_nonneg_r; lia). lia. }
  destruct (round false Y) as [| | | [] mv ev] eqn:Ev; try discriminate HnY;
    cbn [nonneg Double.units cond_Zopp] in *; [lia |].
  destruct (bounded_grid mv ev k HnY Hk) as [[r Hr] | Hsmall].
  - fold v in Hr. rewrite Hr, Hj in *.
    assert (Hlt : r * 2 ^ k < j * 2 ^ k) by lia.
    apply Z.mul_lt_mono_pos_r in Hlt; [| done].
    assert ((r + 1) * 2 ^ k <= j * 2 ^ k) by (apply Z.mul_le_mono_nonneg_r; lia). lia.
  - fold v in Hsmall.
    assert (Hkk : k' < k).
    { apply (Z.pow_lt_mono_r_iff 2); [lia | lia |].
      apply (Z.mul_lt_mono_pos_l (2 ^ 52)); lia. }
    assert (Hsplit : 2 ^ k = 2 ^ (k - k') * 2 ^ k').
    { rewrite <- Z.pow_add_r by lia. f_equal. lia. }
    rewrite Hsplit, Z.mul_assoc, Hj' in Hsmall.
    apply Z.mul_lt_mono_pos_r in Hsmall; [| done].
    assert ((j' + 1) * 2 ^ k' <= 2 ^ 52 * 2 ^ (k - k') * 2 ^ k')
      by (apply Z.mul_le_mono_nonneg_r; lia).
    rewrite <- Z.mul_assoc, <- Hsplit in H. lia.
Qed.

(** [Math.pow(2, n)] is the power itself up to [n = 1023], [Infinity]
    above. *)
Lemma pow2_finite (n : Z) :
  0 <= n < 1024 -> Double.pow2 n = S754_finite false (2 ^ 52) (n - 52).
Proof.
  intros Hn. unfold Double.pow2. rewrite binary_round_units by lia.
  rewrite <- (round_id false (2 ^ 52) (n - 52)).
  - f_equal. change (Z.pos (2 ^ 52)) with (2 ^ 52). rewrite <- Z.pow_add_r by lia.
    rewrite Z.mul_1_l. f_equal. lia.
  - apply bounded_spec. unfold target. change (Z.log2 (Z.pos (2 ^ 52))) with 52. lia.
Qed.

(** From [n = 1024] on the power is [Infinity]. *)
Lemma pow2_overflow (n : Z) : 1024 <= n -> Double.pow2 n = S754_infinity false.
Proof.
  intros Hn. unfold Double.pow2. rewrite binary_round_units by lia. rewrite Z.mul_1_l.
  assert (Hbig : 2 ^ 2098 <= 2 ^ (n + 1074)) by (apply Z.pow_le_mono_r; lia).
  pose proof (Z.pow_pos_nonneg 2 (n + 1074) ltac:(lia) ltac:(lia)) as Hpos.
  destruct (round_nonneg (2 ^ (n + 1074)) Hpos) as [[_ H] | [Hnn _]]; [done |].
  pose proof (round_finite_bound _ Hpos Hnn) as Hle.
  change (2 ^ 2098) with (2 ^ 54 * 2 ^ 2044) in Hbig. lia.
Qed.

(** A product with a power of two is the exact product, rounded. *)
Lemma mul_pow2_finite (s : bool) (m : positive) (e n : Z) :
  -1074 <= e -> 0 <= n < 1024 ->
  Double.mul (S754_finite s m e) (Double.pow2 n)
  = round s (Z.pos m * 2 ^ (e + 1074) * 2 ^ n).
Proof.
  intros He Hn. rewrite pow2_finite by done. unfold Double.mul.
  destruct (Z_le_gt_dec n 52) as [Hsmall | Hlarge].
  - replace (n - 52) with (- (52 - n)) by lia.
    rewrite (mul_scaled s m (2 ^ 52) e (2 ^ n) (52 - n)); [by rewrite (Z.mul_comm (2 ^ n)) | lia | lia | |].
    + change (Z.pos (2 ^ 52)) with (2 ^ 52). rewrite <- Z.pow_add_r by lia. f_equal. lia.
    + change (Z.log2 (Z.pos (2 ^ 52))) with 52. lia.
  - unfold SFmul. rewrite xorb_false_r.
    fold (roundZ s (Z.pos (m * 2 ^ 52)) (e + (n - 52))).
    rewrite roundZ_units; [| lia | lia |].
    + assert (H1 : 2 ^ (e + (n - 52) + 1074) = 2 ^ (e + 1074) * 2 ^ (n - 52))
        by (rewrite <- Z.pow_add_r by lia; f_equal; lia).
      assert (H2 : 2 ^ n = 2 ^ 52 * 2 ^ (n - 52))
        by (rewrite <- Z.pow_add_r by lia; f_equal; lia).
      f_equal. rewrite Pos2Z.inj_mul, H1, H2. change (Z.pos (2 ^ 52)) with (2 ^ 52). ring.
    + unfold target.
      assert (52 <= Z.log2 (Z.pos (m * 2 ^ 52))).
      { change 52 with (Z.log2 (2 ^ 52)) at 1. apply Z.log2_le_mono.
        rewrite Pos2Z.inj_mul. change (Z.pos (2 ^ 52)) with (2 ^ 52). lia. }
      lia.
Qed.

(** The product [x * Math.pow(2, n)] grows with [n]; for [x = 0] only
    as long as the power is finite. *)
Lemma mul_pow2_mono (x : spec_float) (n n' : Z) :
  nonneg x = true -> 0 <= n -> n <= n' -> 0 < Double.units x \/ n' < 1024 ->
  nonnegInf (Double.mul x (Double.pow2 n)) = true
  /\ nonnegInf (Double.mul x (Double.pow2 n')) = true
  /\ ext (Double.mul x (Double.pow2 n)) <= ext (Double.mul x (Double.pow2 n')).
Proof.
  intros Hx Hn Hnn' Hedge.
  destruct x as [s | s | | [] m e]; try discriminate Hx.
  - cbn [Double.units] in Hedge. rewrite !pow2_finite by lia. by destruct s.
  - destruct (bounded_mantissa _ _ Hx) as (He & _).
    pose proof (Z.pow_pos_nonneg 2 (e + 1074) ltac:(lia) ltac:(lia)) as Hpe.
    assert (Hpos : forall k, 0 <= k -> 0 < Z.pos m * 2 ^ (e + 1074) * 2 ^ k).
    { intros k Hk. pose proof (Z.pow_pos_nonneg 2 k ltac:(lia) Hk). lia. }
    assert (Hone : forall k, 0 <= k ->
                     nonnegInf (Double.mul (S754_finite false m e) (Double.pow2 k)) = true).
    { intros k Hk. destruct (Z_lt_ge_dec k 1024) as [Hlow | Hhigh].
      - rewrite mul_pow2_finite by lia.
        exact (proj1 (round_mono _ _ (Hpos k Hk) (Z.le_refl _))).
      - by rewrite pow2_overflow by lia. }
    split; [by apply Hone |]. split; [apply Hone; lia |].
    destruct (Z_lt_ge_dec n' 1024) as [Hlow | Hhigh].
    + rewrite !mul_pow2_finite by lia.
      apply round_mono; [by apply Hpos |].
      apply Z.mul_le_mono_nonneg_l; [lia |]. apply Z.pow_le_mono_r; lia.
    + rewrite (pow2_overflow n') by lia.
      exact (proj2 (ext_range _ (Hone n Hn))).
Qed.

(** The sum of two doubles that are not negative: the exact sum,
    rounded. *)
Lemma add_value (a j : spec_float) :
  nonneg a = true -> nonneg j = true ->
  nonnegInf (Double.add a j) = true
  /\ ((Double.units a + Double.units j = 0 /\ ext (Double.add a j) = 0)
      \/ (0 < Double.units a + Double.units j
          /\ Double.add a j = round false (Double.units a + Double.units j))).
Proof.
  destruct a as [sa | sa | | [] ma ea], j as [sj | sj | | [] mj ej];
    try discriminate; intros Ha Hj.
  - split; [by destruct sa, sj | left; by destruct sa, sj].
  - destruct (bounded_mantissa _ _ Hj) as (He & _).
    pose proof (Z.pow_pos_nonneg 2 (ej + 1074) ltac:(lia) ltac:(lia)).
    split; [done |]. right. cbn [Double.units cond_Zopp Double.add SFadd].
    split; [lia |]. rewrite Z.add_0_l. by rewrite round_id.
  - destruct (bounded_mantissa _ _ Ha) as (He & _).
    pose proof (Z.pow_pos_nonneg 2 (ea + 1074) ltac:(lia) ltac:(lia)).
    split; [done |]. right. cbn [Double.units cond_Zopp Double.add SFadd].
    split; [lia |]. rewrite Z.add_0_r. by rewrite round_id.
  - destruct (bounded_mantissa _ _ Ha) as (Hea & _).
    destruct (bounded_mantissa _ _ Hj) as (Hej & _).
    pose proof (Z.pow_pos_nonneg 2 (ea + 1074) ltac:(lia) ltac:(lia)).
    pose proof (Z.pow_pos_nonneg 2 (ej + 1074) ltac:(lia) ltac:(lia)).
    assert (Hpos : 0 < Double.units (S754_finite false ma ea)
                       + Double.units (S754_finite false mj ej))
      by (cbn [Double.units cond_Zopp]; lia).
    unfold Double.add. rewrite add_units by lia.
    split; [exact (proj1 (round_mono _ _ Hpos (Z.le_refl _))) | by right].
Qed.

(** Adding the same jitter keeps the order. *)
Lemma add_mono (a a' j : spec_float) :
  nonnegInf a = true -> nonnegInf a' = true -> ext a <= ext a' -> nonneg j = true ->
  nonnegInf (Double.add a j) = true /\ nonnegInf (Double.add a' j) = true
  /\ ext (Double.add a j) <= ext (Double.add a' j).
Proof.
  intros Ha Ha' Hle Hj.
  assert (Hinf : Double.add (S754_infinity false) j = S754_infinity false)
    by (by destruct j as [| | | []]).
  assert (Hone : forall b, nonnegInf b = true -> nonnegInf (Double.add b j) = true).
  { intros b Hb. destruct (Z_lt_ge_dec (ext b) (2 ^ 2100)) as [Hfin | Hnot].
    - destruct (ext_finite b Hb Hfin) as [Hnb _]. apply (add_value b j Hnb Hj).
    - destruct b as [| [] | |]; try discriminate Hb; try (by rewrite Hinf);
        pose proof (nonneg_units _ Hb); cbn [ext] in Hnot; lia. }
  split; [by apply Hone |]. split; [by apply Hone |].
  destruct (Z_lt_ge_dec (ext a') (2 ^ 2100)) as [Hfin' | Hnot'].
  - destruct (ext_finite a' Ha' Hfin') as [Hna' Hea'].
    destruct (ext_finite a Ha ltac:(lia)) as [Hna Hea].
    rewrite Hea, Hea' in Hle.
    pose proof (nonneg_units _ Hna) as Hua. pose proof (nonneg_units _ Hj) as Huj.
    destruct (add_value a j Hna Hj) as (_ & [[Hz Hez] | [Hp Hr]]);
      destruct (add_value a' j Hna' Hj) as (Hnn' & [[Hz' Hez'] | [Hp' Hr']]).
    + lia.
    + rewrite Hez. apply (ext_range _ Hnn').
    + lia.
    + rewrite Hr, Hr'. apply round_mono; lia.
  - assert (Ea' : a' = S754_infinity false).
    { destruct a' as [| [] | |]; try discriminate Ha'; try done;
        pose proof (nonneg_units _ Ha'); cbn [ext] in Hnot'; lia. }
    rewrite Ea', Hinf. apply (ext_range _ (Hone a Ha)).
Qed.

(** A valid double that is not below 0 is zero, positive or [Infinity]. *)
Lemma valid_nonneg (x : spec_float) :
  Double.valid x = true -> Double.leb (Double.ofZ 0) x = true ->
  nonnegInf x = true /\ (Double.finite x = true -> nonneg x = true).
Proof.
  intros Hv Hle. destruct x as [s | [] | | [] m e]; try discriminate Hle; done.
Qed.

(** A double above 0 has a positive number of units. *)
Lemma ltb_zero (x : spec_float) :
  nonneg x = true -> Double.ltb (Double.ofZ 0) x = true -> 0 < Double.units x.
Proof.
  intros Hx Hlt. unfold Double.ltb, SFltb in Hlt.
  rewrite (compare_units (Double.ofZ 0) x eq_refl Hx) in Hlt.
  change (Double.units (Double.ofZ 0)) with 0 in Hlt.
  by destruct (Z.compare_spec 0 (Double.units x)).
Qed.

End Order.

Section ReconnectFacts.

(** The double 0.5. *)
Definition half : spec_float := S754_finite false 4503599627370496 (-53).

(** A manager built without options, after any number of [schedule]. *)
Lemma default_manager (randoms : list spec_float) :
  let r := Reconnect.scheduleAll randoms (Reconnect.create Reconnect.noOptions) in
  Reconnect.baseMs r = Double.ofZ 1000 /\ Reconnect.maxMs r = Double.ofZ 30000
  /\ Reconnect.maxAttempts r = None
  /\ Reconnect.attempt r = Z.of_nat (length randoms).
Proof.
  cut (forall r0,
         Reconnect.maxAttempts r0 = None ->
         let r := Reconnect.scheduleAll randoms r0 in
         Reconnect.baseMs r = Reconnect.baseMs r0
         /\ Reconnect.maxMs r = Reconnect.maxMs r0
         /\ Reconnect.maxAttempts r = None
         /\ Reconnect.attempt r = Reconnect.attempt r0 + Z.of_nat (length randoms)).
  { intros H. destruct (H (Reconnect.create Reconnect.noOptions) eq_refl)
      as (H1 & H2 & H3 & H4). by repeat split. }
  induction randoms as [| x rest IH]; intros r0 Hinf; simpl.
  - repeat split; [done | lia].
  - assert (Hstep : Reconnect.schedule x r0
                    = (true, {| Reconnect.attempt := Reconnect.attempt r0 + 1;
                                Reconnect.baseMs := Reconnect.baseMs r0;
                                Reconnect.maxMs := Reconnect.maxMs r0;
                                Reconnect.maxAttempts := Reconnect.maxAttempts r0;
                                Reconnect.timer := Some (Reconnect.delay r0 x) |})).
    { unfold Reconnect.schedule, Reconnect.ceilingReached. by rewrite Hinf. }
    rewrite Hstep. simpl.
    match goal with
    | |- context [Reconnect.scheduleAll rest ?r1] =>
        destruct (IH r1 Hinf) as (H1 & H2 & H3 & H4)
    end.
    simpl in *. repeat split; [done | done | done | lia].
Qed.

(** The manager keeps its configuration. *)
Lemma schedule_config (random : spec_float) (r : Reconnect.ReconnectManager) :
  Reconnect.baseMs (snd (Reconnect.schedule random r)) = Reconnect.baseMs r
  /\ Reconnect.maxMs (snd (Reconnect.schedule random r)) = Reconnect.maxMs r
  /\ Reconnect.maxAttempts (snd (Reconnect.schedule random r)) = Reconnect.maxAttempts r.
Proof. unfold Reconnect.schedule. by destruct (Reconnect.ceilingReached r). Qed.



(** Multiplying by [Math.pow(2, 0)] changes nothing. *)
Lemma mul_one (x : spec_float) :
  Double.valid x = true -> Double.mul x (Double.pow2 0) = x.
Proof.
  intros Hv. change (Double.pow2 0) with (S754_finite false 4503599627370496 (- 52)).
  destruct x as [s | s | | s m e];
    [cbn [Double.mul SFmul]; by rewrite xorb_false_r ..
    | reflexivity |].
  destruct (bounded_mantissa m e Hv) as (He & _). unfold Double.mul.
  rewrite (mul_scaled s m _ e 1 52) by (done || lia).
  rewrite Z.mul_1_l. by apply round_id.
Qed.

(** A number compares equal to itself. *)
Lemma SFcompare_refl (x : spec_float) : x <> S754_nan -> SFcompare x x = Some Eq.
Proof.
  destruct x as [s | [] | | [] m e]; try done; intros _; cbn [SFcompare];
    by rewrite Z.compare_refl, Pos.compare_cont_refl.
Qed.

(** Swapping the arguments of a comparison swaps its result. *)
Lemma SFcompare_antisym (x y : spec_float) :
  SFcompare y x = option_map CompOpp (SFcompare x y).
Proof.
  destruct x as [sx | [] | | [] mx ex], y as [sy | [] | | [] my ey]; try reflexivity;
    cbn [SFcompare option_map]; try (destruct sx; reflexivity); try (destruct sy; reflexivity);
    rewrite (Z.compare_antisym ex ey);
    destruct (ex ?= ey); cbn [CompOpp]; try reflexivity;
    rewrite ?(Pos.compare_cont_antisym mx my Eq); cbn [CompOpp];
    rewrite <- ?(Pos.compare_cont_antisym my mx Eq); cbn [CompOpp];
    by rewrite ?CompOpp_involutive.
Qed.

(** [Math.min] gives [NaN] exactly for a [NaN] argument, and otherwise a
    number that is not above the second argument. *)
Lemma min_spec (x y : spec_float) :
  (Double.min x y = S754_nan <-> x = S754_nan \/ y = S754_nan)
  /\ (Double.min x y <> S754_nan -> Double.leb (Double.min x y) y = true).
Proof.
  assert (Hcases : x = S754_nan \/ y = S754_nan
                   \/ (x <> S754_nan /\ y <> S754_nan
                       /\ Double.min x y
                          = if SFltb x y then x
                            else if SFltb y x then y
                            else match x with S754_zero true => x | _ => y end)).
  { destruct x as [| | |], y as [| | |]; auto; right; right; done. }
  destruct Hcases as [-> | [-> | (Hx & Hy & Hmin)]].
  - split; [split; [auto | reflexivity] | done].
  - split; [split; [auto | by destruct x] | by destruct x].
  - pose proof (SFcompare_antisym x y) as Hanti.
    pose proof (SFcompare_refl y Hy) as Hrefl.
    assert (Hsome : exists c, SFcompare x y = Some c).
    { destruct x as [| | |], y as [| | |]; try done; cbn [SFcompare]; eauto;
        repeat match goal with |- context [if ?b then _ else _] => destruct b end; eauto. }
    destruct Hsome as [c Hc]. rewrite Hc in Hanti. cbn [option_map] in Hanti.
    rewrite Hmin. unfold Double.leb, SFleb, SFltb in *. rewrite Hc, Hanti.
    destruct c; cbn [CompOpp].
    + split; [split; [| intros [|]; done] | intros _].
      * by destruct x as [[]| | |].
      * destruct x as [[]| | |]; by rewrite ?Hc, ?Hrefl.
    + split; [split; [done | intros [|]; done] | by rewrite Hc].
    + split; [split; [done | intros [|]; done] | by rewrite Hrefl].
Qed.

(** The delay for a base that is finite and not negative and a maximum
    that is not negative: not negative, at most the maximum, and growing
    with the attempt. *)
Lemma delay_mono (r r' : Reconnect.ReconnectManager) (random : spec_float) :
  nonneg (Reconnect.baseMs r) = true -> nonnegInf (Reconnect.maxMs r) = true ->
  Double.unitInterval random = true ->
  Reconnect.baseMs r' = Reconnect.baseMs r -> Reconnect.maxMs r' = Reconnect.maxMs r ->
  0 <= Reconnect.attempt r -> Reconnect.attempt r <= Reconnect.attempt r' ->
  0 < Double.units (Reconnect.baseMs r) \/ Reconnect.attempt r' < 1024 ->
  nonnegInf (Reconnect.delay r random) = true
  /\ nonnegInf (Reconnect.delay r' random) = true
  /\ ext (Reconnect.delay r random) <= ext (Reconnect.maxMs r)
  /\ ext (Reconnect.delay r random) <= ext (Reconnect.delay r' random).
Proof.
  intros Hb Hm Hr Hb' Hm' Hn Hnn' Hedge.
  destruct (jitter_range random Hr) as (Hj & _).
  unfold Reconnect.delay. rewrite Hb', Hm'.
  destruct (mul_pow2_mono _ _ _ Hb Hn Hnn' Hedge) as (Hp & Hp' & Hple).
  destruct (add_mono _ _ _ Hp Hp' Hple Hj) as (Hs & Hs' & Hsle).
  destruct (min_ext _ _ Hs Hm) as (Hd & Hde).
  destruct (min_ext _ _ Hs' Hm) as (Hd' & Hde').
  split; [exact Hd |]. split; [exact Hd' |]. lia.
Qed.

End ReconnectFacts.

Section ReconnectClaims.











(** The first seven delays of a manager built without options, for the
    jitter 0 and the jitter 500: they rise up to the cap, which the
    sixth reaches. And the two ends meet: the largest jitter of an
    attempt can give the delay the smallest jitter gives at the next. *)
Lemma default_delays :
  let at_ n := Reconnect.scheduleAll (replicate n half) (Reconnect.create Reconnect.noOptions) in
  map (fun n => Reconnect.delay (at_ n) (Double.ofZ 0)) (seq 0 7)
  = map Double.ofZ [1000; 2000; 4000; 8000; 16000; 30000; 30000]
  /\ map (fun n => Reconnect.delay (at_ n) half) (seq 0 7)
     = map Double.ofZ [1500; 2500; 4500; 8500; 16500; 30000; 30000]
  /\ Double.unitInterval (S754_finite false 9007199254740991 (-53)) = true
  /\ Reconnect.delay (at_ 0%nat) (S754_finite false 9007199254740991 (-53)) = Double.ofZ 2000.
Proof. repeat split; vm_compute; reflexivity. Qed.

End ReconnectClaims.

(* ================================================================== *)
(** ** Sending on the socket *)

Section ActuatorClaims.

(** C10. With no socket, or a socket that is not open, [send] hands
    nothing to the socket and leaves the agent exactly as it was: the
    message is kept nowhere. So whatever happens afterwards, a reconnect
    included, happens as if the result had never been produced. *)
Theorem send_without_open_socket_drops (a : Actuator.State) (msg : Actuator.Outbound) :
  Actuator.notOpen a ->
  Actuator.send msg a = a
  /\ forall id status result,
       Actuator.sendResult id status result a = a
       /\ forall es,
            Actuator.handleAll (Actuator.Outcome id status result :: es) a
            = Actuator.handleAll es a.
Proof.
  intros Hno.
  assert (Hsend : forall msg', Actuator.send msg' a = a).
  { intros msg'. unfold Actuator.send.
    destruct Hno as [-> | (rs & -> & Hrs)]; [done |]. by destruct rs. }
  split; [apply Hsend |].
  intros id status result. split; [apply Hsend |].
  intros es. unfold Actuator.handleAll. simpl.
  unfold Actuator.sendResult. by rewrite Hsend.
Qed.

Definition connected : Actuator.State :=
  {| Actuator.ws := Some Actuator.OPEN; Actuator.wire := [];
     Actuator.destroyed := false;
     Actuator.reconnect := Reconnect.create Reconnect.noOptions |}.

Definition disconnected : Actuator.State :=
  Actuator.handle (Actuator.SocketCloses half) connected.

Lemma send_without_open_socket_drops_witness :
  Actuator.wire
    (Actuator.handleAll
       [ Actuator.Outcome (str "cmd-1") Actuator.completed (str "{}");
         Actuator.ReconnectFires false half;
         Actuator.Outcome (str "cmd-2") Actuator.failed (str "{}");
         Actuator.SocketOpens;
         Actuator.Outcome (str "cmd-3") Actuator.completed (str "{}") ]
       disconnected)
  = [ Actuator.command_result (str "cmd-3") Actuator.completed (str "{}") ].
Proof.
  destruct (send_without_open_socket_drops disconnected (Actuator.pong 0)
              (or_introl eq_refl)) as (_ & H).
  destruct (H (str "cmd-1") Actuator.completed (str "{}")) as (_ & Hdrop).
  rewrite Hdrop. reflexivity.
Defined.

End ActuatorClaims.

(* ================================================================== *)
(** * Further properties *)

(** ** The registry as a store *)

Section RegistryStore.

Implicit Types (m : gmap (list Z) Registry.ProcessSession).
Implicit Types (s : Registry.ProcessSession) (i j data : list Z).

(** What no registry operation changes in a session that exists, and the
    flags it can only raise. *)
Definition sameSession s s' : Prop :=
  Registry.id s' = Registry.id s /\ Registry.command s' = Registry.command s
  /\ Registry.cwd s' = Registry.cwd s /\ Registry.startedAt s' = Registry.startedAt s
  /\ Registry.pid s' = Registry.pid s
  /\ (Registry.exited s = true -> Registry.exited s' = true)
  /\ (Registry.backgrounded s = true -> Registry.backgrounded s' = true).

Lemma sameSession_refl s : sameSession s s.
Proof. unfold sameSession. by repeat split. Qed.

Lemma sameSession_trans s1 s2 s3 : sameSession s1 s2 -> sameSession s2 s3 -> sameSession s1 s3.
Proof.
  intros (A1 & A2 & A3 & A4 & A5 & A6 & A7) (B1 & B2 & B3 & B4 & B5 & B6 & B7).
  unfold sameSession. repeat split; try congruence.
  - intros H. by apply B6, A6.
  - intros H. by apply B7, A7.
Qed.

Lemma appendToSession_same data s :
  sameSession s (Registry.appendToSession data s).
Proof.
  unfold sameSession, Registry.appendToSession.
  destruct (_ >? _); simpl; by repeat split.
Qed.

Lemma applyOp_same o m m' i s :
  m !! i = Some s ->
  Registry.applyOp o m = Some m' ->
  exists s', m' !! i = Some s' /\ sameSession s s'
             /\ ((Registry.exited s = true -> Registry.stdin s = None) ->
                 Registry.exited s' = true -> Registry.stdin s' = None).
Proof.
  intros Hi Hop.
  destruct o as [draws now c d p | j data | j code signal | j]; simpl in Hop.
  - destruct (Registry.addSession draws now c d p m) as [[t m1] |] eqn:Hadd; [| done].
    injection Hop as <-. apply addSession_inv in Hadd as (Hfresh & -> & _).
    exists s. rewrite lookup_insert_ne by congruence.
    split; [done |]. split; [apply sameSession_refl | done].
  - injection Hop as <-. unfold Registry.appendOutput.
    destruct (decide (j = i)) as [-> | Hne].
    + rewrite Hi. simpl. rewrite lookup_insert_eq. eexists. split; [done |].
      split; [apply appendToSession_same |].
      destruct (appendToSession_fields data s) as (-> & -> & _). done.
    + exists s. split; [| split; [apply sameSession_refl | done]].
      destruct (m !! j); simpl; [by rewrite lookup_insert_ne |]; done.
  - injection Hop as <-. unfold Registry.markExited.
    destruct (decide (j = i)) as [-> | Hne].
    + rewrite Hi. simpl. rewrite lookup_insert_eq. eexists. split; [done |].
      split; [| done]. unfold sameSession. simpl. by repeat split.
    + exists s. split; [| split; [apply sameSession_refl | done]].
      destruct (m !! j); simpl; [by rewrite lookup_insert_ne |]; done.
  - injection Hop as <-. unfold Registry.markBackgrounded.
    destruct (decide (j = i)) as [-> | Hne].
    + rewrite Hi. simpl. rewrite lookup_insert_eq. eexists. split; [done |].
      split; [| done]. unfold sameSession. simpl. by repeat split.
    + exists s. split; [| split; [apply sameSession_refl | done]].
      destruct (m !! j); simpl; [by rewrite lookup_insert_ne |]; done.
Qed.

Lemma runOps_same ops m m' i s :
  m !! i = Some s ->
  Registry.runOps ops m = Some m' ->
  exists s', m' !! i = Some s' /\ sameSession s s'
             /\ ((Registry.exited s = true -> Registry.stdin s = None) ->
                 Registry.exited s' = true -> Registry.stdin s' = None).
Proof.
  revert m s. induction ops as [| o ops IH]; intros m s Hi Hrun; simpl in Hrun.
  - injection Hrun as <-. exists s. split; [done |]. split; [apply sameSession_refl | done].
  - destruct (Registry.applyOp o m) as [m1 |] eqn:Hop; [| done].
    destruct (applyOp_same _ _ _ _ _ Hi Hop) as (s1 & Hi1 & Hsame1 & Hin1).
    destruct (IH m1 s1 Hi1 Hrun) as (s' & Hi' & Hsame' & Hin').
    exists s'. split; [done |]. split; [by eapply sameSession_trans | auto].
Qed.

(** X1. A session, once in the registry, stays there through every run
    of registry operations, under the same key and with the same id,
    command, working directory, start time and pid. *)
Theorem sessions_are_never_removed ops m m' i s :
  m !! i = Some s ->
  Registry.runOps ops m = Some m' ->
  exists s', m' !! i = Some s'
    /\ Registry.id s' = Registry.id s /\ Registry.command s' = Registry.command s
    /\ Registry.cwd s' = Registry.cwd s /\ Registry.startedAt s' = Registry.startedAt s
    /\ Registry.pid s' = Registry.pid s.
Proof.
  intros Hi Hrun.
  destruct (runOps_same ops m m' i s Hi Hrun)
    as (s' & Hi' & (H1 & H2 & H3 & H4 & H5 & _) & _).
  exists s'. by repeat split.
Qed.

Lemma sessions_are_never_removed_witness :
  exists s', default ∅ (Registry.runOps (tl demoOps) demoRegistry) !! demoId = Some s'
    /\ Registry.command s' = str "sleep 60" /\ Registry.pid s' = None.
Proof.
  destruct (sessions_are_never_removed (tl demoOps) demoRegistry
              (default ∅ (Registry.runOps (tl demoOps) demoRegistry))
              demoId demoSession eq_refl eq_refl)
    as (s' & Hs' & _ & Hc & _ & _ & Hp).
  exists s'. by repeat split.
Defined.

(** X2. Exit and backgrounding are final: no registry operation takes
    either flag back, and an exited session keeps its input handle
    cleared. *)
Theorem exit_and_background_are_final ops m m' i s :
  m !! i = Some s -> (Registry.exited s = true -> Registry.stdin s = None) ->
  Registry.runOps ops m = Some m' ->
  exists s', m' !! i = Some s'
    /\ (Registry.exited s = true ->
        Registry.exited s' = true /\ Registry.stdin s' = None)
    /\ (Registry.backgrounded s = true -> Registry.backgrounded s' = true).
Proof.
  intros Hi Hin Hrun.
  destruct (runOps_same ops m m' i s Hi Hrun)
    as (s' & Hi' & (_ & _ & _ & _ & _ & He & Hb) & Hin').
  exists s'. split; [done |]. split; [| done].
  intros Hex. split; [by apply He | by apply Hin', He].
Qed.

Lemma exit_and_background_are_final_witness :
  exists s',
    default ∅ (Registry.runOps [Registry.OpAppendOutput demoId (str "late");
                                Registry.OpMarkBackgrounded demoId] demoExited)
      !! demoId = Some s'
    /\ Registry.exited s' = true /\ Registry.stdin s' = None.
Proof.
  destruct (exit_and_background_are_final
              [Registry.OpAppendOutput demoId (str "late");
               Registry.OpMarkBackgrounded demoId]
              demoExited _ demoId
              (Registry.setExited (value 0) undefined demoSession)
              eq_refl (fun _ => eq_refl) eq_refl)
    as (s' & Hs' & He & _).
  exists s'. destruct (He eq_refl) as (H1 & H2). by repeat split.
Defined.

Lemma applyOp_keys o m m' :
  (forall i s, m !! i = Some s -> Registry.id s = i) ->
  Registry.applyOp o m = Some m' ->
  forall i s, m' !! i = Some s -> Registry.id s = i.
Proof.
  intros Hm Hop i s Hi.
  destruct o as [draws now c d p | j data | j code signal | j]; simpl in Hop.
  - destruct (Registry.addSession draws now c d p m) as [[t m1] |] eqn:Hadd; [| done].
    injection Hop as <-. apply addSession_inv in Hadd as (_ & -> & _).
    destruct (decide (Registry.id t = i)) as [<- | Hne].
    + rewrite lookup_insert_eq in Hi. by injection Hi as <-.
    + rewrite lookup_insert_ne in Hi by done. by apply Hm.
  - injection Hop as <-. unfold Registry.appendOutput in Hi.
    destruct (m !! j) as [t |] eqn:Hj; simpl in Hi; [| by apply Hm].
    destruct (decide (j = i)) as [-> | Hne].
    + rewrite lookup_insert_eq in Hi. injection Hi as <-.
      unfold Registry.appendToSession. destruct (_ >? _); simpl; by apply Hm.
    + rewrite lookup_insert_ne in Hi by done. by apply Hm.
  - injection Hop as <-. unfold Registry.markExited in Hi.
    destruct (m !! j) as [t |] eqn:Hj; simpl in Hi; [| by apply Hm].
    destruct (decide (j = i)) as [-> | Hne].
    + rewrite lookup_insert_eq in Hi. injection Hi as <-. simpl. by apply Hm.
    + rewrite lookup_insert_ne in Hi by done. by apply Hm.
  - injection Hop as <-. unfold Registry.markBackgrounded in Hi.
    destruct (m !! j) as [t |] eqn:Hj; simpl in Hi; [| by apply Hm].
    destruct (decide (j = i)) as [-> | Hne].
    + rewrite lookup_insert_eq in Hi. injection Hi as <-. simpl. by apply Hm.
    + rewrite lookup_insert_ne in Hi by done. by apply Hm.
Qed.

(** X3. In every registry reached from the empty one, each session sits
    under its own id, has the output capacity 200000 and holds at most
    that many characters. *)
Theorem registry_keys_are_ids ops m i s :
  Registry.runOps ops ∅ = Some m -> m !! i = Some s ->
  Registry.id s = i
  /\ Registry.maxOutputChars s = 200000
  /\ JS.len (Registry.aggregated s) <= 200000.
Proof.
  intros Hrun Hi. split.
  - revert Hrun i s Hi.
    assert (Hgen : forall m0, (forall i s, m0 !! i = Some s -> Registry.id s = i) ->
                   Registry.runOps ops m0 = Some m ->
                   forall i s, m !! i = Some s -> Registry.id s = i).
    { induction ops as [| o ops IH]; intros m0 Hm0 Hrun; simpl in Hrun.
      - by injection Hrun as <-.
      - destruct (Registry.applyOp o m0) as [m1 |] eqn:Hop; [| done].
        apply (IH m1); [| done]. by eapply applyOp_keys. }
    intros Hrun. apply (Hgen ∅); [| done].
    intros i s Hi. by rewrite lookup_empty in Hi.
  - destruct (runOps_ok ops ∅ m empty_ok Hrun i s Hi) as (_ & Hmax & Hlen & _).
    done.
Qed.

Lemma registry_keys_are_ids_witness :
  exists m s, Registry.runOps demoOps ∅ = Some m /\ m !! demoId = Some s
              /\ Registry.id s = demoId.
Proof.
  eexists _, _. split; [reflexivity |]. split; [reflexivity |].
  exact (proj1 (registry_keys_are_ids demoOps _ demoId _ eq_refl eq_refl)).
Defined.

(** X4. [addSession] takes the first drawn slug that is not in use: the
    draws before it are all taken, the new session is stored under it,
    and every other session is left as it was. When every draw is taken
    the generator has to draw again. *)
Theorem addSession_takes_first_free_slug (taken : list jsstring) (d : jsstring)
    (later : list jsstring) (now : Z) (c w : jsstring) (p : option Z) m :
  Forall (fun t => is_Some (m !! t)) taken -> m !! d = None ->
  (exists s,
     Registry.addSession (taken ++ d :: later) now c w p m = Some (s, <[d := s]> m)
     /\ Registry.id s = d /\ Registry.exited s = false
     /\ Registry.backgrounded s = false /\ Registry.aggregated s = []
     /\ forall j, j <> d -> (<[d := s]> m) !! j = m !! j)
  /\ Registry.addSession taken now c w p m = None.
Proof.
  intros Htaken Hfree.
  assert (Hslug : Registry.createSessionSlug (taken ++ d :: later) m = Some d
                  /\ Registry.createSessionSlug taken m = None).
  { induction Htaken as [| t taken [v Hv] _ IH]; simpl.
    - by rewrite Hfree.
    - by rewrite Hv. }
  destruct Hslug as (Hsome & Hnone). split.
  - unfold Registry.addSession. rewrite Hsome. eexists. split; [reflexivity |].
    simpl. repeat split. intros j Hj. by rewrite lookup_insert_ne.
  - unfold Registry.addSession. by rewrite Hnone.
Qed.

Lemma addSession_takes_first_free_slug_witness :
  exists s,
    Registry.addSession [demoId; str "zz00zz00"] 5 (str "ls") (str "/") None demoRegistry
    = Some (s, <[str "zz00zz00" := s]> demoRegistry)
    /\ Registry.id s = str "zz00zz00".
Proof.
  destruct (addSession_takes_first_free_slug [demoId] (str "zz00zz00") [] 5
              (str "ls") (str "/") None demoRegistry) as ((s & Hs & Hid & _) & _).
  - constructor; [| constructor]. exists demoSession. reflexivity.
  - reflexivity.
  - exists s. split; [exact Hs | exact Hid].
Defined.

(** X5. Output for different sessions does not interfere: appends to two
    different sessions commute, an append leaves every other session
    untouched, and an append to an unknown id changes nothing and
    answers [false]. *)
Theorem appends_to_different_sessions_commute i j (a b : jsstring) m :
  i <> j ->
  snd (Registry.appendOutput i a (snd (Registry.appendOutput j b m)))
  = snd (Registry.appendOutput j b (snd (Registry.appendOutput i a m)))
  /\ snd (Registry.appendOutput i a m) !! j = m !! j
  /\ (m !! i = None -> Registry.appendOutput i a m = (false, m)).
Proof.
  intros Hne. unfold Registry.appendOutput. repeat split.
  - destruct (m !! i) as [s |] eqn:Hi, (m !! j) as [t |] eqn:Hj; simpl.
    + rewrite lookup_insert_ne, Hi by done. rewrite lookup_insert_ne, Hj by done.
      simpl. by apply insert_insert_ne.
    + rewrite Hi. rewrite lookup_insert_ne, Hj by done. done.
    + rewrite lookup_insert_ne, Hi by done. simpl. by rewrite Hj.
    + by rewrite Hi, Hj.
  - destruct (m !! i); simpl; [by rewrite lookup_insert_ne | done].
  - by intros ->.
Qed.

Lemma appends_to_different_sessions_commute_witness :
  snd (Registry.appendOutput demoId (str "a")
         (snd (Registry.appendOutput (str "zz00zz00") (str "b") demoRegistry)))
  = snd (Registry.appendOutput (str "zz00zz00") (str "b")
           (snd (Registry.appendOutput demoId (str "a") demoRegistry))).
Proof.
  apply (appends_to_different_sessions_commute demoId (str "zz00zz00")).
  discriminate.
Defined.

End RegistryStore.

(* ================================================================== *)
(** ** Termination: kill, escalation and the hard timeout *)

Section TerminationFacts.

Implicit Types (m : gmap (list Z) Registry.ProcessSession).
Implicit Types (s : Registry.ProcessSession) (i : list Z).

(** X6. The kill action succeeds exactly when the session exists, has
    not exited, has a pid other than 0 and the signal could be sent; it
    then has sent [SIGTERM] and set the 5 second escalation timer. In
    every other case nothing is sent, no timer is set, and the result
    carries an error message. *)
Theorem kill_succeeds_exactly_when_signalled (killThrows : bool)
    (sessionId : option jsstring) m :
  (ProcessHandler.success (fst (ProcessHandler.killSession killThrows sessionId m)) = true
   <-> exists c r s p,
         sessionId = Some (c :: r) /\ m !! (c :: r) = Some s
         /\ Registry.exited s = false /\ Registry.pid s = Some p /\ p <> 0
         /\ killThrows = false)
  /\ (forall c r s p,
        sessionId = Some (c :: r) -> m !! (c :: r) = Some s ->
        Registry.exited s = false -> Registry.pid s = Some p -> p <> 0 ->
        killThrows = false ->
        ProcessHandler.killSession killThrows sessionId m
        = (ProcessHandler.successWith s,
           [Registry.SendSignal p Registry.SIGTERM; Registry.ForceKillAfter 5000 (c :: r)]))
  /\ (ProcessHandler.success (fst (ProcessHandler.killSession killThrows sessionId m)) = false ->
      snd (ProcessHandler.killSession killThrows sessionId m) = []
      /\ is_Some (ProcessHandler.error (fst (ProcessHandler.killSession killThrows sessionId m)))).
Proof.
  assert (Hgood : forall c r s p,
        sessionId = Some (c :: r) -> m !! (c :: r) = Some s ->
        Registry.exited s = false -> Registry.pid s = Some p -> p <> 0 ->
        killThrows = false ->
        ProcessHandler.killSession killThrows sessionId m
        = (ProcessHandler.successWith s,
           [Registry.SendSignal p Registry.SIGTERM; Registry.ForceKillAfter 5000 (c :: r)])).
  { intros c r s p -> Hs Hex Hp Hp0 ->.
    unfold ProcessHandler.killSession, Registry.getSession, Registry.killSession.
    rewrite Hs, Hex, Hp. simpl.
    destruct (Z.eqb_spec p 0); [done |]. reflexivity. }
  split; [| split; [exact Hgood |]].
  - split.
    + unfold ProcessHandler.killSession, Registry.getSession, Registry.killSession.
      destruct sessionId as [[| c r] |]; simpl; try done.
      destruct (m !! (c :: r)) as [s |] eqn:Hs; simpl; [| done].
      destruct (Registry.exited s) eqn:Hex; simpl; [done |].
      destruct (Registry.pid s) as [p |] eqn:Hp; simpl; [| done].
      destruct (Z.eqb_spec p 0); simpl; [done |].
      destruct killThrows; simpl; [done |].
      intros _. by exists c, r, s, p.
    + intros (c & r & s & p & H1 & H2 & H3 & H4 & H5 & H6).
      by rewrite (Hgood c r s p H1 H2 H3 H4 H5 H6).
  - unfold ProcessHandler.killSession, Registry.getSession, Registry.killSession.
    destruct sessionId as [[| c r] |]; simpl; try (by eauto).
    destruct (m !! (c :: r)) as [s |] eqn:Hs; simpl; [| by eauto].
    destruct (Registry.exited s) eqn:Hex; simpl; [by eauto |].
    destruct (Registry.pid s) as [p |] eqn:Hp; simpl; [| by eauto].
    destruct (Z.eqb_spec p 0); simpl; [by eauto |].
    destruct killThrows; simpl; [by eauto | done].
Qed.

Definition liveSession : Registry.ProcessSession := Shell.setSpawned (Some 4242) demoSession.
Definition liveRegistry : gmap (list Z) Registry.ProcessSession :=
  <[demoId := liveSession]> ∅.

Lemma kill_succeeds_exactly_when_signalled_witness :
  ProcessHandler.killSession false (Some demoId) liveRegistry
  = (ProcessHandler.successWith liveSession,
     [Registry.SendSignal 4242 Registry.SIGTERM; Registry.ForceKillAfter 5000 demoId]).
Proof.
  apply (proj1 (proj2 (kill_succeeds_exactly_when_signalled false (Some demoId) liveRegistry))
           (codeUnit "k") (str "3x9q2ab") liveSession 4242); try reflexivity.
  discriminate.
Defined.

(** X7. When the escalation timer of a kill fires, whatever registry
    operations came in between, [SIGKILL] goes to the pid that got
    [SIGTERM] if the session has still not exited, and nothing is sent
    once it has. *)
Theorem escalation_depends_on_exit ops m m' i s (p : Z) :
  m !! i = Some s -> Registry.pid s = Some p -> p <> 0 ->
  Registry.runOps ops m = Some m' ->
  exists s', m' !! i = Some s'
    /\ (Registry.exited s' = false ->
        Escalation.forceKill false i m' = [Registry.SendSignal p Registry.SIGKILL])
    /\ (Registry.exited s' = true ->
        forall killThrows, Escalation.forceKill killThrows i m' = []).
Proof.
  intros Hi Hp Hp0 Hrun.
  destruct (runOps_same ops m m' i s Hi Hrun) as (s' & Hi' & (_ & _ & _ & _ & Hpid & _) & _).
  exists s'. split; [done |].
  unfold Escalation.forceKill. rewrite Hi', Hpid, Hp.
  destruct (Z.eqb_spec p 0); [done |]. split.
  - by intros ->.
  - by intros -> [].
Qed.

Lemma escalation_depends_on_exit_witness :
  Escalation.forceKill false demoId
    (default ∅ (Registry.runOps [Registry.OpAppendOutput demoId (str "still here")] liveRegistry))
  = [Registry.SendSignal 4242 Registry.SIGKILL]
  /\ Escalation.forceKill false demoId
       (default ∅ (Registry.runOps [Registry.OpMarkExited demoId (value 0) undefined] liveRegistry))
     = [].
Proof.
  split.
  - destruct (escalation_depends_on_exit [Registry.OpAppendOutput demoId (str "still here")]
                liveRegistry _ demoId liveSession 4242 eq_refl eq_refl ltac:(discriminate) eq_refl)
      as (s' & Hs' & Hlive & _).
    apply Hlive. vm_compute in Hs'. by injection Hs' as <-.
  - destruct (escalation_depends_on_exit [Registry.OpMarkExited demoId (value 0) undefined]
                liveRegistry _ demoId liveSession 4242 eq_refl eq_refl ltac:(discriminate) eq_refl)
      as (s' & Hs' & _ & Hgone).
    apply Hgone. vm_compute in Hs'. by injection Hs' as <-.
Defined.

(** The exit status and pid of a session, as the handlers read them. *)
Definition statusOf m i : option (bool * nullable Z * nullable jsstring * option Z) :=
  (fun s => (Registry.exited s, Registry.exitCode s, Registry.exitSignal s, Registry.pid s))
    <$> m !! i.

Lemma statusOf_appendOutput j (d : jsstring) m i :
  statusOf (snd (Registry.appendOutput j d m)) i = statusOf m i.
Proof.
  unfold statusOf, Registry.appendOutput.
  destruct (m !! j) as [t |] eqn:Hj; simpl; [| done].
  destruct (decide (j = i)) as [-> | Hne].
  - rewrite lookup_insert_eq, Hj. simpl.
    unfold Registry.appendToSession. by destruct (_ >? _).
  - by rewrite lookup_insert_ne.
Qed.

(** Once the timeout has set [killed], no handler of the invocation
    touches the exit status again. *)
Lemma step_after_kill (e : Shell.Event) (inv : Shell.Invocation) (w : Shell.World) :
  Shell.killed inv = true ->
  Shell.killed (fst (Shell.step e inv w)) = true
  /\ Shell.session (fst (Shell.step e inv w)) = Shell.session inv
  /\ statusOf (Shell.registry (snd (Shell.step e inv w))) (Shell.session inv)
     = statusOf (Shell.registry w) (Shell.session inv)
  /\ Shell.terminals (Shell.calls (snd (Shell.step e inv w)))
     = Shell.terminals (Shell.calls w).
Proof.
  intros Hk. destruct inv as [sid t0 secs killed timer yield pty]. simpl in Hk. subst killed.
  destruct e; simpl;
    unfold Shell.onTimeout, Shell.onYieldTimer, Shell.onData, Shell.onExit,
      Shell.onProcError; simpl;
    destruct timer, yield, pty; simpl;
    rewrite ?statusOf_appendOutput, ?terminals_app; done.
Qed.

Lemma run_after_kill (es : list Shell.Event) (inv : Shell.Invocation) (w : Shell.World) :
  Shell.killed inv = true ->
  statusOf (Shell.registry (snd (Shell.run es inv w))) (Shell.session inv)
  = statusOf (Shell.registry w) (Shell.session inv)
  /\ Shell.terminals (Shell.calls (snd (Shell.run es inv w)))
     = Shell.terminals (Shell.calls w).
Proof.
  revert inv w. induction es as [| e es IH]; intros inv w Hk; simpl; [done |].
  destruct (step_after_kill e inv w Hk) as (Hk1 & Hs1 & Hst1 & Ht1).
  destruct (Shell.step e inv w) as [inv1 w1]. simpl in *.
  destruct (IH inv1 w1 Hk1) as (Hst & Ht). rewrite Hs1 in Hst.
  split; congruence.
Qed.

(** X8. After the hard timeout has fired, the session is exited with code
    1 and signal SIGTERM for good: no later event of the invocation (the
    close of the killed process included) changes that status or reports
    another terminal outcome. As the session counts as exited from that
    moment, the escalation timer the timeout has just set finds it exited
    and never sends [SIGKILL]. *)
Theorem timeout_status_is_final (killThrows : bool) (inv : Shell.Invocation)
    (w : Shell.World) (s : Registry.ProcessSession) (es : list Shell.Event) :
  Shell.timer inv = true -> Shell.killed inv = false ->
  Shell.registry w !! Shell.session inv = Some s ->
  let fired := Shell.step (Shell.TimeoutFires killThrows) inv w in
  let final := Shell.run es (fst fired) (snd fired) in
  (exists s', Shell.registry (snd final) !! Shell.session inv = Some s'
     /\ Registry.exited s' = true /\ Registry.exitCode s' = value 1
     /\ Registry.exitSignal s' = value (str "SIGTERM"))
  /\ Shell.terminals (Shell.calls (snd final)) = S (Shell.terminals (Shell.calls w))
  /\ forall killThrows', Escalation.forceKill killThrows' (Shell.session inv)
                           (Shell.registry (snd final)) = [].
Proof.
  intros Htimer Hkilled Hs fired final.
  assert (Hfired : Shell.killed (fst fired) = true
                   /\ Shell.session (fst fired) = Shell.session inv
                   /\ statusOf (Shell.registry (snd fired)) (Shell.session inv)
                      = Some (true, value 1, value (str "SIGTERM"), Registry.pid s)
                   /\ Shell.terminals (Shell.calls (snd fired))
                      = S (Shell.terminals (Shell.calls w))).
  { unfold fired. destruct inv as [sid t0 secs killed timer yield pty]. simpl in *.
    subst killed timer. unfold Shell.onTimeout. simpl.
    unfold statusOf, Registry.markExited. rewrite Hs. simpl.
    rewrite lookup_insert_eq, terminals_app. simpl. repeat split. lia. }
  destruct Hfired as (Hk & Hsid & Hst & Hterm).
  destruct (run_after_kill es (fst fired) (snd fired) Hk) as (Hst' & Hterm').
  rewrite Hsid, Hst in Hst'. fold final in Hst', Hterm'.
  unfold statusOf in Hst'.
  destruct (Shell.registry (snd final) !! Shell.session inv) as [s' |] eqn:Hs'; [| done].
  simpl in Hst'. injection Hst' as He Hc Hg Hp.
  split; [by exists s' |]. split; [congruence |].
  intros kt'. unfold Escalation.forceKill. rewrite Hs', He.
  destruct (Registry.pid s') as [p |]; [| done].
  by destruct (negb (p =? 0)).
Qed.

Definition liveInvocation : Shell.Invocation :=
  {| Shell.session := demoId; Shell.startTime := 0; Shell.timeoutSeconds := 1;
     Shell.killed := false; Shell.timer := true; Shell.yieldTimer := false;
     Shell.viaPty := false |}.

Definition liveWorld : Shell.World :=
  {| Shell.registry := liveRegistry; Shell.calls := []; Shell.effects := [] |}.

Lemma timeout_status_is_final_witness :
  Shell.calls (snd (Shell.run [Shell.StdoutData (str "bye");
                               Shell.ProcClose None (Some (str "SIGTERM")) 1200]
                      (fst (Shell.step (Shell.TimeoutFires false) liveInvocation liveWorld))
                      (snd (Shell.step (Shell.TimeoutFires false) liveInvocation liveWorld))))
  = [Shell.onError (str "Command timed out after 1s") demoId; Shell.onStdout (str "bye")]
  /\ Escalation.forceKill false demoId
       (Shell.registry
          (snd (Shell.run [Shell.StdoutData (str "bye");
                           Shell.ProcClose None (Some (str "SIGTERM")) 1200]
                  (fst (Shell.step (Shell.TimeoutFires false) liveInvocation liveWorld))
                  (snd (Shell.step (Shell.TimeoutFires false) liveInvocation liveWorld)))))
     = [].
Proof.
  split; [vm_compute; reflexivity |].
  exact (proj2 (proj2 (timeout_status_is_final false liveInvocation liveWorld liveSession
                         [Shell.StdoutData (str "bye");
                          Shell.ProcClose None (Some (str "SIGTERM")) 1200]
                         eq_refl eq_refl eq_refl)) false).
Defined.

End TerminationFacts.

(* ================================================================== *)
(** ** The process actions *)

Section HandlerFacts.

Implicit Types (m : gmap (list Z) Registry.ProcessSession).
Implicit Types (s : Registry.ProcessSession).

Lemma splitLines_nonempty (t : jsstring) : JSArray.splitLines t <> [].
Proof.
  destruct t as [| c r]; simpl; [done |].
  destruct (Z.eqb c JSArray.newline); [done |].
  by destruct (JSArray.splitLines r).
Qed.

(** Splitting into lines and joining them again gives the text back. *)
Lemma join_split (t : jsstring) : JSArray.joinLines (JSArray.splitLines t) = t.
Proof.
  induction t as [| c r IH]; simpl; [done |].
  pose proof (splitLines_nonempty r) as Hne.
  destruct (Z.eqb_spec c JSArray.newline) as [-> | Hc].
  - destruct (JSArray.splitLines r) as [| l ls]; [done |].
    simpl in *. by rewrite IH.
  - destruct (JSArray.splitLines r) as [| l ls]; [done |].
    simpl in *. destruct ls; simpl in *; by rewrite <- IH.
Qed.

Lemma slice_window {A : Type} (a : list A) (start count : Z) :
  0 <= start -> 0 <= count ->
  JSArray.slice a start (start + count)
  = take (Z.to_nat count) (drop (Z.to_nat start) a).
Proof.
  intros Hs Hc. unfold JSArray.slice. cbv zeta.
  destruct (Z.ltb_spec start 0); [lia |].
  destruct (Z.ltb_spec (start + count) 0); [lia |].
  destruct (Z_le_gt_dec (Z.of_nat (length a)) start) as [Hout | Hin].
  - rewrite !drop_ge by lia. by rewrite !take_nil.
  - replace (Z.to_nat (Z.min start (Z.of_nat (length a)))) with (Z.to_nat start) by lia.
    destruct (Z_le_gt_dec (start + count) (Z.of_nat (length a))) as [Hfit | Hover].
    + f_equal. lia.
    + rewrite !take_ge; [done | |]; rewrite length_drop; lia.
Qed.

Lemma slice_all {A : Type} (a : list A) :
  JSArray.slice a 0 (Z.of_nat (length a)) = a.
Proof.
  replace (Z.of_nat (length a)) with (0 + Z.of_nat (length a)) by lia.
  rewrite slice_window by lia. simpl. apply take_ge. lia.
Qed.

Lemma slice_from_end {A : Type} (a : list A) (k : Z) :
  0 < k -> JSArray.slice a 0 (- k) = take (length a - Z.to_nat k) a.
Proof.
  intros Hk. unfold JSArray.slice. cbv zeta.
  destruct (Z.ltb_spec 0 0); [lia |].
  destruct (Z.ltb_spec (- k) 0); [| lia].
  replace (Z.to_nat (Z.min 0 (Z.of_nat (length a)))) with 0%nat by lia.
  rewrite drop_0. f_equal. lia.
Qed.

(** X9. The log is the whole aggregated output when neither offset nor
    limit is given, and also for an offset of 1 or less without limit.
    With an offset [o >= 1] and a limit [l >= 0] it is the lines
    [o .. o+l-1] (1-based), joined with newlines. A negative limit is
    not refused: without offset, limit [-k] gives all lines but the
    last [k]. *)
Theorem log_window (output : jsstring) :
  ProcessActions.logWindow output None None = output
  /\ (forall o, o <= 1 -> ProcessActions.logWindow output (Some o) None = output)
  /\ (forall o l, 1 <= o -> 0 <= l ->
        ProcessActions.logWindow output (Some o) (Some l)
        = JSArray.joinLines (take (Z.to_nat l)
                               (drop (Z.to_nat (o - 1)) (JSArray.splitLines output))))
  /\ (forall l, 0 <= l ->
        ProcessActions.logWindow output None (Some l)
        = JSArray.joinLines (take (Z.to_nat l) (JSArray.splitLines output)))
  /\ (forall k, 0 < k ->
        ProcessActions.logWindow output None (Some (- k))
        = JSArray.joinLines
            (take (length (JSArray.splitLines output) - Z.to_nat k)
               (JSArray.splitLines output))).
Proof.
  split; [done |]. split; [| split; [| split]].
  - intros o Ho. unfold ProcessActions.logWindow. simpl.
    replace (Z.max 0 (o - 1)) with 0 by lia.
    by rewrite slice_all, join_split.
  - intros o l Ho Hl. unfold ProcessActions.logWindow. simpl.
    replace (Z.max 0 (o - 1)) with (o - 1) by lia.
    by rewrite slice_window by lia.
  - intros l Hl. unfold ProcessActions.logWindow. simpl.
    change (Z.max 0 (1 - 1)) with 0.
    by rewrite slice_window by lia.
  - intros k Hk. unfold ProcessActions.logWindow. simpl.
    change (Z.max 0 (1 - 1)) with 0.
    replace (0 + - k) with (- k) by lia.
    by rewrite slice_from_end.
Qed.

Lemma log_window_witness :
  ProcessActions.logWindow (str "one" ++ JSArray.newline :: str "two"
                            ++ JSArray.newline :: str "three") (Some 2) (Some 1)
  = str "two".
Proof.
  rewrite (proj1 (proj2 (proj2 (log_window _))) 2 1) by lia.
  vm_compute. reflexivity.
Defined.

(** X10. What poll shows is the end of what log shows: in every registry
    reached from the empty one, both actions succeed on a session that
    exists, and the tail of the poll is the trailing 4000 characters of
    the unwindowed log output. *)
Theorem poll_tail_is_end_of_log ops m (c : Z) (r : jsstring) s :
  Registry.runOps ops ∅ = Some m -> m !! (c :: r) = Some s ->
  exists out t,
    ProcessHandler.output (ProcessActions.getSessionLog (Some (c :: r)) None None m) = Some out
    /\ ProcessHandler.tail (ProcessActions.pollSession (Some (c :: r)) m) = Some t
    /\ ProcessHandler.success (ProcessActions.pollSession (Some (c :: r)) m) = true
    /\ t = trailing 4000 out /\ t `suffix_of` out.
Proof.
  intros Hrun Hs.
  destruct (runOps_ok ops ∅ m empty_ok Hrun _ s Hs) as (Ht & _).
  exists (Registry.aggregated s), (Registry.tail s).
  unfold ProcessActions.getSessionLog, ProcessActions.pollSession, Registry.getSession.
  rewrite Hs. simpl. repeat split; try done.
  rewrite Ht. apply trailing_suffix.
Qed.

Definition demoFinal : gmap (list Z) Registry.ProcessSession :=
  default ∅ (Registry.runOps demoOps ∅).

Lemma poll_tail_is_end_of_log_witness :
  ProcessHandler.tail (ProcessActions.pollSession (Some demoId) demoFinal)
  = Some (str "line one and two").
Proof.
  destruct (poll_tail_is_end_of_log demoOps demoFinal (codeUnit "k") (str "3x9q2ab")
              (default demoSession (demoFinal !! demoId))
              ltac:(vm_compute; reflexivity) ltac:(vm_compute; reflexivity))
    as (out & t & Hout & Ht & _ & Heq & _).
  transitivity (Some t); [exact Ht |]. f_equal. rewrite Heq.
  vm_compute in Hout. injection Hout as <-. reflexivity.
Defined.

(** X11. Once a session is marked exited it takes no more input and no
    more kills, whatever registry operations follow: write, send-keys
    and kill each fail with their own message, nothing is written, no
    signal is sent, and the registry is left as it is. *)
Theorem exited_session_rejects_actions ops m0 m (c : Z) (r : jsstring)
    (s0 : Registry.ProcessSession) (code : nullable Z) (signal : nullable jsstring) :
  m0 !! (c :: r) = Some s0 ->
  Registry.runOps ops (snd (Registry.markExited (c :: r) code signal m0)) = Some m ->
  (forall d, ProcessActions.writeToSession (Some (c :: r)) (Some d) m
             = (ProcessHandler.failure (str "Cannot write to exited process"), m))
  /\ (forall typeError k ks,
        ProcessHandler.sendKeysToSession typeError (Some (c :: r)) (Some (k :: ks)) m
        = (ProcessHandler.failure (str "Cannot send keys to exited process"), m))
  /\ (forall killThrows,
        ProcessHandler.killSession killThrows (Some (c :: r)) m
        = (ProcessHandler.failure (str "Process already exited"), [])).
Proof.
  intros Hs0 Hrun.
  assert (Hm1 : snd (Registry.markExited (c :: r) code signal m0) !! (c :: r)
                = Some (Registry.setExited code signal s0)).
  { unfold Registry.markExited. rewrite Hs0. simpl. apply lookup_insert_eq. }
  destruct (runOps_same ops _ m _ _ Hm1 Hrun) as (s & Hs & (_ & _ & _ & _ & _ & He & _) & _).
  specialize (He eq_refl).
  repeat split.
  - intros d. unfold ProcessActions.writeToSession, Registry.getSession. by rewrite Hs, He.
  - intros typeError k ks.
    unfold ProcessHandler.sendKeysToSession, Registry.getSession. by rewrite Hs, He.
  - intros kt. unfold ProcessHandler.killSession, Registry.getSession. by rewrite Hs, He.
Qed.

Lemma exited_session_rejects_actions_witness :
  ProcessActions.writeToSession (Some demoId) (Some (str "y"))
    (default ∅ (Registry.runOps [Registry.OpAppendOutput demoId (str "late")]
                  (snd (Registry.markExited demoId (value 0) undefined liveRegistry))))
  = (ProcessHandler.failure (str "Cannot write to exited process"),
     default ∅ (Registry.runOps [Registry.OpAppendOutput demoId (str "late")]
                  (snd (Registry.markExited demoId (value 0) undefined liveRegistry)))).
Proof.
  exact (proj1 (exited_session_rejects_actions
                  [Registry.OpAppendOutput demoId (str "late")] liveRegistry _
                  (codeUnit "k") (str "3x9q2ab") liveSession (value 0) undefined eq_refl eq_refl)
           (str "y")).
Defined.

(** X12. An unknown session id is an error of every action that takes
    one, never an exception and never a change: poll, log, write,
    send-keys and kill all answer "Session not found: <id>". *)
Theorem missing_session_is_reported m (c : Z) (r : jsstring) :
  m !! (c :: r) = None ->
  let notFound := ProcessHandler.failure (str "Session not found: " ++ c :: r) in
  ProcessActions.pollSession (Some (c :: r)) m = notFound
  /\ (forall o l, ProcessActions.getSessionLog (Some (c :: r)) o l m = notFound)
  /\ (forall d, ProcessActions.writeToSession (Some (c :: r)) (Some d) m = (notFound, m))
  /\ (forall typeError k ks,
        ProcessHandler.sendKeysToSession typeError (Some (c :: r)) (Some (k :: ks)) m
        = (notFound, m))
  /\ (forall killThrows,
        ProcessHandler.killSession killThrows (Some (c :: r)) m = (notFound, [])).
Proof.
  intros Hnone notFound.
  unfold ProcessActions.pollSession, ProcessActions.getSessionLog,
    ProcessActions.writeToSession, ProcessHandler.sendKeysToSession,
    ProcessHandler.killSession, Registry.getSession.
  rewrite Hnone. by repeat split.
Qed.

Lemma missing_session_is_reported_witness :
  ProcessActions.pollSession (Some (str "nosuchid")) demoRegistry
  = ProcessHandler.failure (str "Session not found: nosuchid").
Proof.
  exact (proj1 (missing_session_is_reported demoRegistry (codeUnit "n") (str "osuchid") eq_refl)).
Defined.

Lemma writeKeys_chars (keys vals : list jsstring) (w : Registry.Writable) :
  Forall2 (fun key v => ProcessHandler.convertKeySequence key = ProcessHandler.Chars v)
    keys vals ->
  ProcessHandler.writeKeys keys w
  = ({| Registry.written := Registry.written w ++ vals |}, true).
Proof.
  intros Hall. revert w. induction Hall as [| key v keys vals Hkey _ IH]; intros w; simpl.
  - rewrite app_nil_r. by destruct w.
  - rewrite Hkey, IH. simpl. by rewrite <- app_assoc.
Qed.

(** X13. Input reaches a live session in order: a write appends its data
    (the empty string included) to what the input handle has received,
    and send-keys appends the sequence of every key, one write per key
    in the order given, when every key converts to a string. Nothing else
    of the session changes. *)
Theorem input_is_written_in_order m (c : Z) (r : jsstring) s (w : Registry.Writable) :
  m !! (c :: r) = Some s -> Registry.exited s = false -> Registry.stdin s = Some w ->
  (forall d,
     ProcessActions.writeToSession (Some (c :: r)) (Some d) m
     = (ProcessHandler.successWith s,
        <[c :: r := ProcessHandler.setStdin
                      (Some {| Registry.written := Registry.written w ++ [d] |}) s]> m))
  /\ (forall typeError k ks vals,
        Forall2 (fun key v => ProcessHandler.convertKeySequence key = ProcessHandler.Chars v)
          (k :: ks) vals ->
        ProcessHandler.sendKeysToSession typeError (Some (c :: r)) (Some (k :: ks)) m
        = (ProcessHandler.successWith s,
           <[c :: r := ProcessHandler.setStdin
                         (Some {| Registry.written := Registry.written w ++ vals |}) s]> m)).
Proof.
  intros Hs Hex Hin. split.
  - intros d. unfold ProcessActions.writeToSession, Registry.getSession.
    by rewrite Hs, Hex, Hin.
  - intros typeError k ks vals Hall.
    unfold ProcessHandler.sendKeysToSession, Registry.getSession.
    rewrite Hs, Hex, Hin. by rewrite (writeKeys_chars (k :: ks) vals w Hall).
Qed.

Lemma input_is_written_in_order_witness :
  Registry.stdin
    <$> snd (ProcessHandler.sendKeysToSession (str "TypeError") (Some demoId)
               (Some [str "Ctrl+c"; str "Enter"; str "q"]) liveRegistry) !! demoId
  = Some (Some {| Registry.written := [[ProcessHandler.chr 3]; [ProcessHandler.chr 13]; str "q"] |}).
Proof.
  change (Some demoId) with (Some ((codeUnit "k") :: str "3x9q2ab")).
  rewrite (proj2 (input_is_written_in_order liveRegistry (codeUnit "k") (str "3x9q2ab") liveSession
                    {| Registry.written := [] |} eq_refl eq_refl eq_refl)
             (str "TypeError") (str "Ctrl+c") [str "Enter"; str "q"]
             [[ProcessHandler.chr 3]; [ProcessHandler.chr 13]; str "q"]).
  - reflexivity.
  - repeat constructor.
Defined.

(** X14. ["Ctrl+"] followed by a letter gives the control character of
    that letter, the same for both cases: its code is the code of the
    letter modulo 32, a number from 1 to 26. What follows the letter
    plays no part. *)
Theorem ctrl_letter_gives_control_code (c : Z) (rest : jsstring) :
  asciiLetter c = true ->
  ProcessHandler.convertKeySequence (str "Ctrl+" ++ c :: rest)
  = ProcessHandler.Chars [c mod 32]
  /\ 1 <= c mod 32 <= 26
  /\ ProcessHandler.convertKeySequence (str "Ctrl+" ++ c :: rest)
     = ProcessHandler.convertKeySequence (str "Ctrl+" ++ JS.lowerUnit c ++ rest).
Proof.
  intros Hletter.
  assert (Hfacts : forall d, asciiLetter d = true ->
            lowersToLetter d = true /\ lowerHead d - 96 = d mod 32 /\ 1 <= d mod 32 <= 26).
  { intros d Hd. unfold lowersToLetter. rewrite Hd. split; [done |].
    unfold lowerHead, JS.lowerUnit. unfold asciiLetter in Hd.
    destruct (Z.leb_spec 65 d), (Z.leb_spec d 90), (Z.leb_spec 97 d), (Z.leb_spec d 122);
      simpl in Hd; try discriminate Hd; try lia;
      repeat match goal with
             | |- context [?a <=? ?b] => destruct (Z.leb_spec a b); try lia
             | |- context [?a =? ?b] => destruct (Z.eqb_spec a b); try lia
             end; simpl.
    - rewrite <- (Z.mod_unique d 32 2 (d - 64)) by lia. lia.
    - rewrite <- (Z.mod_unique d 32 3 (d - 96)) by lia. lia. }
  assert (Hconv : forall d, asciiLetter d = true ->
            ProcessHandler.convertKeySequence (str "Ctrl+" ++ d :: rest)
            = ProcessHandler.Chars [d mod 32]).
  { intros d Hd. destruct (Hfacts d Hd) as (Hlow & Hcode & Hrange).
    rewrite convertKeySequence_cases. unfold ctrlLetter.
    change (JS.startsWith (str "Ctrl+" ++ d :: rest) (str "Ctrl+")) with true.
    change (drop 5 (str "Ctrl+" ++ d :: rest)) with (d :: rest).
    simpl andb. rewrite Hlow, Hcode. unfold JS.fromCharCode.
    by rewrite (Z.mod_small (d mod 32)) by lia. }
  destruct (Hfacts c Hletter) as (_ & _ & Hrange).
  split; [by apply Hconv |]. split; [exact Hrange |].
  rewrite (Hconv c Hletter).
  assert (Hlower : exists d, JS.lowerUnit c = [d] /\ asciiLetter d = true
                             /\ d mod 32 = c mod 32).
  { unfold JS.lowerUnit. unfold asciiLetter in *.
    destruct (Z.leb_spec 65 c), (Z.leb_spec c 90), (Z.leb_spec 97 c), (Z.leb_spec c 122);
      simpl in Hletter; try discriminate Hletter; try lia;
      repeat match goal with
             | |- context [?a <=? ?b] => destruct (Z.leb_spec a b); try lia
             | |- context [?a =? ?b] => destruct (Z.eqb_spec a b); try lia
             end; simpl; eexists; (split; [reflexivity |]).
    - split.
      + repeat match goal with
               | |- context [?a <=? ?b] => destruct (Z.leb_spec a b); try lia
               end; reflexivity.
      + rewrite <- (Z.mod_unique c 32 2 (c - 64)) by lia.
        rewrite <- (Z.mod_unique (c + 32) 32 3 (c - 64)) by lia. reflexivity.
    - split; [| reflexivity].
      repeat match goal with
             | |- context [?a <=? ?b] => destruct (Z.leb_spec a b); try lia
             end; reflexivity. }
  destruct Hlower as (d & -> & Hd & Hsame).
  change ([d] ++ rest) with (d :: rest). rewrite (Hconv d Hd). by rewrite Hsame.
Qed.

Lemma ctrl_letter_gives_control_code_witness :
  ProcessHandler.convertKeySequence (str "Ctrl+Z") = ProcessHandler.Chars [ProcessHandler.chr 26].
Proof.
  exact (proj1 (ctrl_letter_gives_control_code (codeUnit "Z") [] eq_refl)).
Defined.

End HandlerFacts.

(* ================================================================== *)
(** ** Reading and editing files *)

Section FileFacts.

Variable resolve : jsstring -> jsstring -> jsstring.
Variable relative : jsstring -> jsstring -> jsstring.
Variable rootPath : jsstring.
Variable readError : jsstring -> jsstring.

Let validate := Files.validatePath resolve relative rootPath.
Let readFile := FileRead.read resolve relative rootPath readError.
Let editFile := Files.edit resolve relative rootPath readError.

Definition invalidPath : Files.FileOperationResult :=
  Files.failed (str "Invalid path: cannot access outside root directory").

(** X15. The path check looks at the first two characters of the path
    relative to the root: when they are two dots the path is refused,
    and then read and edit fail with the invalid-path error before they
    look at any file. So a name that merely starts with two dots is
    refused as well. Every other path is accepted as resolved. *)
Theorem dotdot_prefix_is_rejected (p : jsstring) (fs : gmap (list Z) Files.Node) :
  (forall rest, relative rootPath (resolve rootPath p) = str ".." ++ rest ->
     validate p = None
     /\ (forall o l, readFile {| FileRead.path := p; FileRead.offset := o;
                                 FileRead.limit := l |} fs = invalidPath)
     /\ (forall old new,
           editFile {| Files.path := p; Files.oldText := old; Files.newText := new |} fs
           = (invalidPath, fs)))
  /\ (JS.startsWith (relative rootPath (resolve rootPath p)) (str "..") = false ->
      validate p = Some (resolve rootPath p)).
Proof.
  split.
  - intros rest Hrel.
    assert (Hv : validate p = None).
    { unfold validate, Files.validatePath. rewrite Hrel. reflexivity. }
    split; [exact Hv |]. split.
    + intros o l. unfold readFile, FileRead.read. simpl. fold validate. by rewrite Hv.
    + intros old new. unfold editFile, Files.edit. simpl. fold validate. by rewrite Hv.
  - intros Hrel. unfold validate, Files.validatePath. rewrite Hrel. simpl.
    case_bool_decide as Heq; [| done].
    rewrite Heq in Hrel. discriminate Hrel.
Qed.

Lemma substring_head_length (t : jsstring) (k : Z) :
  0 <= k -> JS.len (JS.substring t 0 (Some k)) <= k.
Proof.
  intros Hk. unfold JS.substring, JS.len. cbv zeta. rewrite length_take. lia.
Qed.

(** X16. [read] never returns more than 51200 characters. With an offset
    of at least 1 and a limit of at least 0 (or without them) it returns
    at most 2000 lines and at most [limit] lines. An offset past the
    last line is not an error: the result is a success with empty
    content and no line read. *)
Theorem read_is_capped (text : jsstring) (o l : option Z) :
  (forall c, Files.content (FileRead.readContent text o l) = Some c -> JS.len c <= 51200)
  /\ (1 <= default 1 o -> 0 <= default 2000 l ->
      forall n, Files.linesRead (FileRead.readContent text o l) = Some n ->
                n <= 2000 /\ n <= default 2000 l)
  /\ (Z.of_nat (length (JSArray.splitLines text)) < default 1 o ->
      FileRead.readContent text o l
      = {| Files.success := true; Files.content := Some []; Files.error := None;
           Files.linesRead := Some 0; Files.truncated := None |}).
Proof.
  unfold FileRead.readContent. cbv zeta.
  change FileRead.MAX_LINES with 2000. change FileRead.MAX_FILE_SIZE with 51200.
  split; [| split].
  - intros c. destruct (_ <=? _); simpl; [intros [= <-]; done |].
    destruct (Z.ltb_spec 51200 (JS.len (JSArray.joinLines
               (JSArray.slice (JSArray.splitLines text) (default 1 o - 1)
                  (default 1 o - 1 + Z.min (default 2000 l) 2000)))));
      intros [= <-]; [by apply substring_head_length | lia].
  - intros Ho Hl n.
    destruct (_ <=? _); simpl; [intros [= <-]; lia |].
    intros [= <-]. rewrite slice_window by lia. rewrite length_take. lia.
  - intros Hpast.
    destruct (Z.leb_spec (Z.of_nat (length (JSArray.splitLines text))) (default 1 o - 1));
      [done | lia].
Qed.

Lemma read_is_capped_witness :
  FileRead.readContent (str "only line") (Some 5) None
  = {| Files.success := true; Files.content := Some []; Files.error := None;
       Files.linesRead := Some 0; Files.truncated := None |}.
Proof.
  apply (proj2 (proj2 (read_is_capped (str "only line") (Some 5) None))).
  vm_compute. reflexivity.
Defined.

Lemma readContent_within_limits (text : jsstring) :
  JS.len text <= 51200 -> Z.of_nat (length (JSArray.splitLines text)) <= 2000 ->
  FileRead.readContent text None None
  = {| Files.success := true; Files.content := Some text; Files.error := None;
       Files.linesRead := Some (Z.of_nat (length (JSArray.splitLines text)));
       Files.truncated := Some false |}.
Proof.
  intros Hsize Hlines.
  unfold FileRead.readContent. cbv zeta. simpl default.
  change FileRead.MAX_LINES with 2000. change FileRead.MAX_FILE_SIZE with 51200.
  change (1 - 1) with 0. change (Z.min 2000 2000) with 2000.
  pose proof (splitLines_nonempty text) as Hne.
  destruct (Z.leb_spec (Z.of_nat (length (JSArray.splitLines text))) 0) as [Hz | _].
  { destruct (JSArray.splitLines text); [done | simpl in Hz; lia]. }
  rewrite slice_window by lia.
  change (Z.to_nat 0) with 0%nat. rewrite drop_0.
  rewrite take_ge by lia. rewrite join_split.
  destruct (Z.ltb_spec (0 + 2000) (Z.of_nat (length (JSArray.splitLines text)))); [lia |].
  destruct (Z.ltb_spec 51200 (JS.len text)); [lia |].
  reflexivity.
Qed.

(** X17. A file of at most 2000 lines and at most 51200 characters, read
    without offset and limit, comes back as it is, with its number of
    lines and not marked truncated. *)
Theorem small_file_is_read_whole (p : jsstring) (c : Z) (r text : jsstring)
    (fs : gmap (list Z) Files.Node) :
  validate p = Some (c :: r) -> fs !! (c :: r) = Some (Files.File text) ->
  JS.len text <= 51200 -> Z.of_nat (length (JSArray.splitLines text)) <= 2000 ->
  readFile {| FileRead.path := p; FileRead.offset := None; FileRead.limit := None |} fs
  = {| Files.success := true; Files.content := Some text; Files.error := None;
       Files.linesRead := Some (Z.of_nat (length (JSArray.splitLines text)));
       Files.truncated := Some false |}.
Proof.
  intros Hp Hf Hsize Hlines.
  unfold readFile, FileRead.read. simpl. fold validate. rewrite Hp, Hf.
  exact (readContent_within_limits text Hsize Hlines).
Qed.

End FileFacts.

Lemma small_file_is_read_whole_witness :
  FileRead.read demoResolve demoRelative (str "/srv") (fun _ => str "EISDIR")
    {| FileRead.path := str "notes.txt"; FileRead.offset := None; FileRead.limit := None |}
    (demoFile "abc")
  = {| Files.success := true; Files.content := Some (str "abc"); Files.error := None;
       Files.linesRead := Some 1; Files.truncated := Some false |}.
Proof.
  apply (small_file_is_read_whole demoResolve demoRelative (str "/srv") (fun _ => str "EISDIR")
           (str "notes.txt") (codeUnit "/") (str "srv/notes.txt") (str "abc") (demoFile "abc")
           eq_refl eq_refl); vm_compute; discriminate.
Defined.

Lemma dotdot_prefix_is_rejected_witness :
  FileRead.read demoResolve demoRelative (str "/srv") (fun _ => str "EISDIR")
    {| FileRead.path := str "..notes"; FileRead.offset := None; FileRead.limit := None |}
    (demoFile "abc")
  = invalidPath.
Proof.
  destruct (proj1 (dotdot_prefix_is_rejected demoResolve demoRelative (str "/srv")
                     (fun _ => str "EISDIR") (str "..notes") (demoFile "abc"))
              (str "notes") eq_refl) as (_ & Hread & _).
  apply Hread.
Defined.

Section EditEdges.

(** X18. The edges of an edit. An empty search text always matches, at
    the very start, so the new text is put in front of the content. A
    replacement by the same text leaves the content as it is. In every
    successful edit the length changes by the difference of the two
    texts. *)
Theorem edit_edge_cases (text old new : jsstring) :
  Files.editContent text [] new = Some (new ++ text)
  /\ (Files.occurs text old -> Files.editContent text old old = Some text)
  /\ (forall text', Files.editContent text old new = Some text' ->
        JS.len text' = JS.len text - JS.len old + JS.len new).
Proof.
  repeat split.
  - unfold Files.editContent, JS.indexOf.
    assert (Hz : JS.indexOf_from text [] 0 = 0) by (by destruct text).
    rewrite Hz. change (0 =? -1) with false. cbv iota.
    change (0 + JS.len []) with 0.
    pose proof (substring_prefix text 0 ltac:(lia)) as Hhead.
    pose proof (substring_rest text 0 ltac:(lia)) as Hrest.
    change (Z.of_nat 0) with 0 in Hhead, Hrest.
    by rewrite Hhead, Hrest, take_0, drop_0.
  - intros Hocc.
    destruct (editContent_found text old old Hocc) as (b & a & Ht & _ & He).
    by rewrite He, <- Ht.
  - intros text' He.
    pose proof (editContent_some_occurs _ _ _ _ He) as Hocc.
    destruct (editContent_found text old new Hocc) as (b & a & Ht & _ & He').
    rewrite He' in He. injection He as <-. rewrite Ht.
    unfold JS.len. rewrite !length_app. lia.
Qed.

Lemma edit_edge_cases_witness :
  Files.editContent (str "abab") (str "b") (str "b") = Some (str "abab")
  /\ Files.editContent (str "abc") [] (str ">> ") = Some (str ">> abc").
Proof.
  split.
  - apply (proj1 (proj2 (edit_edge_cases (str "abab") (str "b") (str "b")))).
    exists 1%nat, (str "a"), (str "ab"). by split.
  - apply (proj1 (edit_edge_cases (str "abc") [] (str ">> "))).
Defined.



End EditEdges.

(* ================================================================== *)
(** ** More on reading, and on the backoff *)

Section ReadEdges.

(** Joining fewer lines gives a text that is not longer. *)
Lemma joinLines_take_len (n : nat) (ls : list jsstring) :
  JS.len (JSArray.joinLines (take n ls)) <= JS.len (JSArray.joinLines ls).
Proof.
  unfold JS.len. revert n. induction ls as [| l rest IH]; intros n.
  - by rewrite take_nil.
  - destruct n as [| n]; [simpl; lia |].
    specialize (IH n). cbn [take]. destruct rest as [| l' rest'].
    + by rewrite take_nil.
    + cbn [JSArray.joinLines] in *.
      destruct (take n (l' :: rest')) as [| t ts] eqn:Ht.
      * rewrite length_app. simpl. lia.
      * rewrite !length_app. cbn [length]. lia.
Qed.

(** X20. A negative limit is not refused by [read] either: without
    offset, limit [-k] gives the lines of the file but the last [k], in
    their order and joined by newlines (nothing when the file has no
    more than [k] lines), counts them in [linesRead] and marks the
    result truncated. Only a text of more than 51200 characters is cut,
    to its first 51200; a file within that size is never cut. *)
Theorem negative_limit_reads_from_the_end (text : jsstring) (k : Z) :
  0 < k ->
  let lines := JSArray.splitLines text in
  let kept := take (length lines - Z.to_nat k) lines in
  let result := JSArray.joinLines kept in
  FileRead.readContent text None (Some (- k))
  = {| Files.success := true;
       Files.content := Some (if 51200 <? JS.len result
                              then JS.substring result 0 (Some 51200)
                              else result);
       Files.error := None;
       Files.linesRead := Some (Z.of_nat (length kept));
       Files.truncated := Some true |}
  /\ length kept = (length lines - Z.to_nat k)%nat
  /\ (JS.len text <= 51200 ->
      Files.content (FileRead.readContent text None (Some (- k))) = Some result).
Proof.
  intros Hk lines kept result.
  assert (Hread : FileRead.readContent text None (Some (- k))
                  = {| Files.success := true;
                       Files.content := Some (if 51200 <? JS.len result
                                              then JS.substring result 0 (Some 51200)
                                              else result);
                       Files.error := None;
                       Files.linesRead := Some (Z.of_nat (length kept));
                       Files.truncated := Some true |}).
  { unfold FileRead.readContent. cbv zeta. simpl default.
    change FileRead.MAX_LINES with 2000. change FileRead.MAX_FILE_SIZE with 51200.
    change (1 - 1) with 0.
    replace (Z.min (- k) 2000) with (- k) by lia.
    pose proof (splitLines_nonempty text) as Hne.
    destruct (Z.leb_spec (Z.of_nat (length (JSArray.splitLines text))) 0) as [Hz | _].
    { destruct (JSArray.splitLines text); [done | simpl in Hz; lia]. }
    replace (0 + - k) with (- k) by lia.
    rewrite slice_from_end by done. fold lines. fold kept. fold result.
    destruct (Z.ltb_spec (- k) (Z.of_nat (length lines))); [done | lia]. }
  split; [exact Hread |]. split.
  - unfold kept. rewrite length_take. lia.
  - intros Hsize. rewrite Hread. cbn [Files.content].
    pose proof (joinLines_take_len (length lines - Z.to_nat k) lines) as Hlen.
    unfold lines in Hlen at 3. rewrite join_split in Hlen. fold kept in Hlen. fold result in Hlen.
    destruct (Z.ltb_spec 51200 (JS.len result)); [lia | done].
Qed.

Lemma negative_limit_reads_from_the_end_witness :
  FileRead.readContent (str "a" ++ JSArray.newline :: str "b"
                        ++ JSArray.newline :: str "c") None (Some (- 1))
  = {| Files.success := true;
       Files.content := Some (str "a" ++ JSArray.newline :: str "b");
       Files.error := None; Files.linesRead := Some 2; Files.truncated := Some true |}.
Proof.
  rewrite (proj1 (negative_limit_reads_from_the_end _ 1 ltac:(lia))).
  vm_compute. reflexivity.
Defined.

End ReadEdges.

Section BackoffFacts.

(** X21. A successful connection forgives earlier failures: when the
    socket opens the attempt counter goes back to 0 and the pending
    timer is dropped, so the reconnect scheduled by the next close waits
    [min (base * 2^0 + jitter, max)], which is [min (base + jitter,
    max)], the first delay, however many attempts came before. *)
Theorem open_restarts_the_backoff (a : Actuator.State) (random : spec_float) :
  Actuator.destroyed a = false ->
  Reconnect.maxAttempts (Actuator.reconnect a) = None ->
  let opened := Actuator.handle Actuator.SocketOpens a in
  let closed := Actuator.handle (Actuator.SocketCloses random) opened in
  let base := Reconnect.baseMs (Actuator.reconnect a) in
  let jitter := Double.mul random (Double.ofZ 1000) in
  (Reconnect.attempt (Actuator.reconnect opened) = 0
   /\ Reconnect.timer (Actuator.reconnect opened) = None)
  /\ Actuator.ws closed = None
  /\ Reconnect.attempt (Actuator.reconnect closed) = 1
  /\ Reconnect.timer (Actuator.reconnect closed)
     = Some (Double.min (Double.add (Double.mul base (Double.pow2 0)) jitter)
                        (Reconnect.maxMs (Actuator.reconnect a)))
  /\ (Double.valid base = true ->
      Reconnect.timer (Actuator.reconnect closed)
      = Some (Double.min (Double.add base jitter)
                         (Reconnect.maxMs (Actuator.reconnect a)))).
Proof.
  intros Hd Hinf opened closed base jitter.
  assert (Htimer : Reconnect.timer (Actuator.reconnect closed)
                   = Some (Double.min (Double.add (Double.mul base (Double.pow2 0)) jitter)
                                      (Reconnect.maxMs (Actuator.reconnect a)))).
  { unfold closed, opened, Actuator.handle, Actuator.scheduleReconnect.
    cbn [Actuator.destroyed Actuator.reconnect Actuator.ws Actuator.wire]. rewrite Hd.
    cbn [Actuator.reconnect].
    unfold Reconnect.schedule, Reconnect.ceilingReached, Reconnect.reset.
    cbn [Reconnect.maxAttempts]. rewrite Hinf. reflexivity. }
  split; [done |]. split.
  { unfold closed, opened, Actuator.handle, Actuator.scheduleReconnect.
    cbn [Actuator.destroyed]. by rewrite Hd. }
  split.
  { unfold closed, opened, Actuator.handle, Actuator.scheduleReconnect.
    cbn [Actuator.destroyed Actuator.reconnect Actuator.ws Actuator.wire]. rewrite Hd.
    cbn [Actuator.reconnect].
    unfold Reconnect.schedule, Reconnect.ceilingReached, Reconnect.reset.
    cbn [Reconnect.maxAttempts]. by rewrite Hinf. }
  split; [exact Htimer |].
  intros Hv. by rewrite Htimer, (mul_one base Hv).
Qed.

Definition flapping : Actuator.State :=
  Actuator.handleAll [Actuator.SocketCloses (Double.ofZ 0);
                      Actuator.ReconnectFires true (Double.ofZ 0);
                      Actuator.ReconnectFires true (Double.ofZ 0);
                      Actuator.ReconnectFires false (Double.ofZ 0)]
    connected.

Lemma open_restarts_the_backoff_witness :
  (Reconnect.attempt (Actuator.reconnect flapping) = 3
   /\ Reconnect.timer (Actuator.reconnect flapping) = Some (Double.ofZ 4000))
  /\ Reconnect.attempt
       (Actuator.reconnect
          (Actuator.handle (Actuator.SocketCloses half)
             (Actuator.handle Actuator.SocketOpens flapping))) = 1
  /\ Reconnect.timer
       (Actuator.reconnect
          (Actuator.handle (Actuator.SocketCloses half)
             (Actuator.handle Actuator.SocketOpens flapping))) = Some (Double.ofZ 1500).
Proof.
  split; [split; vm_compute; reflexivity |].
  destruct (open_restarts_the_backoff flapping half eq_refl eq_refl)
    as (_ & _ & Hattempt & _ & Htimer).
  split; [exact Hattempt |].
  rewrite (Htimer eq_refl). vm_compute. reflexivity.
Defined.

Lemma scheduleAll_config (randoms : list spec_float) (r : Reconnect.ReconnectManager) :
  Reconnect.baseMs (Reconnect.scheduleAll randoms r) = Reconnect.baseMs r
  /\ Reconnect.maxMs (Reconnect.scheduleAll randoms r) = Reconnect.maxMs r
  /\ Reconnect.maxAttempts (Reconnect.scheduleAll randoms r) = Reconnect.maxAttempts r.
Proof.
  revert r. induction randoms as [| x rest IH]; intros r; [done |].
  cbn [Reconnect.scheduleAll].
  destruct (IH (snd (Reconnect.schedule x r))) as (H1 & H2 & H3).
  destruct (schedule_config x r) as (G1 & G2 & G3).
  by rewrite H1, H2, H3, G1, G2, G3.
Qed.

Lemma scheduleAll_attempt (k : Z) (randoms : list spec_float)
    (r : Reconnect.ReconnectManager) :
  Reconnect.maxAttempts r = Some k -> Reconnect.attempt r <= k ->
  Reconnect.attempt (Reconnect.scheduleAll randoms r)
  = Z.min (Reconnect.attempt r + Z.of_nat (length randoms)) k.
Proof.
  revert r. induction randoms as [| x rest IH]; intros r Hmax Hle.
  - cbn [Reconnect.scheduleAll length]. lia.
  - cbn [Reconnect.scheduleAll length].
    unfold Reconnect.schedule, Reconnect.ceilingReached. rewrite Hmax.
    destruct (Z.leb_spec k (Reconnect.attempt r)) as [Hreached | Hbelow]; cbn [snd].
    + rewrite (IH r Hmax Hle). lia.
    + rewrite IH; cbn [Reconnect.maxAttempts Reconnect.attempt]; [lia | done | lia].
Qed.

(** After [n] calls of [schedule] on a manager with the ceiling [k]
    that has counted no attempt yet, the counter is [min (n, k)] and
    the next call succeeds exactly when [n < k]. *)
Lemma ceiling_budget (k : Z) (randoms : list spec_float) (x : spec_float)
    (r0 : Reconnect.ReconnectManager) :
  Reconnect.maxAttempts r0 = Some k -> Reconnect.attempt r0 = 0 -> 0 <= k ->
  let r := Reconnect.scheduleAll randoms r0 in
  Reconnect.attempt r = Z.min (Z.of_nat (length randoms)) k
  /\ (fst (Reconnect.schedule x r) = true <-> Z.of_nat (length randoms) < k).
Proof.
  intros Hmax H0 Hk r.
  pose proof (scheduleAll_attempt k randoms r0 Hmax ltac:(lia)) as Hatt.
  destruct (scheduleAll_config randoms r0) as (_ & _ & Hcfg).
  fold r in Hatt, Hcfg. rewrite H0, Z.add_0_l in Hatt. rewrite Hmax in Hcfg.
  split; [exact Hatt |].
  unfold Reconnect.schedule, Reconnect.ceilingReached. rewrite Hcfg, Hatt.
  destruct (Z.leb_spec k (Z.min (Z.of_nat (length randoms)) k)); cbn [fst]; split;
    intros; try done; lia.
Qed.

(** X22. With a ceiling of [k] attempts, a manager counts exactly the
    scheduled attempts up to [k]: after [n] calls of [schedule] its
    counter is [min (n, k)], and the next call succeeds exactly when
    fewer than [k] calls came before. A [reset] opens the full budget
    again: it gives back the manager as it was built, so that after
    [reset] and [n'] further calls the counter is [min (n', k)] and the
    next call succeeds exactly when [n' < k], whatever was used up
    before. *)
Theorem ceiling_counts_attempts (opts : Reconnect.ReconnectOptions) (k : Z)
    (randoms more : list spec_float) (x y : spec_float) :
  Reconnect.opt_maxAttempts opts = Some k -> 0 <= k ->
  let r := Reconnect.scheduleAll randoms (Reconnect.create opts) in
  let r' := Reconnect.scheduleAll more (Reconnect.reset r) in
  Reconnect.attempt r = Z.min (Z.of_nat (length randoms)) k
  /\ (fst (Reconnect.schedule x r) = true <-> Z.of_nat (length randoms) < k)
  /\ Reconnect.reset r = Reconnect.create opts
  /\ Reconnect.attempt r' = Z.min (Z.of_nat (length more)) k
  /\ (fst (Reconnect.schedule y r') = true <-> Z.of_nat (length more) < k)
  /\ (fst (Reconnect.schedule y (Reconnect.reset r)) = true <-> 0 < k).
Proof.
  intros Hopt Hk r r'.
  destruct (ceiling_budget k randoms x (Reconnect.create opts) Hopt eq_refl Hk) as (H1 & H2).
  assert (Hreset : Reconnect.reset r = Reconnect.create opts).
  { destruct (scheduleAll_config randoms (Reconnect.create opts)) as (G1 & G2 & G3).
    fold r in G1, G2, G3. unfold Reconnect.reset. by rewrite G1, G2, G3. }
  destruct (ceiling_budget k more y (Reconnect.reset r) ltac:(by rewrite Hreset) eq_refl Hk)
    as (H3 & H4).
  destruct (ceiling_budget k [] y (Reconnect.reset r) ltac:(by rewrite Hreset) eq_refl Hk)
    as (_ & H5).
  done.
Qed.

Lemma ceiling_counts_attempts_witness :
  let opts := {| Reconnect.opt_baseMs := None; Reconnect.opt_maxMs := None;
                 Reconnect.opt_maxAttempts := Some 3 |} in
  let spent := Reconnect.scheduleAll [half; half; half; half; half] (Reconnect.create opts) in
  Reconnect.attempt spent = 3
  /\ fst (Reconnect.schedule half spent) = false
  /\ fst (Reconnect.schedule half
            (Reconnect.scheduleAll [half; half] (Reconnect.reset spent))) = true
  /\ Reconnect.attempt (Reconnect.scheduleAll [half; half; half; half] (Reconnect.reset spent))
     = 3.
Proof.
  intros opts spent.
  split; [exact (proj1 (ceiling_counts_attempts opts 3 [half; half; half; half; half] []
                           half half eq_refl ltac:(lia))) |].
  split; [vm_compute; reflexivity |].
  split.
  - apply (proj1 (proj2 (proj2 (proj2 (proj2
             (ceiling_counts_attempts opts 3 [half; half; half; half; half] [half; half]
                half half eq_refl ltac:(lia))))))).
    simpl. lia.
  - exact (proj1 (proj2 (proj2 (proj2
             (ceiling_counts_attempts opts 3 [half; half; half; half; half]
                [half; half; half; half] half half eq_refl ltac:(lia)))))).
Defined.

(** X23. The delay is not a number exactly when the sum [base * 2^n +
    jitter] or the maximum is not; otherwise it never exceeds the
    maximum, whatever the configuration. With a base that is a finite
    number and not negative and a maximum that is not negative, the
    delay is not negative, is at most the maximum, and for the same
    jitter does not shrink from one attempt to a later one, as long as
    the base is positive or the later attempt is below 1024, where [2^n]
    becomes [Infinity] and its product with 0 is not a number. *)
Theorem delay_is_bounded_and_monotone (r r' : Reconnect.ReconnectManager)
    (random : spec_float) :
  let sum := Double.add (Double.mul (Reconnect.baseMs r) (Double.pow2 (Reconnect.attempt r)))
                        (Double.mul random (Double.ofZ 1000)) in
  (Reconnect.delay r random = S754_nan <-> sum = S754_nan \/ Reconnect.maxMs r = S754_nan)
  /\ (Reconnect.delay r random <> S754_nan ->
      Double.leb (Reconnect.delay r random) (Reconnect.maxMs r) = true)
  /\ (Double.valid (Reconnect.baseMs r) = true -> Double.finite (Reconnect.baseMs r) = true ->
      Double.leb (Double.ofZ 0) (Reconnect.baseMs r) = true ->
      Double.valid (Reconnect.maxMs r) = true ->
      Double.leb (Double.ofZ 0) (Reconnect.maxMs r) = true ->
      Double.unitInterval random = true ->
      Reconnect.baseMs r' = Reconnect.baseMs r -> Reconnect.maxMs r' = Reconnect.maxMs r ->
      0 <= Reconnect.attempt r -> Reconnect.attempt r <= Reconnect.attempt r' ->
      Double.ltb (Double.ofZ 0) (Reconnect.baseMs r) = true \/ Reconnect.attempt r' < 1024 ->
      Double.leb (Double.ofZ 0) (Reconnect.delay r random) = true
      /\ Double.leb (Reconnect.delay r random) (Reconnect.maxMs r) = true
      /\ Double.leb (Reconnect.delay r random) (Reconnect.delay r' random) = true).
Proof.
  intros sum.
  destruct (min_spec sum (Reconnect.maxMs r)) as (Hnan & Hle).
  split; [exact Hnan |]. split; [exact Hle |].
  intros Hvb Hfb Hlb Hvm Hlm Hr Hb' Hm' Hn Hnn' Hedge.
  destruct (valid_nonneg _ Hvb Hlb) as [_ Hnb]. specialize (Hnb Hfb).
  destruct (valid_nonneg _ Hvm Hlm) as [Hnm _].
  assert (Hedge' : 0 < Double.units (Reconnect.baseMs r) \/ Reconnect.attempt r' < 1024).
  { destruct Hedge as [Hpos | Hlow]; [left; by apply ltb_zero | by right]. }
  destruct (delay_mono r r' random Hnb Hnm Hr Hb' Hm' Hn Hnn' Hedge')
    as (Hd & Hd' & Hmax & Hmono).
  split; [| split].
  - apply leb_ext; [reflexivity | exact Hd |]. apply (ext_range _ Hd).
  - by apply leb_ext.
  - by apply leb_ext.
Qed.

Lemma delay_is_bounded_and_monotone_witness :
  let r := Reconnect.create Reconnect.noOptions in
  let r' := Reconnect.scheduleAll [half; half; half; half; half; half] r in
  Double.leb (Double.ofZ 0) (Reconnect.delay r half) = true
  /\ Double.leb (Reconnect.delay r half) (Double.ofZ 30000) = true
  /\ Double.leb (Reconnect.delay r half) (Reconnect.delay r' half) = true.
Proof.
  intros r r'.
  destruct (delay_is_bounded_and_monotone r r' half) as (_ & _ & H).
  apply (H eq_refl eq_refl eq_refl eq_refl eq_refl eq_refl eq_refl eq_refl);
    [done | done | by left].
Defined.

End BackoffFacts.

(* ================================================================== *)
(** ** Yielding *)

Section YieldFacts.

Definition isYield (c : Shell.Callback) : bool :=
  match c with
  | Shell.onYield _ => true
  | _ => false
  end.

(** How many times a log holds [onYield]. *)
Definition yields (l : list Shell.Callback) : nat :=
  length (filter (fun c => isYield c = true) l).

(** Whether a log holds an [onYield] after a terminal outcome;
    [seen] tells whether a terminal outcome came before the log. *)
Fixpoint lateYield (seen : bool) (l : list Shell.Callback) : bool :=
  match l with
  | [] => false
  | c :: rest => (isYield c && seen) || lateYield (seen || Shell.terminal c) rest
  end.

Lemma yields_app (l : list Shell.Callback) (c : Shell.Callback) :
  yields (l ++ [c]) = (yields l + if isYield c then 1 else 0)%nat.
Proof.
  unfold yields. rewrite filter_app, length_app. f_equal. by destruct c.
Qed.

Lemma terminals_cons (d : Shell.Callback) (l : list Shell.Callback) :
  Shell.terminals (d :: l)
  = ((if Shell.terminal d then 1 else 0) + Shell.terminals l)%nat.
Proof. unfold Shell.terminals. rewrite filter_cons. by destruct d. Qed.

Lemma lateYield_app (seen : bool) (l : list Shell.Callback) (c : Shell.Callback) :
  lateYield seen (l ++ [c])
  = lateYield seen l || (isYield c && (seen || negb (Nat.eqb (Shell.terminals l) 0))).
Proof.
  revert seen. induction l as [| d l IH]; intros seen.
  - cbn. by destruct (isYield c), seen.
  - change ((d :: l) ++ [c]) with (d :: (l ++ [c])).
    cbn [lateYield]. rewrite IH, terminals_cons.
    destruct d, seen, (isYield c); cbn [isYield Shell.terminal andb orb negb Nat.add Nat.eqb];
      rewrite ?orb_true_r, ?orb_false_r, ?andb_true_r, ?andb_false_r; done.
Qed.

(** What the handlers keep true: once a terminal outcome is in the log,
    the yield timer is gone or the command is killed; the log has no
    late yield; and a yield can come only while the timer is pending. *)
Definition yieldInv (i : Shell.Invocation) (l : list Shell.Callback) (budget : nat) : Prop :=
  lateYield false l = false
  /\ (Shell.terminals l <> 0%nat -> Shell.killed i = true \/ Shell.yieldTimer i = false)
  /\ (yields l + (if Shell.yieldTimer i then 1 else 0) <= budget)%nat.

Lemma step_yieldInv (e : Shell.Event) (i : Shell.Invocation) (w : Shell.World) (budget : nat) :
  yieldInv i (Shell.calls w) budget ->
  yieldInv (fst (Shell.step e i w)) (Shell.calls (snd (Shell.step e i w))) budget.
Proof.
  intros (Hlate & Hterm & Hbudget). unfold yieldInv in *.
  destruct i as [sid t0 secs killed timer yield pty].
  destruct e; simpl in *;
    unfold Shell.onTimeout, Shell.onYieldTimer, Shell.onData, Shell.onExit,
      Shell.onProcError; simpl;
    destruct killed, timer, yield, pty; simpl in *;
    try destruct (Shell.sessionExited sid (Shell.registry w)); simpl;
    rewrite ?lateYield_app, ?terminals_app, ?yields_app, ?Hlate; simpl;
    repeat split; try lia; try tauto;
    try (intros; right; reflexivity); try (intros; left; reflexivity).
  all: destruct (Nat.eqb_spec (Shell.terminals (Shell.calls w)) 0) as [Hz | Hnz];
    [done | destruct (Hterm Hnz); discriminate].
Qed.

Lemma run_yieldInv (es : list Shell.Event) (i : Shell.Invocation) (w : Shell.World)
    (budget : nat) :
  yieldInv i (Shell.calls w) budget ->
  yieldInv (fst (Shell.run es i w)) (Shell.calls (snd (Shell.run es i w))) budget.
Proof.
  revert i w. induction es as [| e es IH]; intros i w Hinv; simpl; [done |].
  pose proof (step_yieldInv e i w budget Hinv) as Hstep.
  destruct (Shell.step e i w) as [i1 w1]. by apply IH.
Qed.

(** X24. One invocation yields at most once, never when [yieldMs] is
    absent or 0 (or no [onYield] was passed), and never after it has
    reported a terminal outcome, for every sequence of events. *)
Theorem yield_comes_once_and_first draws now pcwd ptyModule childPid opts hasOnYield
    (w0 : Shell.World) (sid : jsstring) (inv : Shell.Invocation) (w1 : Shell.World)
    (es : list Shell.Event) :
  Shell.calls w0 = [] ->
  Shell.executeShell draws now pcwd ptyModule (Shell.Spawned childPid) opts hasOnYield w0
  = Some (sid, Some inv, w1) ->
  let log := Shell.calls (snd (Shell.run es inv w1)) in
  (yields log <= 1)%nat
  /\ (JS.truthyNum (Shell.yieldMs opts) && hasOnYield = false -> yields log = 0%nat)
  /\ lateYield false log = false.
Proof.
  intros Hcalls Hexec log.
  unfold Shell.executeShell in Hexec.
  destruct (Registry.addSession _ _ _ _ _ _) as [[s m] |]; [| done].
  injection Hexec as <- <- <-.
  match goal with
  | log := Shell.calls (snd (Shell.run es ?i ?w)) |- _ =>
      pose proof (run_yieldInv es i w (if Shell.yieldTimer i then 1 else 0)%nat) as Hrun
  end.
  subst log. simpl in Hrun. simpl. rewrite Hcalls in *.
  destruct Hrun as (Hlate & _ & Hbudget); [repeat split; try done; simpl; lia |].
  match type of Hbudget with
  | (_ + (if ?b then _ else _) <= _)%nat => destruct b
  end;
    destruct (JS.truthyNum (Shell.yieldMs opts) && hasOnYield) eqn:Hon;
    (split; [lia |]); (split; [| exact Hlate]);
    intros Hoff; try discriminate Hoff; lia.
Qed.

Definition yieldLog : list Shell.Callback :=
  callbacksOf (Shell.Spawned (Some 4242)) yieldOptions
    [Shell.YieldFires; Shell.YieldFires;
     Shell.ProcClose (Some 0) None 2000; Shell.YieldFires].

Lemma yield_comes_once_and_first_witness : (yields yieldLog <= 1)%nat.
Proof.
  edestruct (yield_comes_once_and_first [str "k3x9q2ab"] 0 (str "/srv") false (Some 4242)
               yieldOptions true emptyWorld) as (Hle & _); [reflexivity | reflexivity |].
  exact Hle.
Defined.

End YieldFacts.

(* ================================================================== *)
(** ** Exec commands in the agent *)

Section AgentFacts.

Variable stringify : Agent.ExecResult -> jsstring.

(** The status a callback reports to the broker, if it reports. *)
Definition reported (cb : Shell.Callback) : option Actuator.Status :=
  match cb with
  | Shell.onDone code _ _ => Some (if code =? 0 then Actuator.completed else Actuator.failed)
  | Shell.onError _ _ => Some Actuator.failed
  | Shell.onYield _ => Some Actuator.running
  | _ => None
  end.

(** The id and status of a command result on the wire. *)
Definition resultOf (msg : Actuator.Outbound) : option (jsstring * Actuator.Status) :=
  match msg with
  | Actuator.command_result id status _ => Some (id, status)
  | Actuator.pong _ => None
  end.

(** The output an event carries to the stdout and to the stderr
    accumulator, by the kind of process the handlers sit on. *)
Definition stdoutOf (viaPty : bool) (e : Shell.Event) : jsstring :=
  match e with
  | Shell.StdoutData d => if viaPty then [] else d
  | Shell.PtyData d => if viaPty then d else []
  | _ => []
  end.

Definition stderrOf (viaPty : bool) (e : Shell.Event) : jsstring :=
  match e with
  | Shell.StderrData d => if viaPty then [] else d
  | _ => []
  end.

Lemma step_emits (e : Shell.Event) (i : Shell.Invocation) (w : Shell.World) :
  Shell.viaPty (fst (Shell.step e i w)) = Shell.viaPty i
  /\ exists new,
       Shell.calls (snd (Shell.step e i w)) = Shell.calls w ++ new
       /\ (length new <= 1)%nat
       /\ concat (omap (fun c => match c with Shell.onStdout d => Some d | _ => None end) new)
          = stdoutOf (Shell.viaPty i) e
       /\ concat (omap (fun c => match c with Shell.onStderr d => Some d | _ => None end) new)
          = stderrOf (Shell.viaPty i) e.
Proof.
  destruct i as [sid t0 secs killed timer yield pty].
  destruct e; simpl;
    unfold Shell.onTimeout, Shell.onYieldTimer, Shell.onData, Shell.onExit,
      Shell.onProcError; simpl;
    destruct killed, timer, yield, pty; simpl;
    try destruct (Shell.sessionExited sid (Shell.registry w)); simpl;
    (split; [reflexivity |]);
    first [ by (exists []; rewrite app_nil_r; simpl; repeat split; try lia)
          | by (eexists; split; [reflexivity |]; simpl; rewrite ?app_nil_r;
                repeat split; try lia) ].
Qed.

Lemma newCalls_app (w w' : Shell.World) (new : list Shell.Callback) :
  Shell.calls w' = Shell.calls w ++ new -> Agent.newCalls w w' = new.
Proof. intros H. unfold Agent.newCalls. rewrite H. apply drop_app_length. Qed.

(** What the delivery of callbacks does and does not touch. *)
Definition delivered (cbs : list Shell.Callback) (r r' : Agent.Running) (a a' : Agent.State) : Prop :=
  Agent.commandId r' = Agent.commandId r /\ Agent.closure r' = Agent.closure r
  /\ Agent.world a' = Agent.world a
  /\ Actuator.ws (Agent.core a') = Actuator.ws (Agent.core a)
  /\ Agent.stdoutAcc r'
     = Agent.stdoutAcc r
       ++ concat (omap (fun c => match c with Shell.onStdout d => Some d | _ => None end) cbs)
  /\ Agent.stderrAcc r'
     = Agent.stderrAcc r
       ++ concat (omap (fun c => match c with Shell.onStderr d => Some d | _ => None end) cbs)
  /\ (Actuator.ws (Agent.core a) = Some Actuator.OPEN ->
      exists msgs,
        Actuator.wire (Agent.core a') = Actuator.wire (Agent.core a) ++ msgs
        /\ map resultOf msgs
           = map (fun st => Some (Agent.commandId r, st)) (omap reported cbs))
  /\ (Actuator.notOpen (Agent.core a) -> Agent.core a' = Agent.core a)
  /\ (Shell.terminals cbs <> 0%nat ->
      Agent.mapHas (Agent.commandId r) (Agent.activeCommands a') = false)
  /\ (Shell.terminals cbs = 0%nat -> Agent.activeCommands a' = Agent.activeCommands a).

Lemma mapHas_delete (k : jsstring) (l : list (jsstring * jsstring)) :
  Agent.mapHas k (Agent.mapDelete k l) = false.
Proof.
  unfold Agent.mapHas, Agent.mapDelete. apply bool_decide_eq_false_2.
  intros Hin. apply list_elem_of_fmap in Hin as ([k' v] & -> & Hkv).
  apply list_elem_of_filter in Hkv as (Hne & _). by apply Hne.
Qed.

Lemma send_open (msg : Actuator.Outbound) (c : Actuator.State) :
  Actuator.ws c = Some Actuator.OPEN ->
  Actuator.ws (Actuator.send msg c) = Some Actuator.OPEN
  /\ Actuator.wire (Actuator.send msg c) = Actuator.wire c ++ [msg].
Proof. intros H. unfold Actuator.send. by rewrite H. Qed.

Lemma send_closed (msg : Actuator.Outbound) (c : Actuator.State) :
  Actuator.notOpen c -> Actuator.send msg c = c.
Proof.
  intros [H | (rs & H & Hrs)]; unfold Actuator.send; rewrite H; [done |].
  by destruct rs.
Qed.

Lemma send_ws (msg : Actuator.Outbound) (c : Actuator.State) :
  Actuator.ws (Actuator.send msg c) = Actuator.ws c.
Proof.
  unfold Actuator.send. destruct (Actuator.ws c) as [[] |] eqn:H; simpl; congruence.
Qed.

Lemma deliver_one (cb : Shell.Callback) (r : Agent.Running) (a : Agent.State) :
  delivered [cb] r (fst (Agent.deliver stringify cb r a)) a
    (snd (Agent.deliver stringify cb r a)).
Proof.
  unfold delivered.
  destruct cb as [d | d | code dur sid | err sid | sid]; simpl.
  all: unfold Actuator.sendResult.
  all: repeat rewrite send_ws.
  all: repeat rewrite app_nil_r.
  all: repeat split; try done.
  all: try (intros Hopen; eexists; split;
         [ first [ apply (send_open _ _ Hopen) | by rewrite app_nil_r ] | reflexivity ]).
  all: try (intros Hclosed; by rewrite send_closed).
  all: try (intros _; apply mapHas_delete).
  all: try (intros Hz; unfold Shell.terminals in Hz; simpl in Hz; done).
Qed.

Lemma delivered_nil (r : Agent.Running) (a : Agent.State) : delivered [] r r a a.
Proof.
  unfold delivered. simpl. rewrite !app_nil_r. repeat split; try done.
  intros _. exists []. by rewrite app_nil_r.
Qed.

Lemma deliverAll_short (cbs : list Shell.Callback) (r : Agent.Running) (a : Agent.State) :
  (length cbs <= 1)%nat ->
  delivered cbs r (fst (Agent.deliverAll stringify cbs r a)) a
    (snd (Agent.deliverAll stringify cbs r a)).
Proof.
  destruct cbs as [| cb [| cb' rest]]; simpl; intros Hlen; [apply delivered_nil | | lia].
  pose proof (deliver_one cb r a) as H.
  by destruct (Agent.deliver stringify cb r a).
Qed.

(** One event, seen from the agent. *)
Lemma onEvent_spec (e : Shell.Event) (r : Agent.Running) (a : Agent.State)
    (inv : Shell.Invocation) :
  Agent.closure r = Some inv ->
  let next := Shell.step e inv (Agent.world a) in
  let r' := fst (Agent.onEvent stringify e r a) in
  let a' := snd (Agent.onEvent stringify e r a) in
  Agent.closure r' = Some (fst next) /\ Agent.world a' = snd next
  /\ Agent.commandId r' = Agent.commandId r
  /\ Actuator.ws (Agent.core a') = Actuator.ws (Agent.core a)
  /\ Agent.stdoutAcc r' = Agent.stdoutAcc r ++ stdoutOf (Shell.viaPty inv) e
  /\ Agent.stderrAcc r' = Agent.stderrAcc r ++ stderrOf (Shell.viaPty inv) e
  /\ (Actuator.ws (Agent.core a) = Some Actuator.OPEN ->
      exists msgs,
        Actuator.wire (Agent.core a') = Actuator.wire (Agent.core a) ++ msgs
        /\ map resultOf msgs
           = map (fun st => Some (Agent.commandId r, st))
               (omap reported (Agent.newCalls (Agent.world a) (snd next))))
  /\ (Actuator.notOpen (Agent.core a) -> Agent.core a' = Agent.core a)
  /\ (Shell.terminals (Agent.newCalls (Agent.world a) (snd next)) <> 0%nat ->
      Agent.mapHas (Agent.commandId r) (Agent.activeCommands a') = false)
  /\ (Shell.terminals (Agent.newCalls (Agent.world a) (snd next)) = 0%nat ->
      Agent.activeCommands a' = Agent.activeCommands a).
Proof.
  intros Hc next r' a'. unfold r', a', Agent.onEvent. rewrite Hc.
  destruct (step_emits e inv (Agent.world a)) as (_ & new & Hnew & Hlen & Hout & Herr).
  fold next in Hnew. unfold next.
  destruct (Shell.step e inv (Agent.world a)) as [inv' w'] eqn:Hstep. simpl in *.
  rewrite (newCalls_app _ _ _ Hnew).
  pose proof (deliverAll_short new
                {| Agent.commandId := Agent.commandId r; Agent.closure := Some inv';
                   Agent.stdoutAcc := Agent.stdoutAcc r; Agent.stderrAcc := Agent.stderrAcc r |}
                (Agent.setWorld w' a) Hlen)
    as (H1 & H2 & H3 & H4 & H5 & H6 & H7 & H8 & H9 & H10).
  simpl in *. rewrite Hout in H5. rewrite Herr in H6.
  repeat split; done.
Qed.

End AgentFacts.

Section AgentClaims.

Variable stringify : Agent.ExecResult -> jsstring.

Lemma run_emits (es : list Shell.Event) (i : Shell.Invocation) (w : Shell.World) :
  Shell.viaPty (fst (Shell.run es i w)) = Shell.viaPty i
  /\ exists new, Shell.calls (snd (Shell.run es i w)) = Shell.calls w ++ new.
Proof.
  revert i w. induction es as [| e es IH]; intros i w; simpl.
  - split; [done |]. exists []. by rewrite app_nil_r.
  - destruct (step_emits e i w) as (Hpty & new & Hnew & _).
    destruct (Shell.step e i w) as [i1 w1]. simpl in *.
    destruct (IH i1 w1) as (Hpty' & new' & Hnew').
    split; [congruence |]. exists (new ++ new'). by rewrite Hnew', Hnew, app_assoc.
Qed.

Lemma run_cons (e : Shell.Event) (es : list Shell.Event) (i : Shell.Invocation)
    (w : Shell.World) :
  Shell.run (e :: es) i w
  = Shell.run es (fst (Shell.step e i w)) (snd (Shell.step e i w)).
Proof. simpl. by destruct (Shell.step e i w). Qed.

Lemma onEvents_cons (e : Shell.Event) (es : list Shell.Event)
    (r : Agent.Running) (a : Agent.State) :
  Agent.onEvents stringify (e :: es) r a
  = Agent.onEvents stringify es (fst (Agent.onEvent stringify e r a))
      (snd (Agent.onEvent stringify e r a)).
Proof. simpl. by destruct (Agent.onEvent stringify e r a). Qed.

(** X25. The agent turns the callbacks of a command into results one for
    one. While the socket is open, a sequence of events puts on the wire
    exactly one [command_result] for each [onYield], [onDone] and
    [onError] the executor calls, in the same order, all with the id of
    the command: [running] for a yield, [completed] for an exit code 0,
    [failed] otherwise. The executor itself runs as it would alone. *)
Theorem results_follow_callbacks (es : list Shell.Event) (r : Agent.Running)
    (a : Agent.State) (inv : Shell.Invocation) :
  Agent.closure r = Some inv ->
  Actuator.ws (Agent.core a) = Some Actuator.OPEN ->
  let after := Shell.run es inv (Agent.world a) in
  let r' := fst (Agent.onEvents stringify es r a) in
  let a' := snd (Agent.onEvents stringify es r a) in
  Agent.closure r' = Some (fst after) /\ Agent.world a' = snd after
  /\ exists msgs,
       Actuator.wire (Agent.core a') = Actuator.wire (Agent.core a) ++ msgs
       /\ map resultOf msgs
          = map (fun st => Some (Agent.commandId r, st))
              (omap reported (Agent.newCalls (Agent.world a) (snd after))).
Proof.
  revert r a inv. induction es as [| e es IH]; intros r a inv Hc Hopen; cbv zeta.
  - simpl. repeat split; [done |]. exists [].
    unfold Agent.newCalls. by rewrite app_nil_r, drop_all.
  - rewrite onEvents_cons, run_cons.
    destruct (onEvent_spec stringify e r a inv Hc)
      as (Hc1 & Hw1 & Hid1 & Hws1 & _ & _ & Hwire1 & _).
    destruct (Hwire1 Hopen) as (msgs1 & Hm1 & Ht1).
    destruct (step_emits e inv (Agent.world a)) as (_ & new1 & Hnew1 & _).
    rewrite Hopen in Hws1.
    destruct (IH _ _ _ Hc1 Hws1) as (Hc2 & Hw2 & msgs2 & Hm2 & Ht2).
    rewrite Hw1 in Hc2, Hw2, Ht2.
    split; [exact Hc2 |]. split; [exact Hw2 |].
    exists (msgs1 ++ msgs2). split; [by rewrite Hm2, Hm1, app_assoc |].
    destruct (run_emits es (fst (Shell.step e inv (Agent.world a)))
                (snd (Shell.step e inv (Agent.world a)))) as (_ & new2 & Hnew2).
    rewrite (newCalls_app _ _ _ Hnew1) in Ht1.
    rewrite (newCalls_app _ _ _ Hnew2) in Ht2.
    rewrite (newCalls_app (Agent.world a) _ (new1 ++ new2))
      by (by rewrite Hnew2, Hnew1, app_assoc).
    rewrite map_app, omap_app, map_app, Ht1, Ht2, Hid1. done.
Qed.

Definition openAgent : Agent.State :=
  {| Agent.core := connected; Agent.activeCommands := [(str "cmd-7", demoId)];
     Agent.world := liveWorld |}.

Definition liveRunning : Agent.Running :=
  {| Agent.commandId := str "cmd-7"; Agent.closure := Some liveInvocation;
     Agent.stdoutAcc := []; Agent.stderrAcc := [] |}.

End AgentClaims.

Lemma results_follow_callbacks_witness :
  map resultOf
    (Actuator.wire
       (Agent.core
          (snd (Agent.onEvents (fun _ => str "{}")
                  [Shell.StdoutData (str "hi"); Shell.ProcClose (Some 3) None 9]
                  liveRunning openAgent))))
  = [Some (str "cmd-7", Actuator.failed)].
Proof.
  destruct (results_follow_callbacks (fun _ => str "{}")
              [Shell.StdoutData (str "hi"); Shell.ProcClose (Some 3) None 9]
              liveRunning openAgent liveInvocation eq_refl eq_refl)
    as (_ & _ & msgs & Hwire & Htags).
  rewrite Hwire. exact Htags.
Defined.

Section OutputClaims.

Variable stringify : Agent.ExecResult -> jsstring.

(** X26. The accumulators of a command take every chunk, whole and in
    order, whatever else happens: after any sequence of events the
    stdout accumulator is what it was followed by all stdout chunks (the
    pty's data, for a pty), the stderr accumulator likewise, with no cap
    and no regard to timeouts or exits. *)
Theorem accumulators_keep_all_output (es : list Shell.Event) (r : Agent.Running)
    (a : Agent.State) (inv : Shell.Invocation) :
  Agent.closure r = Some inv ->
  Agent.stdoutAcc (fst (Agent.onEvents stringify es r a))
  = Agent.stdoutAcc r ++ concat (map (stdoutOf (Shell.viaPty inv)) es)
  /\ Agent.stderrAcc (fst (Agent.onEvents stringify es r a))
     = Agent.stderrAcc r ++ concat (map (stderrOf (Shell.viaPty inv)) es).
Proof.
  revert r a inv. induction es as [| e es IH]; intros r a inv Hc.
  - simpl. by rewrite !app_nil_r.
  - rewrite onEvents_cons.
    destruct (onEvent_spec stringify e r a inv Hc) as (Hc1 & _ & _ & _ & Hout & Herr & _).
    destruct (step_emits e inv (Agent.world a)) as (Hpty & _).
    destruct (IH _ (snd (Agent.onEvent stringify e r a)) _ Hc1) as (Hout' & Herr').
    rewrite Hout', Herr', Hout, Herr, Hpty. simpl. by rewrite <- !app_assoc.
Qed.

End OutputClaims.

Lemma accumulators_keep_all_output_witness :
  Agent.stdoutAcc
    (fst (Agent.onEvents (fun _ => str "{}")
            [Shell.StdoutData (str "a"); Shell.TimeoutFires false;
             Shell.StderrData (str "x"); Shell.StdoutData (str "b")]
            liveRunning openAgent))
  = str "ab".
Proof.
  rewrite (proj1 (accumulators_keep_all_output (fun _ => str "{}")
                    [Shell.StdoutData (str "a"); Shell.TimeoutFires false;
                     Shell.StderrData (str "x"); Shell.StdoutData (str "b")]
                    liveRunning openAgent liveInvocation eq_refl)).
  reflexivity.
Defined.

Section CompletionClaims.

Variable stringify : Agent.ExecResult -> jsstring.

Definition isData (e : Shell.Event) : bool :=
  match e with
  | Shell.StdoutData _ | Shell.StderrData _ | Shell.PtyData _ => true
  | _ => false
  end.

Lemma step_data (e : Shell.Event) (i : Shell.Invocation) (w : Shell.World) :
  isData e = true ->
  fst (Shell.step e i w) = i
  /\ omap reported (Agent.newCalls w (snd (Shell.step e i w))) = [].
Proof.
  intros He. destruct e; try discriminate He; simpl;
    destruct (Shell.viaPty i); simpl; unfold Agent.newCalls; simpl;
    rewrite ?drop_all, ?drop_app_length; done.
Qed.

Lemma onEvents_data (es : list Shell.Event) (r : Agent.Running) (a : Agent.State)
    (inv : Shell.Invocation) :
  Forall (fun e => isData e = true) es ->
  Agent.closure r = Some inv -> Actuator.ws (Agent.core a) = Some Actuator.OPEN ->
  Agent.closure (fst (Agent.onEvents stringify es r a)) = Some inv
  /\ Agent.commandId (fst (Agent.onEvents stringify es r a)) = Agent.commandId r
  /\ Actuator.ws (Agent.core (snd (Agent.onEvents stringify es r a))) = Some Actuator.OPEN
  /\ Actuator.wire (Agent.core (snd (Agent.onEvents stringify es r a)))
     = Actuator.wire (Agent.core a)
  /\ Agent.stdoutAcc (fst (Agent.onEvents stringify es r a))
     = Agent.stdoutAcc r ++ concat (map (stdoutOf (Shell.viaPty inv)) es)
  /\ Agent.stderrAcc (fst (Agent.onEvents stringify es r a))
     = Agent.stderrAcc r ++ concat (map (stderrOf (Shell.viaPty inv)) es).
Proof.
  intros Hall. revert r a. induction Hall as [| e es He _ IH]; intros r a Hc Hopen.
  - simpl. by rewrite !app_nil_r.
  - rewrite onEvents_cons.
    destruct (onEvent_spec stringify e r a inv Hc)
      as (Hc1 & _ & Hid1 & Hws1 & Hout & Herr & Hwire1 & _).
    destruct (step_data e inv (Agent.world a) He) as (Hsame & Hnone).
    rewrite Hsame in Hc1. rewrite Hopen in Hws1.
    destruct (Hwire1 Hopen) as (msgs & Hm & Ht). rewrite Hnone in Ht.
    destruct msgs; [| done]. rewrite app_nil_r in Hm.
    destruct (IH _ _ Hc1 Hws1) as (H1 & H2 & H3 & H4 & H5 & H6).
    rewrite H5, H6, Hout, Herr. simpl. rewrite <- !app_assoc.
    repeat split; congruence.
Qed.

Lemma onEvents_app (es : list Shell.Event) (e : Shell.Event)
    (r : Agent.Running) (a : Agent.State) :
  Agent.onEvents stringify (es ++ [e]) r a
  = Agent.onEvent stringify e (fst (Agent.onEvents stringify es r a))
      (snd (Agent.onEvents stringify es r a)).
Proof.
  revert r a. induction es as [| d es IH]; intros r a.
  - simpl. by destruct (Agent.onEvent stringify e r a).
  - change ((d :: es) ++ [e]) with (d :: (es ++ [e])).
    by rewrite !onEvents_cons, IH.
Qed.

(** X27. A command that only produces output and then closes is answered
    by one result that carries all of it: the message has the id of the
    command, the status [completed] exactly for exit code 0 (a missing
    code counts as 1), the complete stdout and stderr (not the registry's
    200000-character window), the exit code, the duration since the
    start and the session id. *)
Theorem completion_carries_full_output (es : list Shell.Event) (code : option Z)
    (signal : option jsstring) (now : Z) (r : Agent.Running) (a : Agent.State)
    (inv : Shell.Invocation) :
  Agent.closure r = Some inv -> Shell.killed inv = false -> Shell.viaPty inv = false ->
  Actuator.ws (Agent.core a) = Some Actuator.OPEN ->
  Forall (fun e => isData e = true) es ->
  let a' := snd (Agent.onEvents stringify (es ++ [Shell.ProcClose code signal now]) r a) in
  Actuator.wire (Agent.core a')
  = Actuator.wire (Agent.core a)
    ++ [Actuator.command_result (Agent.commandId r)
          (if default 1 code =? 0 then Actuator.completed else Actuator.failed)
          (stringify
             {| Agent.error := None;
                Agent.stdout := Some (Agent.stdoutAcc r ++ concat (map (stdoutOf false) es));
                Agent.stderr := Some (Agent.stderrAcc r ++ concat (map (stderrOf false) es));
                Agent.exitCode := Some (default 1 code);
                Agent.durationMs := Some (now - Shell.startTime inv);
                Agent.sessionId := Some (Shell.session inv);
                Agent.pid := Shell.sessionPid (Shell.session inv)
                               (Shell.registry (Agent.world a')) |})]
  /\ Agent.mapHas (Agent.commandId r) (Agent.activeCommands a') = false.
Proof.
  intros Hc Hk Hpty Hopen Hdata a'. subst a'. rewrite onEvents_app.
  destruct (onEvents_data es r a inv Hdata Hc Hopen)
    as (Hc1 & Hid1 & Hws1 & Hwire1 & Hout & Herr).
  rewrite Hpty in Hout, Herr.
  set (r1 := fst (Agent.onEvents stringify es r a)) in *.
  set (a1 := snd (Agent.onEvents stringify es r a)) in *.
  unfold Agent.onEvent. rewrite Hc1.
  destruct inv as [sid t0 secs killed timer yield pty]. simpl in Hk, Hpty. subst killed pty.
  simpl. unfold Shell.onExit. simpl.
  unfold Agent.newCalls. simpl. rewrite drop_app_length. simpl.
  unfold Actuator.sendResult, Actuator.send. rewrite Hws1. simpl.
  rewrite Hwire1, Hid1, Hout, Herr. split; [reflexivity |].
  apply mapHas_delete.
Qed.

End CompletionClaims.

Lemma completion_carries_full_output_witness :
  map resultOf
    (Actuator.wire
       (Agent.core
          (snd (Agent.onEvents (fun _ => str "{}")
                  ([Shell.StdoutData (str "a"); Shell.StderrData (str "x")]
                   ++ [Shell.ProcClose (Some 0) None 9])
                  liveRunning openAgent))))
  = [Some (str "cmd-7", Actuator.completed)].
Proof.
  rewrite (proj1 (completion_carries_full_output (fun _ => str "{}")
                    [Shell.StdoutData (str "a"); Shell.StderrData (str "x")]
                    (Some 0) None 9 liveRunning openAgent liveInvocation
                    eq_refl eq_refl eq_refl eq_refl ltac:(repeat constructor))).
  reflexivity.
Defined.

Section LifecycleClaims.

Variable stringify : Agent.ExecResult -> jsstring.

Lemma mapHas_set (k v : jsstring) (l : list (jsstring * jsstring)) :
  Agent.mapHas k (Agent.mapSet k v l) = true.
Proof.
  unfold Agent.mapHas. apply bool_decide_eq_true_2.
  induction l as [| [k' v'] l IH]; simpl.
  - apply list_elem_of_here.
  - case_bool_decide; simpl; [apply list_elem_of_here | by apply list_elem_of_further].
Qed.

(** X28. A spawn that throws is answered at once, and leaves a mark: the
    failed result goes out (when the socket is open) and the session
    stays in the registry as exited with code 1, but the command id is
    stored among the active commands after its only callback has tried
    to remove it, and no later event of this command can remove it. *)
Theorem spawn_failure_leaves_command_registered draws now pcwd ptyModule
    (err agentCwd id : jsstring) (payload : Agent.ExecPayload) (a : Agent.State)
    (c : Z) (rest sid : jsstring) :
  Agent.command payload = Some (c :: rest) ->
  Registry.createSessionSlug draws (Shell.registry (Agent.world a)) = Some sid ->
  exists a' r',
    Agent.handleExecCommand stringify draws now pcwd ptyModule (Shell.SpawnThrows err)
      agentCwd id payload a = Some (a', Some r')
    /\ Agent.closure r' = None
    /\ Agent.mapHas id (Agent.activeCommands a') = true
    /\ (forall es, Agent.onEvents stringify es r' a' = (r', a'))
    /\ (exists s, Shell.registry (Agent.world a') !! sid = Some s
                  /\ Registry.exited s = true /\ Registry.exitCode s = value 1)
    /\ (Actuator.ws (Agent.core a) = Some Actuator.OPEN ->
        Actuator.wire (Agent.core a')
        = Actuator.wire (Agent.core a)
          ++ [Actuator.command_result id Actuator.failed
                (stringify {| Agent.error := Some (str "Failed to spawn: " ++ err);
                              Agent.stdout := Some []; Agent.stderr := Some [];
                              Agent.exitCode := None; Agent.durationMs := None;
                              Agent.sessionId := Some sid; Agent.pid := None |})]).
Proof.
  intros Hcmd Hslug.
  unfold Agent.handleExecCommand, Shell.executeShell, Registry.addSession.
  rewrite Hcmd. simpl. rewrite Hslug. simpl.
  unfold Agent.newCalls. simpl. rewrite drop_app_length. simpl.
  eexists _, _. split; [reflexivity |]. simpl.
  split; [reflexivity |]. split; [apply mapHas_set |]. split; [| split].
  - intros es. induction es as [| e es IH]; [done |].
    rewrite onEvents_cons. exact IH.
  - unfold Registry.markExited. rewrite lookup_insert_eq. simpl.
    eexists. rewrite lookup_insert_eq. by repeat split.
  - intros Hopen. unfold Actuator.sendResult, Actuator.send. rewrite Hopen. simpl.
    unfold Shell.sessionPid, Registry.markExited. rewrite lookup_insert_eq. simpl.
    by rewrite lookup_insert_eq.
Qed.

Lemma elem_of_concat {A : Type} (x : A) (ls : list (list A)) :
  x ∈ concat ls <-> exists l, x ∈ l /\ l ∈ ls.
Proof.
  rewrite list_elem_of_In, in_concat. split; intros (l & H1 & H2); exists l.
  - by rewrite !list_elem_of_In.
  - by rewrite <- !list_elem_of_In.
Qed.

Lemma stopped_core_absorbs (e : Actuator.Event) (a : Agent.State) :
  Actuator.handle e (Agent.core (fst (Agent.stop a))) = Agent.core (fst (Agent.stop a)).
Proof. by destruct e. Qed.

(** X29. [stop] is final. It signals [SIGTERM] to exactly the active
    commands whose session has a pid and has not exited, closes the
    socket if there is one, and forgets all commands; afterwards no
    event changes the connection state again: nothing reconnects and
    nothing is sent. *)
Theorem stop_is_final (a : Agent.State) :
  Agent.activeCommands (fst (Agent.stop a)) = []
  /\ (forall es, Actuator.handleAll es (Agent.core (fst (Agent.stop a)))
                 = Agent.core (fst (Agent.stop a)))
  /\ (forall p, Agent.Terminate p ∈ snd (Agent.stop a)
                <-> exists id sid s,
                      (id, sid) ∈ Agent.activeCommands a
                      /\ Shell.registry (Agent.world a) !! sid = Some s
                      /\ Registry.pid s = Some p /\ p <> 0
                      /\ Registry.exited s = false)
  /\ (Agent.CloseSocket 1000 (str "actuator shutting down") ∈ snd (Agent.stop a)
      <-> is_Some (Actuator.ws (Agent.core a))).
Proof.
  split; [done |]. split; [| split].
  - intros es. induction es as [| e es IH]; [done |].
    unfold Actuator.handleAll in *. cbn [foldl].
    rewrite stopped_core_absorbs. exact IH.
  - intros p. unfold Agent.stop. simpl. rewrite elem_of_app. split.
    + intros [Hin | Hin].
      * apply elem_of_concat in Hin as (l & Hp & Hl).
        apply list_elem_of_fmap in Hl as ([id sid] & -> & Hkv).
        unfold Agent.killCommand in Hp. simpl in Hp.
        destruct (Shell.registry (Agent.world a) !! sid) as [s |] eqn:Hs;
          [| by apply elem_of_nil in Hp].
        destruct (Registry.pid s) as [q |] eqn:Hq; [| by apply elem_of_nil in Hp].
        destruct (Z.eqb_spec q 0); simpl in Hp; [by apply elem_of_nil in Hp |].
        destruct (Registry.exited s) eqn:He; simpl in Hp; [by apply elem_of_nil in Hp |].
        apply list_elem_of_singleton in Hp. injection Hp as ->.
        by exists id, sid, s.
      * destruct (Actuator.ws (Agent.core a));
          [apply list_elem_of_singleton in Hin; discriminate | by apply elem_of_nil in Hin].
    + intros (id & sid & s & Hkv & Hs & Hq & Hp0 & He). left.
      apply elem_of_concat. exists [Agent.Terminate p]. split; [apply list_elem_of_here |].
      apply list_elem_of_fmap. exists (id, sid). split; [| done].
      unfold Agent.killCommand. simpl. rewrite Hs, Hq, He.
      by destruct (Z.eqb_spec p 0).
  - unfold Agent.stop. simpl. rewrite elem_of_app. split.
    + intros [Hin | Hin].
      * apply elem_of_concat in Hin as (l & Hp & Hl).
        apply list_elem_of_fmap in Hl as ([id sid] & -> & Hkv).
        unfold Agent.killCommand in Hp. simpl in Hp.
        destruct (Shell.registry (Agent.world a) !! sid) as [s |];
          [| by apply elem_of_nil in Hp].
        destruct (Registry.pid s) as [q |]; [| by apply elem_of_nil in Hp].
        destruct (negb (q =? 0) && negb (Registry.exited s));
          [apply list_elem_of_singleton in Hp; discriminate | by apply elem_of_nil in Hp].
      * destruct (Actuator.ws (Agent.core a)); [by eexists | by apply elem_of_nil in Hin].
    + intros [rs Hrs]. right. rewrite Hrs. apply list_elem_of_here.
Qed.

End LifecycleClaims.

Lemma spawn_failure_leaves_command_registered_witness :
  exists a' r',
    Agent.handleExecCommand (fun _ => str "{}") [str "zz00zz00"] 0 (str "/srv") false
      (Shell.SpawnThrows (str "EAGAIN")) (str "/srv") (str "cmd-8")
      {| Agent.command := Some (str "ls"); Agent.cwd := None; Agent.timeout := None;
         Agent.pty := None; Agent.background := None; Agent.yieldMs := None |}
      openAgent = Some (a', Some r')
    /\ Agent.mapHas (str "cmd-8") (Agent.activeCommands a') = true.
Proof.
  destruct (spawn_failure_leaves_command_registered (fun _ => str "{}") [str "zz00zz00"] 0
              (str "/srv") false (str "EAGAIN") (str "/srv") (str "cmd-8")
              {| Agent.command := Some (str "ls"); Agent.cwd := None; Agent.timeout := None;
                 Agent.pty := None; Agent.background := None; Agent.yieldMs := None |}
              openAgent (codeUnit "l") (str "s") (str "zz00zz00") eq_refl eq_refl)
    as (a' & r' & Hrun & _ & Hhas & _).
  exists a', r'. split; [exact Hrun | exact Hhas].
Defined.
